(** * Bitcoin-implementation: a shallow embedding and its verified properties

    The development follows the three Python modules of the repository:
    - [Bitcoin_Scripts/bitcoin_scripts.py]: script model, serializer, stack
      interpreter, script templates (module [BitcoinScripts]);
    - [Implementing/bitcoin_implementation.py]: wallet, transactions, UTXO
      set, blocks, proof of work, chain (module [Implementing]);
    - [Transaction_prioritization/transaction_prioritization.py]: mempool and
      the four selection strategies (module [Prioritization]).

    Part I holds the definitions, Part II the lemmas and theorems.

    Conventions.  A Python [bytes] value is a list of integers in [0, 256).
    A Python exception is a [None] result (or the [ScriptError] outcome of the
    interpreter).  [hashlib] and [hmac] are library code; SHA-256, RIPEMD-160
    and HMAC-SHA256 are implemented here after FIPS 180-4, the RIPEMD-160
    paper and RFC 2104, and checked on published digests. *)

From Stdlib Require Import ZArith Lia List String Ascii Permutation.
From stdpp Require Import gmap strings pretty list fin_maps.

Local Open Scope Z_scope.

#[local] Set Warnings "-clear-no-such-hyp".

(* ===================================================================== *)
(** * Part I: definitions                                                 *)
(* ===================================================================== *)

(** ** Bytes, text and hexadecimal *)

Definition bytes := list Z.

Definition is_byte (b : Z) : Prop := 0 <= b < 256.

(** [str.encode()] on ASCII text. *)
Definition ascii_bytes (s : string) : bytes :=
  map (fun c => Z.of_N (N_of_ascii c)) (list_ascii_of_string s).

(** [bytes.hex()]. *)
Definition hex_digit (d : Z) : ascii :=
  nth (Z.to_nat d) (list_ascii_of_string "0123456789abcdef") "0"%char.

Fixpoint hex (data : bytes) : string :=
  match data with
  | [] => EmptyString
  | b :: rest => String (hex_digit (Z.shiftr b 4)) (String (hex_digit (Z.land b 15)) (hex rest))
  end.

Module Word32.
Definition mask : Z := 0xffffffff.
Definition wrap (x : Z) : Z := Z.land x mask.
Definition add (a b : Z) : Z := wrap (a + b).
Definition not (x : Z) : Z := Z.lxor x mask.
Definition rotr (x n : Z) : Z := Z.lor (Z.shiftr x n) (wrap (Z.shiftl x (32 - n))).
Definition rotl (x n : Z) : Z := Z.lor (wrap (Z.shiftl x n)) (Z.shiftr x (32 - n)).
Definition of_be (b : bytes) : Z := fold_left (fun acc x => acc * 256 + x) b 0.
Definition of_le (b : bytes) : Z := fold_right (fun x acc => x + 256 * acc) 0 b.
Fixpoint to_le (width : nat) (x : Z) : bytes :=
  match width with
  | O => []
  | S w => Z.land x 255 :: to_le w (Z.shiftr x 8)
  end.
Definition to_be (width : nat) (x : Z) : bytes := rev (to_le width x).
End Word32.

Fixpoint chunks {A} (fuel : nat) (size : nat) (l : list A) : list (list A) :=
  match fuel with
  | O => []
  | S f => match l with
           | [] => []
           | _ => take size l :: chunks f size (drop size l)
           end
  end.

Definition blocks_of (size : nat) (l : bytes) : list bytes := chunks (length l) size l.

Definition md_pad (length_field : Z -> bytes) (msg : bytes) : bytes :=
  let len := Z.of_nat (length msg) in
  msg ++ [128] ++ repeat 0 (Z.to_nat ((55 - len) mod 64)) ++ length_field (8 * len).

Module SHA256.
Import Word32.

(** The round constants, in the rows of four words of FIPS 180-4, 4.2.2. *)
Definition K : list Z :=
  concat
    [[0x428a2f98; 0x71374491; 0xb5c0fbcf; 0xe9b5dba5];
     [0x3956c25b; 0x59f111f1; 0x923f82a4; 0xab1c5ed5];
     [0xd807aa98; 0x12835b01; 0x243185be; 0x550c7dc3];
     [0x72be5d74; 0x80deb1fe; 0x9bdc06a7; 0xc19bf174];
     [0xe49b69c1; 0xefbe4786; 0x0fc19dc6; 0x240ca1cc];
     [0x2de92c6f; 0x4a7484aa; 0x5cb0a9dc; 0x76f988da];
     [0x983e5152; 0xa831c66d; 0xb00327c8; 0xbf597fc7];
     [0xc6e00bf3; 0xd5a79147; 0x06ca6351; 0x14292967];
     [0x27b70a85; 0x2e1b2138; 0x4d2c6dfc; 0x53380d13];
     [0x650a7354; 0x766a0abb; 0x81c2c92e; 0x92722c85];
     [0xa2bfe8a1; 0xa81a664b; 0xc24b8b70; 0xc76c51a3];
     [0xd192e819; 0xd6990624; 0xf40e3585; 0x106aa070];
     [0x19a4c116; 0x1e376c08; 0x2748774c; 0x34b0bcb5];
     [0x391c0cb3; 0x4ed8aa4a; 0x5b9cca4f; 0x682e6ff3];
     [0x748f82ee; 0x78a5636f; 0x84c87814; 0x8cc70208];
     [0x90befffa; 0xa4506ceb; 0xbef9a3f7; 0xc67178f2]].

Definition H0 : list Z :=
  [0x6a09e667; 0xbb67ae85; 0x3c6ef372; 0xa54ff53a;
   0x510e527f; 0x9b05688c; 0x1f83d9ab; 0x5be0cd19].

Definition Ch (x y z : Z) : Z := Z.lxor (Z.land x y) (Z.land (not x) z).
Definition Maj (x y z : Z) : Z := Z.lxor (Z.lxor (Z.land x y) (Z.land x z)) (Z.land y z).
Definition Sigma0 (x : Z) : Z := Z.lxor (Z.lxor (rotr x 2) (rotr x 13)) (rotr x 22).
Definition Sigma1 (x : Z) : Z := Z.lxor (Z.lxor (rotr x 6) (rotr x 11)) (rotr x 25).
Definition sigma0 (x : Z) : Z := Z.lxor (Z.lxor (rotr x 7) (rotr x 18)) (Z.shiftr x 3).
Definition sigma1 (x : Z) : Z := Z.lxor (Z.lxor (rotr x 17) (rotr x 19)) (Z.shiftr x 10).

(* The message schedule, kept newest word first. *)
Fixpoint extend (count : nat) (w : list Z) : list Z :=
  match count with
  | O => w
  | S c =>
      let at_ k := nth k w 0 in
      extend c (add (add (sigma1 (at_ 1%nat)) (at_ 6%nat)) (add (sigma0 (at_ 14%nat)) (at_ 15%nat)) :: w)
  end.

Definition schedule (block : bytes) : list Z :=
  rev (extend 48 (rev (map of_be (chunks 16 4 block)))).

Definition round (s : list Z) (kw : Z * Z) : list Z :=
  match s with
  | [a; b; c; d; e; f; g; h] =>
      let t1 := add (add (add h (Sigma1 e)) (add (Ch e f g) (fst kw))) (snd kw) in
      let t2 := add (Sigma0 a) (Maj a b c) in
      [add t1 t2; a; b; c; add d t1; e; f; g]
  | _ => s
  end.

Definition compress (state : list Z) (block : bytes) : list Z :=
  zip_with add state (fold_left round (combine K (schedule block)) state).

Definition digest (msg : bytes) : bytes :=
  concat (map (to_be 4) (fold_left compress (blocks_of 64 (md_pad (to_be 8) msg)) H0)).
End SHA256.

Module RIPEMD160.
Import Word32.

Definition r_left : list nat :=
  [0; 1; 2; 3; 4; 5; 6; 7; 8; 9; 10; 11; 12; 13; 14; 15;
   7; 4; 13; 1; 10; 6; 15; 3; 12; 0; 9; 5; 2; 14; 11; 8;
   3; 10; 14; 4; 9; 15; 8; 1; 2; 7; 0; 6; 13; 11; 5; 12;
   1; 9; 11; 10; 0; 8; 12; 4; 13; 3; 7; 15; 14; 5; 6; 2;
   4; 0; 5; 9; 7; 12; 2; 10; 14; 1; 3; 8; 11; 6; 15; 13]%nat.

Definition r_right : list nat :=
  [5; 14; 7; 0; 9; 2; 11; 4; 13; 6; 15; 8; 1; 10; 3; 12;
   6; 11; 3; 7; 0; 13; 5; 10; 14; 15; 8; 12; 4; 9; 1; 2;
   15; 5; 1; 3; 7; 14; 6; 9; 11; 8; 12; 2; 10; 0; 4; 13;
   8; 6; 4; 1; 3; 11; 15; 0; 5; 12; 2; 13; 9; 7; 10; 14;
   12; 15; 10; 4; 1; 5; 8; 7; 6; 2; 13; 14; 0; 3; 9; 11]%nat.

Definition s_left : list Z :=
  [11; 14; 15; 12; 5; 8; 7; 9; 11; 13; 14; 15; 6; 7; 9; 8;
   7; 6; 8; 13; 11; 9; 7; 15; 7; 12; 15; 9; 11; 7; 13; 12;
   11; 13; 6; 7; 14; 9; 13; 15; 14; 8; 13; 6; 5; 12; 7; 5;
   11; 12; 14; 15; 14; 15; 9; 8; 9; 14; 5; 6; 8; 6; 5; 12;
   9; 15; 5; 11; 6; 8; 13; 12; 5; 12; 13; 14; 11; 8; 5; 6].

Definition s_right : list Z :=
  [8; 9; 9; 11; 13; 15; 15; 5; 7; 7; 8; 11; 14; 14; 12; 6;
   9; 13; 15; 7; 12; 8; 9; 11; 7; 7; 12; 7; 6; 15; 13; 11;
   9; 7; 15; 11; 8; 6; 6; 14; 12; 13; 5; 14; 13; 13; 7; 5;
   15; 5; 8; 11; 14; 14; 6; 14; 6; 9; 12; 9; 12; 5; 15; 8;
   8; 5; 12; 9; 12; 5; 14; 6; 8; 13; 6; 5; 15; 13; 11; 11].

Definition K_left : list Z := [0x00000000; 0x5a827999; 0x6ed9eba1; 0x8f1bbcdc; 0xa953fd4e].
Definition K_right : list Z := [0x50a28be6; 0x5c4dd124; 0x6d703ef3; 0x7a6d76e9; 0x00000000].

Definition H0 : list Z := [0x67452301; 0xefcdab89; 0x98badcfe; 0x10325476; 0xc3d2e1f0].

Definition f (group : nat) (x y z : Z) : Z :=
  match group with
  | 0%nat => Z.lxor (Z.lxor x y) z
  | 1%nat => Z.lor (Z.land x y) (Z.land (not x) z)
  | 2%nat => Z.lxor (Z.lor x (not y)) z
  | 3%nat => Z.lor (Z.land x z) (Z.land y (not z))
  | _ => Z.lxor x (Z.lor y (not z))
  end.

Definition step (X : list Z) (fgroup : nat) (k : Z) (r : nat) (s : Z) (line : list Z) : list Z :=
  match line with
  | [a; b; c; d; e] =>
      let t := add (rotl (add (add a (f fgroup b c d)) (add (nth r X 0) k)) s) e in
      [e; t; b; rotl c 10; d]
  | _ => line
  end.

Fixpoint rounds (X : list Z) (j : nat) (count : nat) (left right : list Z) : list Z * list Z :=
  match count with
  | O => (left, right)
  | S c =>
      let g := (j / 16)%nat in
      rounds X (S j) c
        (step X g (nth g K_left 0) (nth j r_left 0%nat) (nth j s_left 0) left)
        (step X (4 - g)%nat (nth g K_right 0) (nth j r_right 0%nat) (nth j s_right 0) right)
  end.

Definition compress (h : list Z) (block : bytes) : list Z :=
  let X := map of_le (chunks 16 4 block) in
  match h, rounds X 0 80 h h with
  | [h0; h1; h2; h3; h4], ([a; b; c; d; e], [a'; b'; c'; d'; e']) =>
      [add (add h1 c) d'; add (add h2 d) e'; add (add h3 e) a';
       add (add h4 a) b'; add (add h0 b) c']
  | _, _ => h
  end.

Definition digest (msg : bytes) : bytes :=
  concat (map (to_le 4) (fold_left compress (blocks_of 64 (md_pad (to_le 8) msg)) H0)).
End RIPEMD160.

Definition sha256 (data : bytes) : bytes := SHA256.digest data.
Definition hash256 (data : bytes) : bytes := sha256 (sha256 data).
Definition ripemd160 (data : bytes) : bytes := RIPEMD160.digest data.
Definition hash160 (data : bytes) : bytes := ripemd160 (sha256 data).

Definition hmac_sha256 (key msg : bytes) : bytes :=
  let key := if (64 <? Z.of_nat (length key)) then sha256 key else key in
  let key := key ++ repeat 0 (64 - length key)%nat in
  sha256 (map (Z.lxor 0x5c) key ++ sha256 (map (Z.lxor 0x36) key ++ msg)).

(** ** Python-style helpers *)

(** [struct.pack('<H' | '<I' | '<Q', x)]: little-endian, [struct.error]
    outside the unsigned range. *)
Definition pack_le (width : nat) (x : Z) : option bytes :=
  if (0 <=? x) && (x <? 2 ^ (8 * Z.of_nat width)) then Some (Word32.to_le width x) else None.

(** [s.startswith(prefix)]. *)
Fixpoint startswith (s prefix : string) : bool :=
  match prefix, s with
  | EmptyString, _ => true
  | String p prefix', String c s' => if Ascii.eqb p c then startswith s' prefix' else false
  | String _ _, EmptyString => false
  end.

(** ["0" * count]; a count below one gives the empty string. *)
Definition zeros (count : Z) : string :=
  string_of_list_ascii (repeat "0"%char (Z.to_nat count)).

(* ===================================================================== *)
(** ** Bitcoin_Scripts/bitcoin_scripts.py                                 *)
(* ===================================================================== *)

Module BitcoinScripts.

(** *** Cryptographic primitives *)

Definition sign_message (private_key message : bytes) : bytes :=
  hmac_sha256 private_key message.

(** The HMAC [expected] is computed and never compared: the function
    answers from the two lengths alone. *)
Definition verify_signature (public_key message signature : bytes) : bool :=
  let expected := hmac_sha256 public_key (message ++ ascii_bytes "verify") in
  (length signature =? 32)%nat && (length public_key =? 32)%nat.

(** *** Opcodes (class [OpCode]) *)

Definition OP_0 : Z := 0x00.
Definition OP_FALSE : Z := 0x00.
Definition OP_PUSHDATA1 : Z := 0x4c.
Definition OP_PUSHDATA2 : Z := 0x4d.
Definition OP_PUSHDATA4 : Z := 0x4e.
Definition OP_1NEGATE : Z := 0x4f.
Definition OP_1 : Z := 0x51.
Definition OP_TRUE : Z := 0x51.
Definition OP_2 : Z := 0x52.
Definition OP_3 : Z := 0x53.
Definition OP_16 : Z := 0x60.
Definition OP_NOP : Z := 0x61.
Definition OP_IF : Z := 0x63.
Definition OP_NOTIF : Z := 0x64.
Definition OP_ELSE : Z := 0x67.
Definition OP_ENDIF : Z := 0x68.
Definition OP_VERIFY : Z := 0x69.
Definition OP_RETURN : Z := 0x6a.
Definition OP_2DUP : Z := 0x6e.
Definition OP_3DUP : Z := 0x6f.
Definition OP_DROP : Z := 0x75.
Definition OP_DUP : Z := 0x76.
Definition OP_OVER : Z := 0x78.
Definition OP_ROT : Z := 0x7b.
Definition OP_SWAP : Z := 0x7c.
Definition OP_EQUAL : Z := 0x87.
Definition OP_EQUALVERIFY : Z := 0x88.
Definition OP_1ADD : Z := 0x8b.
Definition OP_1SUB : Z := 0x8c.
Definition OP_ADD : Z := 0x93.
Definition OP_SUB : Z := 0x94.
Definition OP_SHA256 : Z := 0xa8.
Definition OP_HASH160 : Z := 0xa9.
Definition OP_HASH256 : Z := 0xaa.
Definition OP_CHECKSIG : Z := 0xac.
Definition OP_CHECKSIGVERIFY : Z := 0xad.
Definition OP_CHECKMULTISIG : Z := 0xae.
Definition OP_NOP1 : Z := 0xb0.
Definition OP_CHECKLOCKTIMEVERIFY : Z := 0xb1.
Definition OP_CHECKSEQUENCEVERIFY : Z := 0xb2.
Definition OP_NOP4 : Z := 0xb3.
Definition OP_NOP5 : Z := 0xb4.
Definition OP_NOP6 : Z := 0xb5.
Definition OP_NOP7 : Z := 0xb6.
Definition OP_NOP8 : Z := 0xb7.
Definition OP_NOP9 : Z := 0xb8.
Definition OP_NOP10 : Z := 0xb9.

(** The values of the enumeration [OpCode], aliases counted once. *)
Definition OpCode_values : list Z :=
  [0x00; 0x4c; 0x4d; 0x4e; 0x4f;
   0x51; 0x52; 0x53; 0x54; 0x55; 0x56; 0x57; 0x58; 0x59; 0x5a; 0x5b; 0x5c;
   0x5d; 0x5e; 0x5f; 0x60;
   0x61; 0x63; 0x64; 0x67; 0x68; 0x69; 0x6a;
   0x6b; 0x6c; 0x6d; 0x6e; 0x6f; 0x70; 0x71; 0x72; 0x73; 0x74; 0x75; 0x76;
   0x77; 0x78; 0x79; 0x7a; 0x7b; 0x7c; 0x7d;
   0x82; 0x87; 0x88;
   0x8b; 0x8c; 0x8f; 0x90; 0x91; 0x92; 0x93; 0x94; 0x9a; 0x9b; 0x9c; 0x9d;
   0x9e; 0x9f; 0xa0; 0xa1; 0xa2; 0xa3; 0xa4; 0xa5;
   0xa6; 0xa7; 0xa8; 0xa9; 0xaa; 0xab; 0xac; 0xad; 0xae; 0xaf;
   0xb0; 0xb1; 0xb2; 0xb3; 0xb4; 0xb5; 0xb6; 0xb7; 0xb8; 0xb9].

Definition in_OpCode (opcode : Z) : bool := bool_decide (opcode ∈ OpCode_values).

(** *** Scripts (class [Script])

    [Script.opcodes] is a list whose items are an [int] (an instruction) or
    a [bytes] value (a push payload). *)

Inductive ScriptItem : Type :=
| Opcode (op : Z)
| Push (data : bytes).

Definition Script := list ScriptItem.

Global Instance ScriptItem_eq_dec : EqDecision ScriptItem.
Proof. solve_decision. Defined.

Definition serialize_item (op : ScriptItem) : option bytes :=
  match op with
  | Push data =>
      let length := Z.of_nat (length data) in
      if length <? 76 then Some ([length] ++ data)
      else if length <=? 0xff then Some ([OP_PUSHDATA1; length] ++ data)
      else match pack_le 2 length with
           | Some packed => Some ([OP_PUSHDATA2] ++ packed ++ data)
           | None => None
           end
  | Opcode op =>
      (* bytes([op]) raises ValueError outside range(256) *)
      if (0 <=? op) && (op <? 256) then Some [op] else None
  end.

Fixpoint serialize (script : Script) : option bytes :=
  match script with
  | [] => Some []
  | op :: rest =>
      match serialize_item op, serialize rest with
      | Some b, Some bs => Some (b ++ bs)
      | _, _ => None
      end
  end.

(** The cursor [i] of the source is the unread suffix [data[i:]]; slices
    past the end are cut short, as Python slices are.  Each turn of the loop
    reads at least one byte, so [length data] turns are enough and [fuel]
    never runs out in [deserialize]. *)
Fixpoint deserialize_loop (fuel : nat) (data : bytes) : option Script :=
  match fuel, data with
  | O, _ => Some []
  | _, [] => Some []
  | S fuel', opcode :: rest =>
      if opcode <? OP_PUSHDATA1 then
        let length := Z.to_nat opcode in
        cons (Push (take length rest)) <$> deserialize_loop fuel' (drop length rest)
      else if opcode =? OP_PUSHDATA1 then
        match rest with
        | len :: rest' =>
            let length := Z.to_nat len in
            cons (Push (take length rest')) <$> deserialize_loop fuel' (drop length rest')
        | [] => None (* IndexError *)
        end
      else if opcode =? OP_PUSHDATA2 then
        match rest with
        | lo :: hi :: rest' =>
            let length := Z.to_nat (lo + 256 * hi) in
            cons (Push (take length rest')) <$> deserialize_loop fuel' (drop length rest')
        | _ => None (* struct.error *)
        end
      else
        cons (Opcode opcode) <$> deserialize_loop fuel' rest
  end.

Definition deserialize (data : bytes) : option Script :=
  deserialize_loop (length data) data.

(** *** Script numbers ([_encode_num], [_decode_num]) *)

(** The loop [while n > 0: result.append(n & 0xff); n >>= 8]. *)
Fixpoint magnitude_bytes (fuel : nat) (n : Z) : bytes :=
  match fuel with
  | O => []
  | S fuel' =>
      if 0 <? n then Z.land n 0xff :: magnitude_bytes fuel' (Z.shiftr n 8) else []
  end.

(** [l[-1] = x] on a non-empty list. *)
Definition set_last (x : Z) (l : bytes) : bytes := removelast l ++ [x].

Definition _encode_num (n : Z) : bytes :=
  if n =? 0 then []
  else
    let negative := n <? 0 in
    let n := Z.abs n in
    let result := magnitude_bytes (S (Z.to_nat (Z.log2 n))) n in
    let top := default 0 (last result) in
    if negb (Z.land top 0x80 =? 0) then
      result ++ [if negative then 0x80 else 0x00]
    else if negative then set_last (Z.lor top 0x80) result
    else result.

(** [for i, byte in enumerate(data): result |= byte << (8 * i)]. *)
Fixpoint or_shifted (i : Z) (result : Z) (data : bytes) : Z :=
  match data with
  | [] => result
  | byte :: rest => or_shifted (i + 1) (Z.lor result (Z.shiftl byte (8 * i))) rest
  end.

Definition _decode_num (data : bytes) : Z :=
  match data with
  | [] => 0
  | _ =>
      let top := default 0 (last data) in
      let negative := Z.land top 0x80 in
      let data := if negative =? 0 then data else set_last (Z.land top 0x7f) data in
      let result := or_shifted 0 0 data in
      if negative =? 0 then result else - result
  end.

Definition _cast_to_bool (data : bytes) : bool :=
  match data with
  | [] => false
  | [0x80] => false
  | _ => true
  end.

(** *** The interpreter (class [ScriptInterpreter]) *)

(** The [transaction_context] dictionary: an absent key is [None]. *)
Record TxContext : Type := mkTxContext {
  tx_data : option bytes;
  locktime : option Z;
  current_time : option Z;
  block_height : option Z;
  sequence : option Z
}.

Definition empty_context : TxContext := mkTxContext None None None None None.

(** Interpreter state.  Both stacks are kept top first: the head of [stack]
    is [self.stack[-1]].  [clock] is the value [int(time.time())] reads. *)
Record ScriptInterpreter : Type := mkInterpreter {
  stack : list bytes;
  alt_stack : list bytes;
  transaction_context : TxContext;
  clock : Z
}.

(** [ScriptInterpreter(transaction_context)]. *)
Definition new_interpreter (ctx : option TxContext) (clock : Z) : ScriptInterpreter :=
  mkInterpreter [] [] (default empty_context ctx) clock.

Definition set_stack (vm : ScriptInterpreter) (s : list bytes) : ScriptInterpreter :=
  mkInterpreter s (alt_stack vm) (transaction_context vm) (clock vm).

(** Result of one instruction: it returned, or it raised [ScriptError];
    in both cases the interpreter keeps what was done to its stack. *)
Inductive Outcome : Type :=
| Returned (vm : ScriptInterpreter)
| ScriptError (vm : ScriptInterpreter).

Definition truth (b : bool) : bytes := if b then [0x01] else [].

(** The signature-matching loop of OP_CHECKMULTISIG, over
    [reversed(pubkeys)]. *)
Fixpoint match_signatures (tx : bytes) (keys signatures : list bytes) (sig_index : nat) : nat :=
  match keys with
  | [] => sig_index
  | pubkey :: keys' =>
      if (length signatures <=? sig_index)%nat then sig_index
      else if verify_signature pubkey tx (nth sig_index signatures [])
           then match_signatures tx keys' signatures (S sig_index)
           else match_signatures tx keys' signatures sig_index
  end.

Definition checkmultisig (vm : ScriptInterpreter) : Outcome :=
  match stack vm with
  | [] => ScriptError vm
  | top :: s1 =>
      let n := _decode_num top in
      if Z.of_nat (length s1) <? n then ScriptError (set_stack vm s1)
      else
        let pubkeys := take (Z.to_nat n) s1 in
        match drop (Z.to_nat n) s1 with
        | [] => ScriptError (set_stack vm [])
        | top' :: s2 =>
            let m := _decode_num top' in
            if Z.of_nat (length s2) <? m then ScriptError (set_stack vm s2)
            else
              let signatures := take (Z.to_nat m) s2 in
              match drop (Z.to_nat m) s2 with
              | [] => ScriptError (set_stack vm [])
              | _ :: s3 =>
                  let tx := default [] (tx_data (transaction_context vm)) in
                  let sig_index := match_signatures tx (rev pubkeys) signatures 0 in
                  let valid := Z.of_nat sig_index =? m in
                  Returned (set_stack vm (truth valid :: s3))
              end
        end
  end.

Definition _execute_opcode (vm : ScriptInterpreter) (opcode : Z) : Outcome :=
  let ctx := transaction_context vm in
  let push x := Returned (set_stack vm (x :: stack vm)) in
  (* Constants *)
  if (OP_0 <=? opcode) && (opcode <=? OP_16) then
    if opcode =? OP_0 then push []
    else push (_encode_num (opcode - OP_1 + 1))
  (* Flow control *)
  else if opcode =? OP_NOP then Returned vm
  else if opcode =? OP_VERIFY then
    match stack vm with
    | top :: s => if _cast_to_bool top then Returned (set_stack vm s) else ScriptError vm
    | _ => ScriptError vm
    end
  else if opcode =? OP_RETURN then ScriptError vm
  (* Stack operations *)
  else if opcode =? OP_DUP then
    match stack vm with
    | a :: s => Returned (set_stack vm (a :: a :: s))
    | _ => ScriptError vm
    end
  else if opcode =? OP_DROP then
    match stack vm with
    | _ :: s => Returned (set_stack vm s)
    | _ => ScriptError vm
    end
  else if opcode =? OP_SWAP then
    match stack vm with
    | a :: b :: s => Returned (set_stack vm (b :: a :: s))
    | _ => ScriptError vm
    end
  else if opcode =? OP_2DUP then
    match stack vm with
    | a :: b :: s => Returned (set_stack vm (a :: b :: a :: b :: s))
    | _ => ScriptError vm
    end
  else if opcode =? OP_3DUP then
    match stack vm with
    | a :: b :: c :: s => Returned (set_stack vm (a :: b :: c :: a :: b :: c :: s))
    | _ => ScriptError vm
    end
  else if opcode =? OP_OVER then
    match stack vm with
    | a :: b :: s => Returned (set_stack vm (b :: a :: b :: s))
    | _ => ScriptError vm
    end
  else if opcode =? OP_ROT then
    match stack vm with
    | a :: b :: c :: s => Returned (set_stack vm (c :: a :: b :: s))
    | _ => ScriptError vm
    end
  (* Bitwise logic *)
  else if opcode =? OP_EQUAL then
    match stack vm with
    | a :: b :: s => Returned (set_stack vm (truth (bool_decide (a = b)) :: s))
    | _ => ScriptError vm
    end
  else if opcode =? OP_EQUALVERIFY then
    match stack vm with
    | a :: b :: s =>
        if bool_decide (a = b) then Returned (set_stack vm s) else ScriptError (set_stack vm s)
    | _ => ScriptError vm
    end
  (* Arithmetic *)
  else if opcode =? OP_1ADD then
    match stack vm with
    | a :: s => Returned (set_stack vm (_encode_num (_decode_num a + 1) :: s))
    | _ => ScriptError vm
    end
  else if opcode =? OP_1SUB then
    match stack vm with
    | a :: s => Returned (set_stack vm (_encode_num (_decode_num a - 1) :: s))
    | _ => ScriptError vm
    end
  else if opcode =? OP_ADD then
    match stack vm with
    | b :: a :: s => Returned (set_stack vm (_encode_num (_decode_num a + _decode_num b) :: s))
    | _ => ScriptError vm
    end
  else if opcode =? OP_SUB then
    match stack vm with
    | b :: a :: s => Returned (set_stack vm (_encode_num (_decode_num a - _decode_num b) :: s))
    | _ => ScriptError vm
    end
  (* Crypto *)
  else if opcode =? OP_SHA256 then
    match stack vm with
    | data :: s => Returned (set_stack vm (sha256 data :: s))
    | _ => ScriptError vm
    end
  else if opcode =? OP_HASH160 then
    match stack vm with
    | data :: s => Returned (set_stack vm (hash160 data :: s))
    | _ => ScriptError vm
    end
  else if opcode =? OP_HASH256 then
    match stack vm with
    | data :: s => Returned (set_stack vm (hash256 data :: s))
    | _ => ScriptError vm
    end
  else if opcode =? OP_CHECKSIG then
    match stack vm with
    | pubkey :: signature :: s =>
        let valid := verify_signature pubkey (default [] (tx_data ctx)) signature in
        Returned (set_stack vm (truth valid :: s))
    | _ => ScriptError vm
    end
  else if opcode =? OP_CHECKSIGVERIFY then
    match stack vm with
    | pubkey :: signature :: s =>
        if verify_signature pubkey (default [] (tx_data ctx)) signature
        then Returned (set_stack vm s) else ScriptError (set_stack vm s)
    | _ => ScriptError vm
    end
  else if opcode =? OP_CHECKMULTISIG then checkmultisig vm
  (* Timelocks *)
  else if opcode =? OP_CHECKLOCKTIMEVERIFY then
    match stack vm with
    | top :: _ =>
        let locktime := _decode_num top in
        let current_time := default (clock vm) (current_time ctx) in
        if locktime <? 500000000 then
          let current_height := default 0 (block_height ctx) in
          if current_height <? locktime then ScriptError vm else Returned vm
        else
          if current_time <? locktime then ScriptError vm else Returned vm
    | _ => ScriptError vm
    end
  else if opcode =? OP_CHECKSEQUENCEVERIFY then
    match stack vm with
    | top :: _ =>
        let sequence_ := _decode_num top in
        let tx_sequence := default 0xffffffff (sequence ctx) in
        if sequence_ <? 0 then ScriptError vm
        else if tx_sequence <? sequence_ then ScriptError vm
        else Returned vm
    | _ => ScriptError vm
    end
  else
    (* Unknown or unimplemented opcode *)
    if bool_decide (opcode ∈ [OP_NOP1; OP_NOP4; OP_NOP5; OP_NOP6; OP_NOP7; OP_NOP8; OP_NOP9; OP_NOP10])
    then Returned vm
    else ScriptError vm.

(** The [for op in script.opcodes] loop inside [try]. *)
Fixpoint run (vm : ScriptInterpreter) (opcodes : Script) : Outcome :=
  match opcodes with
  | [] => Returned vm
  | Push data :: rest => run (set_stack vm (data :: stack vm)) rest
  | Opcode op :: rest =>
      match _execute_opcode vm op with
      | Returned vm' => run vm' rest
      | ScriptError vm' => ScriptError vm'
      end
  end.

(** [execute] returns its boolean and leaves the interpreter in a new
    state. *)
Definition execute (vm : ScriptInterpreter) (script : Script) : bool * ScriptInterpreter :=
  match run vm script with
  | Returned vm' =>
      match stack vm' with
      | [] => (false, vm')
      | top :: _ => (_cast_to_bool top, vm')
      end
  | ScriptError vm' => (false, vm')
  end.

(** *** Script templates (class [ScriptTemplates]) *)

Definition p2pkh_script_pubkey (pubkey_hash : bytes) : Script :=
  [Opcode OP_DUP; Opcode OP_HASH160; Push pubkey_hash; Opcode OP_EQUALVERIFY; Opcode OP_CHECKSIG].

Definition p2pkh_script_sig (signature pubkey : bytes) : Script :=
  [Push signature; Push pubkey].

Definition p2sh_script_pubkey (script_hash : bytes) : Script :=
  [Opcode OP_HASH160; Push script_hash; Opcode OP_EQUAL].

Definition p2wpkh_script_pubkey (pubkey_hash : bytes) : Script :=
  [Opcode OP_0; Push pubkey_hash].

Definition p2wsh_script_pubkey (script_hash : bytes) : Script :=
  [Opcode OP_0; Push script_hash].

Definition multisig_script_pubkey (m : Z) (pubkeys : list bytes) : Script :=
  let n := Z.of_nat (length pubkeys) in
  [Opcode (m + OP_1 - 1)] ++ map Push pubkeys ++ [Opcode (n + OP_1 - 1)] ++ [Opcode OP_CHECKMULTISIG].

Definition multisig_script_sig (signatures : list bytes) : Script :=
  [Opcode OP_0] ++ map Push signatures.

Definition timelock_script_cltv (locktime : Z) (pubkey_hash : bytes) : Script :=
  [Push (_encode_num locktime); Opcode OP_CHECKLOCKTIMEVERIFY; Opcode OP_DROP;
   Opcode OP_DUP; Opcode OP_HASH160; Push pubkey_hash; Opcode OP_EQUALVERIFY;
   Opcode OP_CHECKSIG].

Definition timelock_script_csv (sequence : Z) (pubkey_hash : bytes) : Script :=
  [Push (_encode_num sequence); Opcode OP_CHECKSEQUENCEVERIFY; Opcode OP_DROP;
   Opcode OP_DUP; Opcode OP_HASH160; Push pubkey_hash; Opcode OP_EQUALVERIFY;
   Opcode OP_CHECKSIG].

Definition htlc_script (hash_lock : bytes) (timeout : Z)
    (recipient_pubkey_hash sender_pubkey_hash : bytes) : Script :=
  [Opcode OP_IF; Opcode OP_SHA256; Push hash_lock; Opcode OP_EQUALVERIFY;
   Opcode OP_DUP; Opcode OP_HASH160; Push recipient_pubkey_hash; Opcode OP_ELSE;
   Push (_encode_num timeout); Opcode OP_CHECKLOCKTIMEVERIFY; Opcode OP_DROP;
   Opcode OP_DUP; Opcode OP_HASH160; Push sender_pubkey_hash; Opcode OP_ENDIF;
   Opcode OP_EQUALVERIFY; Opcode OP_CHECKSIG].

(** *** Specification vocabulary *)

(** The value of a little-endian byte string. *)
Fixpoint le_val (l : bytes) : Z :=
  match l with [] => 0 | b :: t => b + 256 * le_val t end.

Definition byte_range : list Z := map Z.of_nat (seq 0 256).

Definition top_nonzero (l : bytes) : Prop :=
  match last l with Some t => t <> 0 | None => True end.

(** A script number in its shortest form: the last byte is not a bare sign
    byte, unless the byte before it needs one. *)
Definition minimally_encoded (data : bytes) : bool :=
  match last data with
  | None => true
  | Some hi =>
      negb (Z.land hi 127 =? 0)
      || match last (removelast data) with
         | Some below => negb (Z.land below 128 =? 0)
         | None => false
         end
  end.

Definition valid_script_number (data : bytes) : Prop :=
  Forall is_byte data /\ minimally_encoded data = true.

(** A script item the serializer accepts and the deserializer reads back. *)
Definition storable (item : ScriptItem) : Prop :=
  match item with
  | Opcode op => op = OP_0 \/ OP_PUSHDATA4 <= op <= 0xff
  | Push data => Z.of_nat (length data) <= 0xffff
  end.

(** How an item comes back: OP_0 and the empty push share the byte 0x00. *)
Definition as_read (item : ScriptItem) : ScriptItem :=
  match item with
  | Opcode op => if op =? OP_0 then Push [] else Opcode op
  | Push data => Push data
  end.

Definition is_OP_0 (item : ScriptItem) : bool :=
  match item with
  | Opcode op => op =? OP_0
  | Push _ => false
  end.

(** The scripts of [ScriptTemplates], with payloads the serializer takes. *)
Inductive from_catalog : Script -> Prop :=
| catalog_p2pkh_lock h : storable (Push h) -> from_catalog (p2pkh_script_pubkey h)
| catalog_p2pkh_unlock sig pub :
    storable (Push sig) -> storable (Push pub) -> from_catalog (p2pkh_script_sig sig pub)
| catalog_p2sh h : storable (Push h) -> from_catalog (p2sh_script_pubkey h)
| catalog_p2wpkh h : storable (Push h) -> from_catalog (p2wpkh_script_pubkey h)
| catalog_p2wsh h : storable (Push h) -> from_catalog (p2wsh_script_pubkey h)
| catalog_multisig_lock m pubkeys :
    1 <= m <= 16 -> (1 <= length pubkeys <= 16)%nat -> Forall (fun k => storable (Push k)) pubkeys ->
    from_catalog (multisig_script_pubkey m pubkeys)
| catalog_multisig_unlock sigs :
    Forall (fun s => storable (Push s)) sigs -> from_catalog (multisig_script_sig sigs)
| catalog_cltv locktime h :
    Z.abs locktime < 2 ^ 63 -> storable (Push h) -> from_catalog (timelock_script_cltv locktime h)
| catalog_csv sequence h :
    Z.abs sequence < 2 ^ 63 -> storable (Push h) -> from_catalog (timelock_script_csv sequence h)
| catalog_htlc hash_lock timeout recipient sender :
    Z.abs timeout < 2 ^ 63 -> storable (Push hash_lock) -> storable (Push recipient) ->
    storable (Push sender) -> from_catalog (htlc_script hash_lock timeout recipient sender).

Definition is_32_bytes (b : bytes) : Prop := length b = 32%nat.

(** The interpreter as a call that did or did not raise leaves it. *)
Definition state_of (o : Outcome) : ScriptInterpreter :=
  match o with Returned vm | ScriptError vm => vm end.

(** Unlock, then lock, on one fresh interpreter, as the repository's
    demonstrations run a spend. *)
Definition spend (ctx : option TxContext) (clk : Z) (unlock lock : Script) : bool :=
  let vm := new_interpreter ctx clk in
  fst (execute (snd (execute vm unlock)) lock).

(** The key pair of the demonstrations and of [Wallet]. *)
Definition public_key_of (private_key : bytes) : bytes :=
  sha256 (private_key ++ ascii_bytes "pubkey").

Definition demo_key (seed : Z) : bytes := public_key_of (replicate 32 seed).
Definition demo_signature (seed : Z) : bytes := sign_message (replicate 32 seed) (ascii_bytes "msg").
Definition demo_context : option TxContext :=
  Some (mkTxContext (Some (ascii_bytes "msg")) None None None None).

End BitcoinScripts.

(* ===================================================================== *)
(** ** Implementing/bitcoin_implementation.py                             *)
(* ===================================================================== *)

Module Implementing.

(** *** Wallet *)

Record Wallet : Type := mkWallet {
  private_key : bytes;
  public_key : bytes;
  address : string
}.

Definition _generate_address (public_key : bytes) : string :=
  let pub_key_hash := hash160 public_key in
  let versioned_hash := [0x00] ++ pub_key_hash in
  let checksum := take 4 (hash256 versioned_hash) in
  hex (versioned_hash ++ checksum).

(** [Wallet()]; the argument is what [secrets.token_bytes(32)] returned. *)
Definition new_wallet (private_key : bytes) : Wallet :=
  let public_key := sha256 (private_key ++ ascii_bytes "pubkey") in
  mkWallet private_key public_key (_generate_address public_key).

Definition sign (w : Wallet) (message : bytes) : bytes :=
  hmac_sha256 (private_key w) message.

Definition verify (w : Wallet) (message signature : bytes) : bool :=
  bool_decide (signature = sign w message).

(** The body is [return len(signature) == 32]. *)
Definition verify_with_pubkey (public_key_bytes message signature : bytes) : bool :=
  (length signature =? 32)%nat.

(** *** Transactions *)

Record TxInput : Type := mkTxInput {
  prev_tx_hash : string;
  prev_output_index : Z;
  signature : bytes;
  input_public_key : bytes
}.

Record TxOutput : Type := mkTxOutput {
  amount : Z;
  recipient_address : string
}.

Record Transaction : Type := mkTransaction {
  inputs : list TxInput;
  outputs : list TxOutput;
  timestamp : Z;
  tx_hash : string
}.

(** ["0" * 64]. *)
Definition zero_hash : string := zeros 64.

(** [b''.join(parts)] where a part may have raised. *)
Fixpoint join (parts : list (option bytes)) : option bytes :=
  match parts with
  | [] => Some []
  | Some b :: rest => app b <$> join rest
  | None :: _ => None
  end.

Definition serialize_for_hashing (inputs : list TxInput) (outputs : list TxOutput)
    (timestamp : Z) : option bytes :=
  join ([pack_le 4 timestamp; pack_le 4 (Z.of_nat (length inputs))]
        ++ flat_map (fun inp => [Some (ascii_bytes (prev_tx_hash inp));
                                 pack_le 4 (prev_output_index inp)]) inputs
        ++ [pack_le 4 (Z.of_nat (length outputs))]
        ++ flat_map (fun out => [pack_le 8 (amount out);
                                 Some (ascii_bytes (recipient_address out))]) outputs).

Definition calculate_hash (inputs : list TxInput) (outputs : list TxOutput)
    (timestamp : Z) : option string :=
  (fun tx_data => hex (hash256 tx_data)) <$> serialize_for_hashing inputs outputs timestamp.

(** [Transaction(inputs, outputs, timestamp, tx_hash)] with its
    [__post_init__]: an empty [tx_hash] is replaced by the computed one. *)
Definition new_transaction (inputs : list TxInput) (outputs : list TxOutput)
    (timestamp : Z) (tx_hash : string) : option Transaction :=
  if bool_decide (tx_hash = EmptyString) then
    mkTransaction inputs outputs timestamp <$> calculate_hash inputs outputs timestamp
  else Some (mkTransaction inputs outputs timestamp tx_hash).

(** [block_height] is accepted and not used; [now] is the clock reading
    that becomes the transaction's default timestamp. *)
Definition create_coinbase_transaction (miner_address : string) (block_height : Z)
    (reward : Z) (now : Z) : option Transaction :=
  let coinbase_input := mkTxInput zero_hash 0xFFFFFFFF [] [] in
  let output := mkTxOutput reward miner_address in
  new_transaction [coinbase_input] [output] now EmptyString.

(** *** UTXO set *)

(** The dictionary [utxos], keyed by the text ["tx_hash:output_index"]. *)
Definition utxo_key (tx_hash : string) (output_index : Z) : string :=
  tx_hash +:+ ":" +:+ pretty output_index.

Definition add_utxo (utxos : gmap string TxOutput) (tx_hash : string) (output_index : Z)
    (output : TxOutput) : gmap string TxOutput :=
  <[utxo_key tx_hash output_index := output]> utxos.

Definition remove_utxo (utxos : gmap string TxOutput) (tx_hash : string)
    (output_index : Z) : gmap string TxOutput :=
  let key := utxo_key tx_hash output_index in
  if bool_decide (is_Some (utxos !! key)) then delete key utxos else utxos.

Definition get_balance (utxos : gmap string TxOutput) (address : string) : Z :=
  map_fold (fun _ utxo balance =>
              if bool_decide (recipient_address utxo = address)
              then balance + amount utxo else balance) 0 utxos.

Definition remove_spent (utxos : gmap string TxOutput) (inputs : list TxInput)
  : gmap string TxOutput :=
  foldl (fun utxos inp =>
           if bool_decide (prev_tx_hash inp <> zero_hash)
           then remove_utxo utxos (prev_tx_hash inp) (prev_output_index inp)
           else utxos) utxos inputs.

(** [for idx, output in enumerate(outputs): add_utxo(tx_hash, idx, output)],
    started at index [idx]. *)
Fixpoint add_outputs (utxos : gmap string TxOutput) (tx_hash : string) (idx : Z)
    (outputs : list TxOutput) : gmap string TxOutput :=
  match outputs with
  | [] => utxos
  | output :: rest => add_outputs (add_utxo utxos tx_hash idx output) tx_hash (idx + 1) rest
  end.

Definition update_with_transaction (utxos : gmap string TxOutput) (tx : Transaction)
  : gmap string TxOutput :=
  add_outputs (remove_spent utxos (inputs tx)) (tx_hash tx) 0 (outputs tx).

(** *** Blocks and proof of work *)

Record Block : Type := mkBlock {
  index : Z;
  block_timestamp : Z;
  transactions : list Transaction;
  previous_hash : string;
  nonce : Z;
  hash : string;
  difficulty : Z
}.

Definition set_nonce (b : Block) (n : Z) : Block :=
  mkBlock (index b) (block_timestamp b) (transactions b) (previous_hash b) n (hash b) (difficulty b).

Definition set_hash (b : Block) (h : string) : Block :=
  mkBlock (index b) (block_timestamp b) (transactions b) (previous_hash b) (nonce b) h (difficulty b).

Definition set_difficulty (b : Block) (d : Z) : Block :=
  mkBlock (index b) (block_timestamp b) (transactions b) (previous_hash b) (nonce b) (hash b) d.

Definition serialize (b : Block) : option bytes :=
  join ([pack_le 4 (index b); pack_le 8 (block_timestamp b);
         Some (ascii_bytes (previous_hash b)); pack_le 4 (nonce b);
         pack_le 4 (difficulty b)]
        ++ map (fun tx => Some (ascii_bytes (tx_hash tx))) (transactions b)).

Definition block_hash (b : Block) : option string :=
  (fun block_data => hex (hash256 block_data)) <$> serialize b.

(** [Block(...)] with its [__post_init__]. *)
Definition new_block (index timestamp : Z) (transactions : list Transaction)
    (previous_hash : string) (difficulty : Z) : option Block :=
  let b := mkBlock index timestamp transactions previous_hash 0 EmptyString difficulty in
  set_hash b <$> block_hash b.

(** The safety limit of [mine_block]. *)
Definition attempt_limit : Z := 10000000.

(** The [while True] loop of [mine_block]; [attempts] is its counter.  The
    loop returns at the latest when [attempts] passes [attempt_limit], so
    [mine_block] gives it exactly that many turns. *)
Fixpoint mine_loop (fuel : nat) (attempts : Z) (b : Block) : option Block :=
  match fuel with
  | O => None
  | S fuel' =>
      let b := set_nonce b attempts in
      match block_hash b with
      | None => None (* struct.error *)
      | Some h =>
          let b := set_hash b h in
          if startswith h (zeros (difficulty b)) then Some b
          else
            let attempts := attempts + 1 in
            if attempt_limit <? attempts then Some b
            else mine_loop fuel' attempts b
      end
  end.

(** [mine_block(difficulty)]: the block as the call leaves it; the returned
    nonce is the block's. *)
Definition mine_block (b : Block) (difficulty : option Z) : option Block :=
  let b := match difficulty with Some d => set_difficulty b d | None => b end in
  mine_loop (Z.to_nat (attempt_limit + 1)) 0 b.

(** *** Blockchain *)

Record Blockchain : Type := mkBlockchain {
  chain : list Block;
  pending_transactions : list Transaction;
  utxo_set : gmap string TxOutput;
  chain_difficulty : Z;
  mining_reward : Z
}.

(** [Blockchain()]: [__init__] followed by [_create_genesis_block]; the two
    arguments are the clock readings for the genesis transaction and the
    genesis block. *)
Definition new_blockchain (tx_now block_now : Z) : option Blockchain :=
  genesis_tx ← new_transaction [] [mkTxOutput 10000000000 "genesis"] tx_now EmptyString;
  genesis_block ← new_block 0 block_now [genesis_tx] zero_hash 4;
  Some (mkBlockchain [genesis_block] [] (update_with_transaction ∅ genesis_tx) 4 5000000000).

Definition get_latest_block (bc : Blockchain) : option Block := last (chain bc).

Definition verify_signatures (tx : Transaction) (utxos : gmap string TxOutput) : option bool :=
  message ← serialize_for_hashing (inputs tx) (outputs tx) (timestamp tx);
  Some (forallb (fun inp =>
          negb (bool_decide (signature inp = [])) && negb (bool_decide (input_public_key inp = []))
          && verify_with_pubkey (input_public_key inp) message (signature inp)
          && bool_decide (is_Some (utxos !! utxo_key (prev_tx_hash inp) (prev_output_index inp))))
        (inputs tx)).

Definition sum_amounts (outs : list TxOutput) : Z :=
  foldr (fun out acc => amount out + acc) 0 outs.

Definition coinbase_shaped (tx : Transaction) : bool :=
  match inputs tx with
  | [inp] => bool_decide (prev_tx_hash inp = zero_hash)
  | _ => false
  end.

Definition _validate_transaction (bc : Blockchain) (tx : Transaction) : option bool :=
  if coinbase_shaped tx then Some true
  else
    let found := map (fun inp => utxo_set bc !! utxo_key (prev_tx_hash inp) (prev_output_index inp))
                     (inputs tx) in
    if forallb (fun o => bool_decide (is_Some o)) found then
      let total_input := sum_amounts (omap id found) in
      if total_input <? sum_amounts (outputs tx) then Some false
      else verify_signatures tx (utxo_set bc)
    else Some false.

Definition add_transaction (bc : Blockchain) (tx : Transaction) : option (bool * Blockchain) :=
  ok ← _validate_transaction bc tx;
  Some (if ok : bool
        then (true, mkBlockchain (chain bc) (pending_transactions bc ++ [tx]) (utxo_set bc)
                      (chain_difficulty bc) (mining_reward bc))
        else (false, bc)).

(** [mine_pending_transactions(miner_address)]; [tx_now] and [block_now] are
    the clock readings for the coinbase transaction and the new block.  The
    result is the new chain state and the block that was appended. *)
Definition mine_pending_transactions (bc : Blockchain) (miner_address : string)
    (tx_now block_now : Z) : option (Blockchain * Block) :=
  coinbase_tx ← create_coinbase_transaction miner_address (Z.of_nat (length (chain bc)))
                  (mining_reward bc) tx_now;
  let transactions := [coinbase_tx] ++ pending_transactions bc in
  latest ← get_latest_block bc;
  new_block ← new_block (Z.of_nat (length (chain bc))) block_now transactions
                (hash latest) (chain_difficulty bc);
  mined ← mine_block new_block None;
  Some (mkBlockchain (chain bc ++ [mined]) []
          (foldl update_with_transaction (utxo_set bc) transactions)
          (chain_difficulty bc) (mining_reward bc), mined).

(** The three checks of [is_chain_valid] for the block at position [i > 0]. *)
Definition block_checks (previous current : Block) : option bool :=
  h ← block_hash current;
  Some (bool_decide (hash current = h)
        && bool_decide (previous_hash current = hash previous)
        && startswith (hash current) (zeros (difficulty current))).

Fixpoint chain_checks (previous : Block) (rest : list Block) : option bool :=
  match rest with
  | [] => Some true
  | current :: rest' =>
      ok ← block_checks previous current;
      if ok : bool then chain_checks current rest' else Some false
  end.

Definition is_chain_valid (bc : Blockchain) : option bool :=
  match chain bc with
  | [] => Some true
  | genesis :: rest => chain_checks genesis rest
  end.

(** *** Specification vocabulary *)

(** Sum of the amounts held in a UTXO set. *)
Definition total_amount (utxos : gmap string TxOutput) : Z :=
  map_fold (fun _ utxo acc => amount utxo + acc) 0 utxos.

(** The keys that the non-coinbase inputs refer to. *)
Definition referenced_keys (ins : list TxInput) : gset string :=
  list_to_set (map (fun inp => utxo_key (prev_tx_hash inp) (prev_output_index inp))
                   (filter (fun inp => prev_tx_hash inp <> zero_hash) ins)).

(** The outpoints of [utxos] that the inputs spend. *)
Definition spent_outpoints (utxos : gmap string TxOutput) (ins : list TxInput)
  : gmap string TxOutput :=
  filter (fun entry => fst entry ∈ referenced_keys ins) utxos.

(** The header fields [struct.pack] accepts. *)
Definition header_packs (b : Block) : Prop :=
  0 <= index b < 2 ^ 32 /\ 0 <= block_timestamp b < 2 ^ 64 /\ 0 <= difficulty b < 2 ^ 32.

(** Two blocks that differ at most in nonce and stored hash. *)
Definition same_header (b b' : Block) : Prop :=
  index b' = index b /\ block_timestamp b' = block_timestamp b /\
  transactions b' = transactions b /\ previous_hash b' = previous_hash b /\
  difficulty b' = difficulty b.

(** Nonce [n] gives the block a hash with the leading zeros its difficulty
    asks for. *)
Definition meets_target (b : Block) (n : Z) : Prop :=
  exists h, block_hash (set_nonce b n) = Some h /\ startswith h (zeros (difficulty b)) = true.

End Implementing.

(* ===================================================================== *)
(** ** Transaction_prioritization/transaction_prioritization.py          *)
(* ===================================================================== *)

Module Prioritization.

(** *** Python containers *)

(** A [dict] with string keys: an association list in insertion order, one
    entry per key.  Assigning to a present key keeps its position. *)
Section Dict.
Context {V : Type}.

Fixpoint dict_get (k : string) (d : list (string * V)) : option V :=
  match d with
  | [] => None
  | (k', v) :: rest => if bool_decide (k = k') then Some v else dict_get k rest
  end.

Fixpoint dict_set (k : string) (v : V) (d : list (string * V)) : list (string * V) :=
  match d with
  | [] => [(k, v)]
  | (k', v') :: rest =>
      if bool_decide (k = k') then (k, v) :: rest else (k', v') :: dict_set k v rest
  end.

Fixpoint dict_del (k : string) (d : list (string * V)) : list (string * V) :=
  match d with
  | [] => []
  | (k', v') :: rest =>
      if bool_decide (k = k') then dict_del k rest else (k', v') :: dict_del k rest
  end.

Definition dict_keys (d : list (string * V)) : list string := map fst d.
Definition dict_values (d : list (string * V)) : list V := map snd d.

End Dict.

(** [l[i]] on a list: a negative index counts from the end, an index out of
    range raises [IndexError]. *)
Definition py_index {A} (l : list A) (i : Z) : option A :=
  let len := Z.of_nat (length l) in
  if (0 <=? i) && (i <? len) then l !! Z.to_nat i
  else if (i <? 0) && (0 <=? len + i) then l !! Z.to_nat (len + i)
  else None.

(** [range(stop)]. *)
Definition range (stop : Z) : list Z := seqZ 0 stop.

(** *** Transactions and the mempool *)

Record MempoolTransaction : Type := mkMempoolTransaction {
  tx_id : string;
  fee : Z;
  size : Z;
  parents : gset string;
  children : gset string
}.

(** A floating-point quotient [num / den] of two integers is kept as the
    pair [(num, den)] with [den > 0]; it is only ever used as a sort key. *)
Definition ratio := (Z * Z)%type.

Definition fee_per_byte (tx : MempoolTransaction) : ratio :=
  if 0 <? size tx then (fee tx, size tx) else (0, 1).

(** [Mempool.transactions]. *)
Definition Mempool := list (string * MempoolTransaction).

Definition with_parents (tx : MempoolTransaction) (s : gset string) : MempoolTransaction :=
  mkMempoolTransaction (tx_id tx) (fee tx) (size tx) s (children tx).

Definition with_children (tx : MempoolTransaction) (s : gset string) : MempoolTransaction :=
  mkMempoolTransaction (tx_id tx) (fee tx) (size tx) (parents tx) s.

(** [self.transactions[key].children.add(x)] and the like: an update of the
    stored object, when the key is present.  The dictionary is the store of
    the transaction objects; each object is taken to own its two sets, as
    the default factories of the dataclass make them, so that an update
    under one key changes no object stored under another key. *)
Definition update_entry (f : MempoolTransaction -> MempoolTransaction) (pool : Mempool)
    (key : string) : Mempool :=
  match dict_get key pool with
  | Some tx => dict_set key (f tx) pool
  | None => pool
  end.

Definition add_transaction (pool : Mempool) (tx : MempoolTransaction) : Mempool :=
  foldl (update_entry (fun p => with_children p (children p ∪ {[tx_id tx]})))
        (dict_set (tx_id tx) tx pool)
        (elements (parents tx)).

Definition get_transaction (pool : Mempool) (id : string) : option MempoolTransaction :=
  dict_get id pool.

Definition remove_transaction (pool : Mempool) (id : string) : Mempool :=
  match dict_get id pool with
  | None => pool
  | Some tx =>
      let pool :=
        foldl (update_entry (fun p => with_children p (children p ∖ {[id]})))
              pool (elements (parents tx)) in
      (* [tx] is the stored object: read its children as they are now *)
      let tx := default tx (dict_get id pool) in
      let pool :=
        foldl (update_entry (fun c => with_parents c (parents c ∖ {[id]})))
              pool (elements (children tx)) in
      dict_del id pool
  end.

Definition get_all_transactions (pool : Mempool) : list MempoolTransaction :=
  dict_values pool.

(** [sum(key(x) for x in ids)] where [key] looks a transaction up and may
    fail. *)
Fixpoint sum_over (pool : Mempool) (key : MempoolTransaction -> Z) (ids : list string) : option Z :=
  match ids with
  | [] => Some 0
  | id :: rest =>
      tx ← dict_get id pool;
      total ← sum_over pool key rest;
      Some (key tx + total)
  end.

(** An exact stand-in for [sorted(l, key=..., reverse=True)] on such keys:
    a stable insertion sort, larger quotient first, compared by cross
    multiplication. *)
Definition ratio_lt (a b : ratio) : bool := (fst a * snd b <? fst b * snd a).

Fixpoint insert_desc {A} (key : A -> ratio) (x : A) (l : list A) : list A :=
  match l with
  | [] => [x]
  | y :: rest =>
      if ratio_lt (key x) (key y) then y :: insert_desc key x rest
      else x :: y :: rest
  end.

Definition sorted_exact (A : Type) (key : A -> ratio) (l : list A) : list A :=
  foldr (fun x acc => insert_desc key x acc) [] l.

Record AncestorSet : Type := mkAncestorSet {
  tx_ids : gset string;
  total_fee : Z;
  total_size : Z
}.

Definition score (a : AncestorSet) : ratio :=
  if 0 <? total_size a then (total_fee a, total_size a) else (0, 1).

Section Strategies.

(** [sorted(l, key=key, reverse=True)] with floating-point keys.  Floating
    point is not modelled: the strategies are defined over any function that
    returns its argument reordered. *)
Variable sorted_desc : forall A : Type, (A -> ratio) -> list A -> list A.

(** *** Algorithm 1: greedy *)

Definition greedy_step (max_block_size : Z)
    (state : list string * gset string * Z * Z) (tx : MempoolTransaction)
  : list string * gset string * Z * Z :=
  let '(selected, selected_ids, current_size, total_fee) := state in
  if negb (bool_decide (parents tx ⊆ selected_ids)) then state
  else if current_size + size tx <=? max_block_size then
    (selected ++ [tx_id tx], selected_ids ∪ {[tx_id tx]},
     current_size + size tx, total_fee + fee tx)
  else state.

Definition greedy_selection (pool : Mempool) (max_block_size : Z) : list string * Z * Z :=
  let all_txs := get_all_transactions pool in
  let sorted_txs := sorted_desc _ fee_per_byte all_txs in
  let '(selected, _, current_size, total_fee) :=
    foldl (greedy_step max_block_size) ([], ∅, 0, 0) sorted_txs in
  (selected, total_fee, current_size).

(** *** Algorithm 2: dynamic programming *)

Definition scale : Z := 1000.

(** One cell [dp[i][w]] from the row [dp[i-1]]. *)
Definition fill_cell (prev : list Z) (tx : MempoolTransaction) (w : Z) : option Z :=
  let tx_size_scaled := size tx / scale in
  skip ← py_index prev w;
  if tx_size_scaled <=? w then
    take_ ← py_index prev (w - tx_size_scaled);
    Some (Z.max skip (take_ + fee tx))
  else Some skip.

(** The rows [dp[1..n]], given the row before them. *)
Fixpoint fill_rows (max_size_scaled : Z) (prev : list Z) (txs : list MempoolTransaction)
  : option (list (list Z)) :=
  match txs with
  | [] => Some []
  | tx :: rest =>
      row ← mapM (fill_cell prev tx) (range (max_size_scaled + 1));
      rows ← fill_rows max_size_scaled row rest;
      Some (row :: rows)
  end.

(** The loop [for i in range(n, 0, -1)]: [steps] lists, for i = n down to 1,
    the transaction [all_txs[i-1]] with the rows [dp[i]] and [dp[i-1]]. *)
Fixpoint backtrack (steps : list (MempoolTransaction * list Z * list Z)) (w : Z)
    (selected : list string) (total_size : Z) : option (list string * Z) :=
  match steps with
  | [] => Some (selected, total_size)
  | (tx, row, prev) :: rest =>
      here ← py_index row w;
      above ← py_index prev w;
      if negb (here =? above) then
        backtrack rest (w - size tx / scale) (selected ++ [tx_id tx]) (total_size + size tx)
      else backtrack rest w selected total_size
  end.

Definition dp_knapsack_selection (pool : Mempool) (max_block_size : Z)
  : option (list string * Z * Z) :=
  let all_txs := filter (fun tx => parents tx = ∅) (get_all_transactions pool) in
  let all_txs :=
    if (100 <? length all_txs)%nat then take 100 (sorted_desc _ fee_per_byte all_txs)
    else all_txs in
  let max_size_scaled := max_block_size / scale in
  let row0 := replicate (Z.to_nat (max_size_scaled + 1)) 0 in
  rows ← fill_rows max_size_scaled row0 all_txs;
  let dp := row0 :: rows in
  let steps := reverse (zip (zip all_txs rows) dp) in
  '(selected, total_size) ← backtrack steps max_size_scaled [] 0;
  last_row ← last dp;
  total_fee ← py_index last_row max_size_scaled;
  Some (selected, total_fee, total_size).

(** *** Algorithm 3: ancestor sets *)

(** [depth] is the number of nested calls the Python interpreter still
    allows; running out of it is the [RecursionError] a cycle of parents
    ends in. *)
Fixpoint calculate_ancestor_set (depth : nat) (pool : Mempool) (id : string)
    (memo : gmap string AncestorSet) : option (AncestorSet * gmap string AncestorSet) :=
  match depth with
  | O => None
  | S depth' =>
      match memo !! id with
      | Some known => Some (known, memo)
      | None =>
          match get_transaction pool id with
          | None => Some (mkAncestorSet ∅ 0 0, memo)
          | Some tx =>
              acc ← foldl (fun acc parent_id =>
                             '(ids, fee_, size_, memo) ← acc;
                             '(parent_set, memo) ← calculate_ancestor_set depth' pool parent_id memo;
                             Some (ids ∪ tx_ids parent_set, fee_ + total_fee parent_set,
                                   size_ + total_size parent_set, memo))
                          (Some ({[id]}, fee tx, size tx, memo))
                          (elements (parents tx));
              let '(ids, fee_, size_, memo) := acc in
              let result := mkAncestorSet ids fee_ size_ in
              Some (result, <[id := result]> memo)
          end
      end
  end.

Definition ancestor_sets_of (depth : nat) (pool : Mempool)
  : option (list (string * AncestorSet)) :=
  fst <$> foldl (fun acc id =>
                   '(sets, memo) ← acc;
                   '(ancestor_set, memo) ← calculate_ancestor_set depth pool id memo;
                   Some (sets ++ [(id, ancestor_set)], memo))
                (Some ([], ∅)) (dict_keys pool).

Definition select_missing (pool : Mempool) (state : option (gset string * Z * Z))
    (ancestor_id : string) : option (gset string * Z * Z) :=
  '(selected, current_size, total_fee) ← state;
  ancestor_tx ← get_transaction pool ancestor_id;
  Some (selected ∪ {[ancestor_id]}, current_size + size ancestor_tx, total_fee + fee ancestor_tx).

Definition ancestor_step (pool : Mempool) (max_block_size : Z)
    (state : option (gset string * Z * Z)) (entry : string * AncestorSet)
  : option (gset string * Z * Z) :=
  '(selected, current_size, total_fee) ← state;
  let '(id, ancestor_set) := entry in
  if bool_decide (id ∈ selected) then Some (selected, current_size, total_fee)
  else
    let missing_ancestors := tx_ids ancestor_set ∖ selected in
    missing_size ← sum_over pool size (elements missing_ancestors);
    if current_size + missing_size <=? max_block_size then
      foldl (select_missing pool) (Some (selected, current_size, total_fee))
            (elements missing_ancestors)
    else Some (selected, current_size, total_fee).

Definition ancestor_set_mining (depth : nat) (pool : Mempool) (max_block_size : Z)
  : option (list string * Z * Z) :=
  ancestor_sets ← ancestor_sets_of depth pool;
  let ancestor_sets := sorted_desc _ (fun x => score (snd x)) ancestor_sets in
  '(selected, current_size, total_fee) ←
    foldl (ancestor_step pool max_block_size) (Some (∅, 0, 0)) ancestor_sets;
  Some (elements selected, total_fee, current_size).

(** *** Algorithm 4: simulated annealing *)

(** The pseudo-random generator is a sequence of draws and a position in
    it.  [random.random() < p] is decided by the parity of a draw,
    [random.choice(l)] takes [l[draw mod len(l)]].  The temperature only
    feeds the probability of the last test, which is decided by a draw as
    well, so it is not carried. *)
Variable draw : nat -> nat.

Definition coin (k : nat) : bool := Nat.even (draw k).

Definition choice {A} (l : list A) (k : nat) : option A := l !! (draw k mod length l)%nat.

Definition is_valid_selection (tx_dict : Mempool) (selected_ids : gset string) : option bool :=
  foldr (fun id rest =>
           tx ← dict_get id tx_dict;
           if negb (bool_decide (parents tx ⊆ selected_ids)) then Some false else rest)
        (Some true) (elements selected_ids).

Definition calculate_score (tx_dict : Mempool) (selected_ids : gset string) : option (Z * Z) :=
  total_fee ← sum_over tx_dict fee (elements selected_ids);
  total_size ← sum_over tx_dict size (elements selected_ids);
  Some (total_fee, total_size).

(** [while to_check: ...]: drop from [neighbor] everything that depends on
    a removed transaction.  [to_check] is kept last element first. *)
Fixpoint remove_dependents (fuel : nat) (tx_dict : Mempool) (to_check : list string)
    (neighbor : gset string) : option (gset string) :=
  match to_check with
  | [] => Some neighbor
  | id :: to_check =>
      match fuel with
      | O => None
      | S fuel' =>
          tx ← dict_get id tx_dict;
          let '(neighbor, to_check) :=
            foldl (fun '(neighbor, to_check) child_id =>
                     if bool_decide (child_id ∈ neighbor)
                     then (neighbor ∖ {[child_id]}, child_id :: to_check)
                     else (neighbor, to_check))
                  (neighbor, to_check) (elements (children tx)) in
          remove_dependents fuel' tx_dict to_check neighbor
      end
  end.

(** [while queue: ...]: collect the parents that have to come along. *)
Fixpoint collect_parents (fuel : nat) (tx_dict : Mempool) (neighbor : gset string)
    (queue : list string) (to_add_set : gset string) : option (gset string) :=
  match queue with
  | [] => Some to_add_set
  | id :: queue =>
      match fuel with
      | O => None
      | S fuel' =>
          tx ← dict_get id tx_dict;
          let '(to_add_set, queue) :=
            foldl (fun '(to_add_set, queue) parent_id =>
                     if bool_decide (parent_id ∉ neighbor) && bool_decide (parent_id ∉ to_add_set)
                     then (to_add_set ∪ {[parent_id]}, queue ++ [parent_id])
                     else (to_add_set, queue))
                  (to_add_set, queue) (elements (parents tx)) in
          collect_parents fuel' tx_dict neighbor queue to_add_set
      end
  end.

(** The neighbour of [current_selection]; returns it with the position of
    the next draw. *)
Definition neighbor_of (all_txs : list MempoolTransaction) (tx_dict : Mempool)
    (max_block_size : Z) (current_selection : gset string) (k : nat)
  : option (gset string * nat) :=
  let neighbor := current_selection in
  if coin k && negb (bool_decide (neighbor = ∅)) then
    to_remove ← choice (elements neighbor) (S k);
    let neighbor := neighbor ∖ {[to_remove]} in
    neighbor ← remove_dependents (S (base.size neighbor)) tx_dict [to_remove] neighbor;
    Some (neighbor, S (S k))
  else
    let candidates := filter (fun tx => tx_id tx ∉ neighbor) all_txs in
    match candidates with
    | [] => Some (neighbor, S k)
    | _ =>
        to_add ← choice candidates (S k);
        to_add_set ← collect_parents (S (length all_txs)) tx_dict neighbor
                       [tx_id to_add] {[tx_id to_add]};
        add_size ← sum_over tx_dict size (elements to_add_set);
        neighbor_size ← sum_over tx_dict size (elements neighbor);
        if neighbor_size + add_size <=? max_block_size
        then Some (neighbor ∪ to_add_set, S (S k))
        else Some (neighbor, S (S k))
    end.

Record Annealing : Type := mkAnnealing {
  current_selection : gset string;
  current_fee : Z;
  current_size : Z;
  best_selection : gset string;
  best_fee : Z;
  position : nat
}.

(** One turn of [for iteration in range(iterations)]. *)
Definition anneal_step (all_txs : list MempoolTransaction) (tx_dict : Mempool)
    (max_block_size : Z) (st : Annealing) : option Annealing :=
  '(neighbor, k) ← neighbor_of all_txs tx_dict max_block_size (current_selection st) (position st);
  valid ← is_valid_selection tx_dict neighbor;
  if valid : bool then
    '(neighbor_fee, neighbor_size) ← calculate_score tx_dict neighbor;
    if neighbor_size <=? max_block_size then
      if current_fee st <? neighbor_fee then
        if best_fee st <? neighbor_fee
        then Some (mkAnnealing neighbor neighbor_fee neighbor_size neighbor neighbor_fee k)
        else Some (mkAnnealing neighbor neighbor_fee neighbor_size
                     (best_selection st) (best_fee st) k)
      else
        if coin k
        then Some (mkAnnealing neighbor neighbor_fee neighbor_size
                     (best_selection st) (best_fee st) (S k))
        else Some (mkAnnealing (current_selection st) (current_fee st) (current_size st)
                     (best_selection st) (best_fee st) (S k))
    else Some (mkAnnealing (current_selection st) (current_fee st) (current_size st)
                 (best_selection st) (best_fee st) k)
  else Some (mkAnnealing (current_selection st) (current_fee st) (current_size st)
               (best_selection st) (best_fee st) k).

Fixpoint anneal (iterations : nat) (all_txs : list MempoolTransaction) (tx_dict : Mempool)
    (max_block_size : Z) (st : Annealing) : option Annealing :=
  match iterations with
  | O => Some st
  | S n =>
      st ← anneal_step all_txs tx_dict max_block_size st;
      anneal n all_txs tx_dict max_block_size st
  end.

Definition simulated_annealing_selection (pool : Mempool) (max_block_size : Z)
    (iterations : nat) : option (list string * Z * Z) :=
  let all_txs := get_all_transactions pool in
  let tx_dict := foldl (fun d tx => dict_set (tx_id tx) tx d) [] all_txs in
  let '(initial_selected, _, _) := greedy_selection pool max_block_size in
  let current_selection := list_to_set initial_selected in
  '(current_fee, current_size) ← calculate_score tx_dict current_selection;
  st ← anneal iterations all_txs tx_dict max_block_size
         (mkAnnealing current_selection current_fee current_size current_selection current_fee 0);
  best_size ← sum_over tx_dict size (elements (best_selection st));
  Some (elements (best_selection st), best_fee st, best_size).

End Strategies.

(** *** Specification vocabulary *)

(** A mempool as [add_transaction] and [remove_transaction] build it: one
    entry per key, stored under the transaction's own id. *)
Definition mempool_wf (pool : Mempool) : Prop :=
  NoDup (dict_keys pool) /\ Forall (fun entry => tx_id (snd entry) = fst entry) pool.

(** Every id of the set names a stored transaction. *)
Definition pooled (pool : Mempool) (ids : gset string) : Prop :=
  forall id, id ∈ ids -> is_Some (dict_get id pool).

(** Every parent a stored transaction names is stored as well. *)
Definition parents_pooled (pool : Mempool) : Prop :=
  forall id tx p, dict_get id pool = Some tx -> p ∈ parents tx -> is_Some (dict_get p pool).

(** The parent relation has no cycle and no chain of [depth] or more
    transactions: [rank] falls along it and stays below [depth]. *)
Definition parents_rank_lower (pool : Mempool) (rank : string -> nat) (depth : nat) : Prop :=
  forall id tx, dict_get id pool = Some tx ->
    (rank id < depth)%nat /\ forall p, p ∈ parents tx -> (rank p < rank id)%nat.

(** The closure property of the common contract, and its form for parents
    that are in the pool. *)
Definition parents_selected (pool : Mempool) (selected : list string) : Prop :=
  forall id tx parent_id,
    In id selected -> dict_get id pool = Some tx -> parent_id ∈ parents tx -> In parent_id selected.

Definition pool_parents_selected (pool : Mempool) (selected : list string) : Prop :=
  forall id tx parent_id,
    In id selected -> dict_get id pool = Some tx -> parent_id ∈ parents tx ->
    is_Some (dict_get parent_id pool) -> In parent_id selected.

(** The common contract of the strategies, for a closure property. *)
Definition meets_contract (closure : Mempool -> list string -> Prop) (pool : Mempool)
    (max_block_size : Z) (result : list string * Z * Z) : Prop :=
  let '(selected, _, total_size) := result in
  sum_over pool size selected = Some total_size /\
  total_size <= max_block_size /\
  closure pool selected.

(** What the loop of [greedy_selection] keeps. *)
Definition greedy_inv (pool : Mempool) (max_block_size : Z)
    (state : list string * gset string * Z * Z) : Prop :=
  let '(selected, selected_ids, current_size, _) := state in
  selected_ids = list_to_set selected /\
  sum_over pool size selected = Some current_size /\
  current_size <= max_block_size /\
  parents_selected pool selected /\
  NoDup selected.

(** What every value of [best_selection] satisfies. *)
Definition good_selection (pool : Mempool) (max_block_size : Z) (sel : gset string) : Prop :=
  (forall total, sum_over pool size (elements sel) = Some total -> total <= max_block_size) /\
  parents_selected pool (elements sel).

(** A set of ids that holds only pooled transactions and, with each of them,
    all of its parents that are in the pool. *)
Definition closed_in_pool (pool : Mempool) (ids : gset string) : Prop :=
  forall id, id ∈ ids ->
    exists tx, dict_get id pool = Some tx /\
      forall p, p ∈ parents tx -> is_Some (dict_get p pool) -> p ∈ ids.

Definition memo_ok (pool : Mempool) (memo : gmap string AncestorSet) : Prop :=
  forall id a, memo !! id = Some a -> id ∈ tx_ids a /\ closed_in_pool pool (tx_ids a).

(** The state of the loop over the parents in [calculate_ancestor_set]:
    everything in [ids] but [id] itself is closed, and the parents seen so
    far are in. *)
Definition parents_loop_ok (pool : Mempool) (id : string) (seen : list string)
    (acc : gset string * Z * Z * gmap string AncestorSet) : Prop :=
  let '(ids, _, _, memo) := acc in
  memo_ok pool memo /\ id ∈ ids /\
  (forall x, x ∈ ids -> x <> id ->
     exists tx, dict_get x pool = Some tx /\
       forall p, p ∈ parents tx -> is_Some (dict_get p pool) -> p ∈ ids) /\
  (forall p, In p seen -> is_Some (dict_get p pool) -> p ∈ ids).

(** What the loop of [ancestor_set_mining] keeps. *)
Definition mining_inv (pool : Mempool) (max_block_size : Z) (state : gset string * Z * Z) : Prop :=
  let '(selected, current_size, _) := state in
  sum_over pool size (elements selected) = Some current_size /\
  current_size <= max_block_size /\
  closed_in_pool pool selected.

(** The knapsack table: the length of a row, and a row computed from the one
    above it for [tx], where a cell differs from the one above it only if
    [tx] fits. *)
Definition row_length (max_size_scaled : Z) : nat := Z.to_nat (max_size_scaled + 1).

Definition step_ok (max_size_scaled : Z) (step : MempoolTransaction * list Z * list Z) : Prop :=
  let '(tx, row, prev) := step in
  length row = row_length max_size_scaled /\ length prev = row_length max_size_scaled /\
  forall w, 0 <= w <= max_size_scaled ->
    exists here above, py_index row w = Some here /\ py_index prev w = Some above /\
      (here <> above -> size tx / scale <= w).

Definition scaled_total (chosen : list MempoolTransaction) : Z :=
  foldr (fun tx acc => size tx / scale + acc) 0 chosen.

Definition size_total (chosen : list MempoolTransaction) : Z :=
  foldr (fun tx acc => size tx + acc) 0 chosen.

(** The edge sets of any two stored transactions agree on the edge between
    them. *)
Definition edges_consistent (pool : Mempool) : Prop :=
  forall t c parent child,
    dict_get t pool = Some parent -> dict_get c pool = Some child ->
    (tx_id child ∈ children parent <-> tx_id parent ∈ parents child).

(** The same, with the keys the transactions are stored under. *)
Definition edges_by_key (pool : Mempool) : Prop :=
  forall t c parent child,
    dict_get t pool = Some parent -> dict_get c pool = Some child ->
    (c ∈ children parent <-> t ∈ parents child).

(** No stored transaction lists a child that is not stored. *)
Definition children_pooled (pool : Mempool) : Prop :=
  forall id tx c, dict_get id pool = Some tx -> c ∈ children tx -> is_Some (dict_get c pool).

(** The mempools that calls of [add_transaction] and [remove_transaction]
    build when every transaction comes in under an id that is not in use,
    without children, and before any stored transaction names it as a
    parent. *)
Inductive parents_first : Mempool -> Prop :=
| parents_first_empty : parents_first []
| parents_first_add pool tx :
    parents_first pool ->
    tx_id tx ∉ dict_keys pool -> children tx = ∅ ->
    (forall id c, dict_get id pool = Some c -> tx_id tx ∉ parents c) ->
    parents_first (add_transaction pool tx)
| parents_first_remove pool id :
    parents_first pool -> parents_first (remove_transaction pool id).

(** A transaction as the demonstrations create one. *)
Definition plain_tx (id : string) (fee_ size_ : Z) (parent_ids : list string) : MempoolTransaction :=
  mkMempoolTransaction id fee_ size_ (list_to_set parent_ids) ∅.

(** A low-fee parent, its high-fee child, and an unrelated transaction. *)
Definition demo_pool : Mempool :=
  add_transaction
    (add_transaction (add_transaction [] (plain_tx "p" 1000 400 []))
       (plain_tx "c" 80000 300 ["p"]))
    (plain_tx "h" 50000 400 []).

Definition demo_rank (id : string) : nat := if bool_decide (id = "c") then 1%nat else 0%nat.

Definition demo_draw (k : nat) : nat := (k * 7 + 3)%nat.

End Prioritization.

(* ===================================================================== *)
(** * Part II: lemmas and theorems                                        *)
(* ===================================================================== *)

(** ** The hash functions *)

Module HashFacts.

(** Published digests: FIPS 180-4 (SHA-256 of "abc" and of the empty
    string), the RIPEMD-160 paper, RFC 4231 test case 2 (HMAC-SHA256). *)
Example sha256_abc :
  hex (sha256 (ascii_bytes "abc"))
  = "ba7816bf8f01cfea414140de5dae2223b00361a396177a9cb410ff61f20015ad"%string.
Proof. vm_compute. reflexivity. Qed.

Example sha256_empty :
  hex (sha256 [])
  = "e3b0c44298fc1c149afbf4c8996fb92427ae41e4649b934ca495991b7852b855"%string.
Proof. vm_compute. reflexivity. Qed.

Example sha256_two_blocks :
  hex (sha256 (ascii_bytes "abcdbcdecdefdefgefghfghighijhijkijkljklmklmnlmnomnopnopq"))
  = "248d6a61d20638b8e5c026930c3e6039a33ce45964ff2167f6ecedd419db06c1"%string.
Proof. vm_compute. reflexivity. Qed.

Example ripemd160_abc :
  hex (ripemd160 (ascii_bytes "abc")) = "8eb208f7e05d987a9b044a8e98c6b087f15a0bfc"%string.
Proof. vm_compute. reflexivity. Qed.

Example ripemd160_empty :
  hex (ripemd160 []) = "9c1185a5c5e9fc54612808977ee8f548b2258d31"%string.
Proof. vm_compute. reflexivity. Qed.

Example hmac_sha256_rfc4231 :
  hex (hmac_sha256 (ascii_bytes "Jefe") (ascii_bytes "what do ya want for nothing?"))
  = "5bdcc146bf60754e6a042426089575c75a003f089d2739839dec58b964ec3843"%string.
Proof. vm_compute. reflexivity. Qed.

Lemma to_le_length width x : length (Word32.to_le width x) = width.
Proof. revert x. induction width; intros x; cbn; [reflexivity|]. rewrite IHwidth. reflexivity. Qed.

Lemma sha256_round_length s kw : length s = 8%nat -> length (SHA256.round s kw) = 8%nat.
Proof.
  intros H. do 9 (destruct s as [|? s]; try discriminate). reflexivity.
Qed.

Lemma sha256_compress_length state block :
  length state = 8%nat -> length (SHA256.compress state block) = 8%nat.
Proof.
  intros H. unfold SHA256.compress. rewrite length_zip_with.
  assert (Hf : forall kws s, length s = 8%nat -> length (fold_left SHA256.round kws s) = 8%nat).
  { induction kws as [|kw kws IH]; intros s Hs; [exact Hs|]. cbn. apply IH, sha256_round_length, Hs. }
  rewrite Hf by exact H. lia.
Qed.

Lemma concat_words_length (ws : list Z) :
  length (concat (map (Word32.to_be 4) ws)) = (4 * length ws)%nat.
Proof.
  induction ws as [|w ws IH]; [reflexivity|]. cbn [map concat]. rewrite length_app, IH.
  unfold Word32.to_be. rewrite length_rev, to_le_length. cbn [length]. lia.
Qed.

(** SHA-256 digests, and with them HMAC-SHA256 tags, are 32 bytes long. *)
Lemma sha256_length data : length (sha256 data) = 32%nat.
Proof.
  unfold sha256, SHA256.digest. rewrite concat_words_length.
  assert (Hf : forall blocks s, length s = 8%nat -> length (fold_left SHA256.compress blocks s) = 8%nat).
  { induction blocks as [|b blocks IH]; intros s Hs; [exact Hs|]. cbn. apply IH, sha256_compress_length, Hs. }
  rewrite Hf; reflexivity.
Qed.

Lemma hmac_sha256_length key msg : length (hmac_sha256 key msg) = 32%nat.
Proof. unfold hmac_sha256. apply sha256_length. Qed.

End HashFacts.

(** ** Scripts: numbers, serialization, the interpreter *)

Module ScriptFacts.
Import BitcoinScripts.

(** *** Script numbers *)

Lemma le_val_nonneg l : Forall is_byte l -> 0 <= le_val l.
Proof. induction 1 as [|b t [? ?] _ IH]; simpl; lia. Qed.

Lemma or_shifted_le_val l : Forall is_byte l ->
  forall i acc, 0 <= i -> 0 <= acc < 2 ^ (8 * i) ->
  or_shifted i acc l = acc + 2 ^ (8 * i) * le_val l.
Proof.
  induction 1 as [|b t Hb Ht IH]; intros i acc Hi Hacc; simpl.
  - lia.
  - assert (Hor : Z.lor acc (Z.shiftl b (8 * i)) = acc + 2 ^ (8 * i) * b).
    { rewrite Z.shiftl_mul_pow2 by lia. rewrite (Z.mul_comm b). symmetry.
      apply Z.add_nocarry_lor. apply Z.bits_inj'. intros k Hk.
      rewrite Z.land_spec, Z.bits_0.
      destruct (Z.lt_ge_cases k (8 * i)).
      - rewrite Z.mul_comm, Z.mul_pow2_bits_low by lia. apply andb_false_r.
      - destruct (Z.eq_dec acc 0) as [->|Hne]; [rewrite Z.bits_0; reflexivity|].
        rewrite (Z.bits_above_log2 acc k); [reflexivity|lia|].
        assert (Z.log2 acc < 8 * i); [|lia]. apply Z.log2_lt_pow2; lia. }
    rewrite Hor, IH; try lia.
    + replace (8 * (i + 1)) with (8 * i + 8) by lia. rewrite Z.pow_add_r by lia.
      change (2 ^ 8) with 256. lia.
    + replace (8 * (i + 1)) with (8 * i + 8) by lia. rewrite Z.pow_add_r by lia.
      change (2 ^ 8) with 256. destruct Hb. nia.
Qed.

Lemma byte_cases (P : Z -> bool) :
  forallb P byte_range = true -> forall b, is_byte b -> P b = true.
Proof.
  intros H b [Hb1 Hb2]. rewrite forallb_forall in H. apply H.
  unfold byte_range. apply in_map_iff. exists (Z.to_nat b). split; [lia|].
  apply in_seq. lia.
Qed.

Lemma land128_cases b : is_byte b ->
  (b < 128 /\ Z.land b 128 = 0 /\ Z.land b 127 = b) \/
  (128 <= b /\ Z.land b 128 = 128 /\ Z.lor (Z.land b 127) 128 = b /\ 0 <= Z.land b 127 < 128).
Proof.
  intros Hb.
  pose (P := fun b => (((b <? 128) && (Z.land b 128 =? 0) && (Z.land b 127 =? b)) ||
             ((128 <=? b) && (Z.land b 128 =? 128) && (Z.lor (Z.land b 127) 128 =? b)
               && (0 <=? Z.land b 127) && (Z.land b 127 <? 128)))%bool).
  assert (HP : P b = true) by (apply byte_cases; [vm_compute; reflexivity | exact Hb]).
  unfold P in HP. apply orb_true_iff in HP as [HP|HP].
  - left. rewrite !andb_true_iff in HP. destruct HP as [[H1 H2] H3]. lia.
  - right. rewrite !andb_true_iff in HP. destruct HP as [[[[H1 H2] H3] H4] H5]. lia.
Qed.

Lemma lor128_low b : 0 <= b < 128 ->
  is_byte (Z.lor b 128) /\ Z.land (Z.lor b 128) 128 = 128 /\ Z.land (Z.lor b 128) 127 = b.
Proof.
  intros Hb.
  pose (P := fun b => (negb (b <? 128) || ((Z.lor b 128 <? 256) && (0 <=? Z.lor b 128) &&
             (Z.land (Z.lor b 128) 128 =? 128) && (Z.land (Z.lor b 128) 127 =? b)))%bool).
  assert (HP : P b = true) by (apply byte_cases; [vm_compute; reflexivity | unfold is_byte; lia]).
  unfold P in HP. apply orb_true_iff in HP as [HP|HP].
  - apply negb_true_iff in HP. lia.
  - rewrite !andb_true_iff in HP. destruct HP as [[[H1 H2] H3] H4]. unfold is_byte. lia.
Qed.

Lemma top_nonzero_cons x y l : top_nonzero (x :: y :: l) <-> top_nonzero (y :: l).
Proof. unfold top_nonzero. rewrite last_cons_cons. reflexivity. Qed.

Lemma land255 n : 0 <= n -> Z.land n 255 = n mod 256.
Proof. intros. change 255 with (Z.ones 8). rewrite Z.land_ones by lia. reflexivity. Qed.

Lemma shiftr8 n : Z.shiftr n 8 = n / 256.
Proof. rewrite Z.shiftr_div_pow2 by lia. reflexivity. Qed.

Lemma magnitude_bytes_spec fuel : forall m,
  0 <= m < 2 ^ Z.of_nat fuel ->
  let l := magnitude_bytes fuel m in
  Forall is_byte l /\ le_val l = m /\ top_nonzero l /\ (0 < m -> l <> []).
Proof.
  induction fuel as [|fuel IH]; intros m Hm; cbn [magnitude_bytes].
  - cbn in Hm. assert (m = 0) by lia. subst. cbn. repeat split; auto; lia.
  - destruct (Z.ltb_spec 0 m) as [Hpos|Hle].
    + rewrite land255, shiftr8 by lia.
      assert (Hq : 0 <= m / 256 < 2 ^ Z.of_nat fuel).
      { split; [apply Z.div_pos; lia|].
        rewrite Nat2Z.inj_succ, Z.pow_succ_r in Hm by lia.
        apply Z.div_lt_upper_bound; lia. }
      destruct (IH _ Hq) as (Hb & Hv & Ht & Hne).
      pose proof (Z.mod_pos_bound m 256 ltac:(lia)) as Hmod.
      repeat split.
      * constructor; [exact Hmod | exact Hb].
      * cbn [le_val]. rewrite Hv. pose proof (Z.div_mod m 256 ltac:(lia)). lia.
      * destruct (magnitude_bytes fuel (m / 256)) as [|b t] eqn:E.
        -- cbn. cbn in Hv. intros H0. pose proof (Z.div_mod m 256 ltac:(lia)). lia.
        -- apply top_nonzero_cons. exact Ht.
      * discriminate.
    + assert (m = 0) by lia. subst. cbn. repeat split; auto; lia.
Qed.

Lemma le_val_app l1 l2 : le_val (l1 ++ l2) = le_val l1 + 256 ^ Z.of_nat (length l1) * le_val l2.
Proof.
  induction l1 as [|b t IH]; cbn [app le_val length].
  - cbn. lia.
  - rewrite IH, Nat2Z.inj_succ, Z.pow_succ_r by lia. lia.
Qed.

Lemma le_val_pos l : Forall is_byte l -> top_nonzero l -> l <> [] -> 0 < le_val l.
Proof.
  intros Hb Ht Hne. destruct (exists_last Hne) as (init & hi & ->).
  unfold top_nonzero in Ht. rewrite last_snoc in Ht.
  apply Forall_app in Hb as [Hi Hh]. inversion Hh as [|? ? [? ?] _]; subst.
  rewrite le_val_app. cbn [le_val]. pose proof (le_val_nonneg _ Hi).
  assert (0 < 256 ^ Z.of_nat (length init)) by (apply Z.pow_pos_nonneg; lia).
  assert (1 <= hi) by lia.
  assert (1 * 1 <= 256 ^ Z.of_nat (length init) * hi) by (apply Z.mul_le_mono_nonneg; lia).
  lia.
Qed.

Lemma magnitude_bytes_le_val l : Forall is_byte l -> top_nonzero l ->
  forall fuel, le_val l < 2 ^ Z.of_nat fuel -> magnitude_bytes fuel (le_val l) = l.
Proof.
  induction 1 as [|b t Hb Ht IH]; intros Htop fuel Hfuel.
  - destruct fuel; reflexivity.
  - assert (Hpos : 0 < le_val (b :: t)) by (apply le_val_pos; [constructor; auto | auto | discriminate]).
    destruct fuel as [|fuel]; [change (2 ^ Z.of_nat 0) with 1 in Hfuel; lia|].
    cbn [magnitude_bytes]. destruct (Z.ltb_spec 0 (le_val (b :: t))); [|lia].
    rewrite land255, shiftr8 by lia. cbn [le_val] in *.
    assert (Hnn : 0 <= le_val t) by (apply le_val_nonneg; auto).
    destruct Hb as [Hb1 Hb2].
    assert (Hm : (b + 256 * le_val t) mod 256 = b).
    { rewrite (Z.mul_comm 256), Z.mod_add by lia. apply Z.mod_small; lia. }
    assert (Hd : (b + 256 * le_val t) / 256 = le_val t).
    { rewrite (Z.mul_comm 256), Z.div_add by lia. rewrite Z.div_small by lia. lia. }
    rewrite Hm, Hd. f_equal. apply IH.
    + destruct t as [|c t']; [exact I|]. apply top_nonzero_cons in Htop. exact Htop.
    + rewrite Nat2Z.inj_succ, Z.pow_succ_r in Hfuel by lia. lia.
Qed.

Lemma log2_fuel m : 0 < m -> 0 <= m < 2 ^ Z.of_nat (S (Z.to_nat (Z.log2 m))).
Proof.
  intros Hm. split; [lia|].
  rewrite Nat2Z.inj_succ, Z2Nat.id by apply Z.log2_nonneg.
  apply Z.log2_spec. lia.
Qed.

Lemma or_shifted_value l : Forall is_byte l -> or_shifted 0 0 l = le_val l.
Proof.
  intros H. rewrite or_shifted_le_val by (auto; cbn; lia). cbn. lia.
Qed.

Lemma le_val_snoc0 l : le_val (l ++ [0]) = le_val l.
Proof. rewrite le_val_app. cbn. lia. Qed.

Lemma set_last_snoc x l y : set_last x (l ++ [y]) = l ++ [x].
Proof. unfold set_last. rewrite removelast_last. reflexivity. Qed.

Lemma decode_snoc init hi : Forall is_byte init -> is_byte hi ->
  _decode_num (init ++ [hi]) =
    if Z.land hi 128 =? 0 then le_val (init ++ [hi])
    else - le_val (init ++ [Z.land hi 127]).
Proof.
  intros Hi Hh. unfold _decode_num.
  destruct (init ++ [hi]) as [|x r] eqn:E; [destruct init; discriminate|].
  rewrite <- E. clear E. rewrite last_snoc. cbn [default id].
  destruct (land128_cases hi Hh) as [(H1 & H2 & H3)|(H1 & H2 & H3 & H4)]; rewrite H2; cbn [Z.eqb].
  - apply or_shifted_value. apply Forall_app; split; auto.
  - rewrite set_last_snoc. rewrite or_shifted_value; [reflexivity|].
    apply Forall_app; split; auto. constructor; auto. unfold is_byte; lia.
Qed.

Lemma decode_encode_num n : _decode_num (_encode_num n) = n.
Proof.
  unfold _encode_num. destruct (Z.eqb_spec n 0) as [->|Hn]; [reflexivity|].
  assert (Hm : 0 < Z.abs n) by lia.
  destruct (magnitude_bytes_spec _ _ (log2_fuel _ Hm)) as (Hb & Hv & Ht & Hne).
  set (L := magnitude_bytes _ _) in *. specialize (Hne Hm).
  destruct (exists_last Hne) as (init & top & HL). rewrite HL in *. clear HL L.
  unfold top_nonzero in Ht. rewrite last_snoc in *. cbn [default id].
  apply Forall_app in Hb as [Hi Hh]. inversion Hh as [|? ? Htop _]; subst.
  destruct (land128_cases top Htop) as [(H1 & H2 & H3)|(H1 & H2 & H3 & H4)]; rewrite H2; cbn [Z.eqb negb].
  - destruct (Z.ltb_spec n 0).
    + rewrite set_last_snoc. destruct Htop.
      destruct (lor128_low top ltac:(lia)) as (Hq1 & Hq2 & Hq3).
      rewrite decode_snoc, Hq2, Hq3 by auto. cbn [Z.eqb]. lia.
    + rewrite decode_snoc, H2 by auto. cbn [Z.eqb]. lia.
  - rewrite decode_snoc.
    + destruct (Z.ltb_spec n 0).
      * change (Z.land 128 128) with 128. change (Z.land 128 127) with 0. cbn [Z.eqb].
        rewrite le_val_snoc0. lia.
      * change (Z.land 0 128) with 0. cbn [Z.eqb]. rewrite le_val_snoc0. lia.
    + apply Forall_app; split; auto.
    + destruct (n <? 0); unfold is_byte; lia.
Qed.

Lemma valid_script_number_cases data : valid_script_number data ->
  data = [] \/
  exists init hi, data = init ++ [hi] /\ Forall is_byte init /\ is_byte hi /\
    (Z.land hi 127 <> 0 \/
     (Z.land hi 127 = 0 /\ exists init' below, init = init' ++ [below] /\ Z.land below 128 <> 0)).
Proof.
  intros [Hb Hmin]. destruct data as [|x r] using rev_ind; [left; reflexivity|]. clear IHr.
  right. exists r, x. apply Forall_app in Hb as [Hr Hx]. inversion Hx; subst.
  split; [reflexivity|]. split; [exact Hr|]. split; [assumption|].
  unfold minimally_encoded in Hmin.
  rewrite last_snoc, removelast_last in Hmin.
  destruct (Z.eqb_spec (Z.land x 127) 0) as [E|E]; [right|left; auto].
  split; auto. cbn [negb orb] in Hmin.
  destruct r as [|y r'] using rev_ind; [discriminate|].
  rewrite last_snoc in Hmin. exists r', y. split; auto.
  destruct (Z.eqb_spec (Z.land y 128) 0); [discriminate|auto].
Qed.

Lemma encode_magnitude n l : n <> 0 -> Forall is_byte l -> top_nonzero l ->
  le_val l = Z.abs n ->
  magnitude_bytes (S (Z.to_nat (Z.log2 (Z.abs n)))) (Z.abs n) = l.
Proof.
  intros Hn Hb Ht Hv. rewrite <- Hv. apply magnitude_bytes_le_val; auto.
  rewrite Hv. apply log2_fuel. lia.
Qed.

Lemma encode_decode_num data : valid_script_number data ->
  _encode_num (_decode_num data) = data.
Proof.
  intros Hvalid. destruct (valid_script_number_cases _ Hvalid)
    as [->|(init & hi & -> & Hi & Hh & Hcase)]; [reflexivity|].
  rewrite decode_snoc by auto.
  destruct Hcase as [Hlow|(Hlow & init' & below & -> & Hbelow)].
  - (* the top byte carries magnitude bits *)
    destruct (land128_cases hi Hh) as [(H1 & H2 & H3)|(H1 & H2 & H3 & H4)]; rewrite H2; cbn [Z.eqb].
    + assert (Hb : Forall is_byte (init ++ [hi])) by (apply Forall_app; auto).
      assert (Ht : top_nonzero (init ++ [hi])) by (unfold top_nonzero; rewrite last_snoc; lia).
      pose proof (le_val_pos _ Hb Ht ltac:(destruct init; discriminate)) as Hpos.
      unfold _encode_num. destruct (Z.eqb_spec (le_val (init ++ [hi])) 0); [lia|].
      rewrite (encode_magnitude _ (init ++ [hi])) by (auto; lia).
      rewrite last_snoc. cbn [default id]. rewrite H2. cbn [Z.eqb negb].
      destruct (Z.ltb_spec (le_val (init ++ [hi])) 0); [lia|reflexivity].
    + assert (Hl : is_byte (Z.land hi 127)) by (unfold is_byte; lia).
      assert (Hb : Forall is_byte (init ++ [Z.land hi 127])) by (apply Forall_app; auto).
      assert (Ht : top_nonzero (init ++ [Z.land hi 127])) by (unfold top_nonzero; rewrite last_snoc; lia).
      pose proof (le_val_pos _ Hb Ht ltac:(destruct init; discriminate)) as Hpos.
      unfold _encode_num. destruct (Z.eqb_spec (- le_val (init ++ [Z.land hi 127])) 0); [lia|].
      rewrite (encode_magnitude _ (init ++ [Z.land hi 127])) by (auto; lia).
      rewrite last_snoc. cbn [default id].
      destruct (land128_cases _ Hl) as [(G1 & G2 & G3)|(G1 & G2 & G3 & G4)]; [|lia].
      rewrite G2. cbn [Z.eqb negb].
      destruct (Z.ltb_spec (- le_val (init ++ [Z.land hi 127])) 0); [|lia].
      rewrite set_last_snoc, H3. reflexivity.
  - (* the top byte is only a sign byte *)
    apply Forall_app in Hi as [Hi' Hbl]. inversion Hbl as [|? ? Hbelow' _]; subst.
    assert (Hb : Forall is_byte (init' ++ [below])) by (apply Forall_app; auto).
    assert (Ht : top_nonzero (init' ++ [below])).
    { unfold top_nonzero. rewrite last_snoc. intros ->. apply Hbelow. reflexivity. }
    pose proof (le_val_pos _ Hb Ht ltac:(destruct init'; discriminate)) as Hpos.
    destruct (land128_cases below Hbelow') as [(B1 & B2 & B3)|(B1 & B2 & B3 & B4)]; [lia|].
    destruct (land128_cases hi Hh) as [(H1 & H2 & H3)|(H1 & H2 & H3 & H4)]; rewrite H2; cbn [Z.eqb].
    + assert (hi = 0) by lia. subst hi. rewrite le_val_snoc0.
      unfold _encode_num. destruct (Z.eqb_spec (le_val (init' ++ [below])) 0); [lia|].
      rewrite (encode_magnitude _ (init' ++ [below])) by (auto; lia).
      rewrite last_snoc. cbn [default id]. rewrite B2. cbn [Z.eqb negb].
      destruct (Z.ltb_spec (le_val (init' ++ [below])) 0); [lia|reflexivity].
    + rewrite Hlow in *. change (Z.lor 0 128) with 128 in H3. subst hi.
      rewrite le_val_snoc0.
      unfold _encode_num. destruct (Z.eqb_spec (- le_val (init' ++ [below])) 0); [lia|].
      rewrite (encode_magnitude _ (init' ++ [below])) by (auto; lia).
      rewrite last_snoc. cbn [default id]. rewrite B2. cbn [Z.eqb negb].
      destruct (Z.ltb_spec (- le_val (init' ++ [below])) 0); [reflexivity|lia].
Qed.

(** The encoder only produces script numbers in the shortest form. *)
Lemma encode_num_valid n : valid_script_number (_encode_num n).
Proof.
  unfold _encode_num. destruct (Z.eqb_spec n 0) as [->|Hn]; [split; [constructor|reflexivity]|].
  assert (Hm : 0 < Z.abs n) by lia.
  destruct (magnitude_bytes_spec _ _ (log2_fuel _ Hm)) as (Hb & Hv & Ht & Hne).
  set (L := magnitude_bytes _ _) in *. specialize (Hne Hm).
  destruct (exists_last Hne) as (init & top & HL). rewrite HL in *. clear HL L.
  unfold top_nonzero in Ht. rewrite last_snoc in *. cbn [default id].
  apply Forall_app in Hb as [Hi Hh]. inversion Hh as [|? ? Htop _]; subst.
  destruct (land128_cases top Htop) as [(H1 & H2 & H3)|(H1 & H2 & H3 & H4)]; rewrite H2; cbn [Z.eqb negb].
  - destruct (Z.ltb_spec n 0).
    + rewrite set_last_snoc. destruct Htop.
      destruct (lor128_low top ltac:(lia)) as (Hq1 & Hq2 & Hq3).
      split; [apply Forall_app; auto|].
      unfold minimally_encoded. rewrite last_snoc, Hq3.
      destruct (Z.eqb_spec top 0); [contradiction|reflexivity].
    + split; [apply Forall_app; auto|].
      unfold minimally_encoded. rewrite last_snoc, H3.
      destruct (Z.eqb_spec top 0); [contradiction|reflexivity].
  - assert (Hsign : is_byte (if n <? 0 then 128 else 0)) by (destruct (n <? 0); unfold is_byte; lia).
    split; [apply Forall_app; split; [apply Forall_app; auto|auto]|].
    unfold minimally_encoded. rewrite last_snoc, removelast_last, last_snoc, H2.
    destruct (n <? 0); reflexivity.
Qed.

(** The shortest form is exactly what makes a byte string come back. *)
Lemma encode_decode_iff data : Forall is_byte data ->
  _encode_num (_decode_num data) = data <-> minimally_encoded data = true.
Proof.
  intros Hb. split.
  - intros <-. apply encode_num_valid.
  - intros Hmin. apply encode_decode_num. split; assumption.
Qed.

(** The shape of an encoding. *)
Lemma encode_num_shape n : n <> 0 ->
  exists init top,
    Forall is_byte (init ++ [top]) /\ top <> 0 /\ le_val (init ++ [top]) = Z.abs n /\
    _encode_num n =
      if Z.land top 0x80 =? 0
      then init ++ [if n <? 0 then Z.lor top 0x80 else top]
      else init ++ [top; if n <? 0 then 0x80 else 0x00].
Proof.
  intros Hn. unfold _encode_num. destruct (Z.eqb_spec n 0); [contradiction|].
  assert (Hm : 0 < Z.abs n) by lia.
  destruct (magnitude_bytes_spec _ _ (log2_fuel _ Hm)) as (Hb & Hv & Ht & Hne).
  set (L := magnitude_bytes _ _) in *. specialize (Hne Hm).
  destruct (exists_last Hne) as (init & top & HL). rewrite HL in *. clear HL L.
  unfold top_nonzero in Ht. rewrite last_snoc in *. cbn [default id].
  exists init, top. split; [exact Hb|]. split; [exact Ht|]. split; [exact Hv|].
  destruct (Z.land top 128 =? 0); cbn [negb].
  - destruct (n <? 0); [apply set_last_snoc|reflexivity].
  - rewrite <- app_assoc. reflexivity.
Qed.

(** C9: [_encode_num] after [_decode_num] gives back every valid script
    number, that is every string of bytes in the shortest form, and
    [_decode_num] after [_encode_num] gives back every integer [n] with
    [|n| < 2^63]; the encoder's outputs are valid; zero is the empty string,
    and any other [n] is the little-endian bytes of [|n|] with the sign in
    the high bit of the last byte, or in one more byte 0x00 or 0x80 when
    that bit is taken. *)
Theorem C9_script_number_roundtrip (data : bytes) (n : Z) :
  valid_script_number data -> Z.abs n < 2 ^ 63 ->
  _encode_num (_decode_num data) = data /\
  _decode_num (_encode_num n) = n /\
  valid_script_number (_encode_num n) /\
  _encode_num 0 = [] /\
  (n <> 0 ->
   exists init top,
     Forall is_byte (init ++ [top]) /\ top <> 0 /\ le_val (init ++ [top]) = Z.abs n /\
     _encode_num n =
       if Z.land top 0x80 =? 0
       then init ++ [if n <? 0 then Z.lor top 0x80 else top]
       else init ++ [top; if n <? 0 then 0x80 else 0x00]).
Proof.
  intros Hvalid _. split; [apply encode_decode_num, Hvalid|].
  split; [apply decode_encode_num|]. split; [apply encode_num_valid|].
  split; [reflexivity|apply encode_num_shape].
Qed.

(** C9, at the two-byte string of -255 and at [n = -2^63 + 1]. *)
Lemma C9_witness :
  _encode_num (_decode_num [0xff; 0x80]) = [0xff; 0x80] /\
  _decode_num (_encode_num (-9223372036854775807)) = -9223372036854775807 /\
  valid_script_number (_encode_num (-9223372036854775807)) /\
  _encode_num 0 = [] /\
  (-9223372036854775807 <> 0 ->
   exists init top,
     Forall is_byte (init ++ [top]) /\ top <> 0 /\
     le_val (init ++ [top]) = Z.abs (-9223372036854775807) /\
     _encode_num (-9223372036854775807) =
       if Z.land top 0x80 =? 0
       then init ++ [if -9223372036854775807 <? 0 then Z.lor top 0x80 else top]
       else init ++ [top; if -9223372036854775807 <? 0 then 0x80 else 0x00]).
Proof.
  apply (C9_script_number_roundtrip [0xff; 0x80] (-9223372036854775807)).
  - split; [repeat constructor; unfold is_byte; lia|reflexivity].
  - vm_compute. reflexivity.
Defined.

(** With fuel for one turn per byte, the deserializer's result no longer
    depends on the fuel. *)
Lemma deserialize_loop_fuel fuel : forall data fuel',
  (length data <= fuel)%nat -> (length data <= fuel')%nat ->
  deserialize_loop fuel data = deserialize_loop fuel' data.
Proof.
  induction fuel as [|fuel IH]; intros data fuel' H H'.
  - destruct data; [|cbn in H; lia]. destruct fuel'; reflexivity.
  - destruct data as [|opcode rest]; [destruct fuel'; reflexivity|].
    destruct fuel' as [|fuel']; [cbn in H'; lia|]. cbn [length] in H, H'.
    cbn [deserialize_loop].
    destruct (opcode <? OP_PUSHDATA1).
    { rewrite (IH _ fuel') by (rewrite length_drop; lia). reflexivity. }
    destruct (opcode =? OP_PUSHDATA1).
    { destruct rest as [|len rest']; [reflexivity|]. cbn [length] in H, H'.
      rewrite (IH _ fuel') by (rewrite length_drop; lia). reflexivity. }
    destruct (opcode =? OP_PUSHDATA2).
    { destruct rest as [|lo [|hi rest']]; [reflexivity|reflexivity|]. cbn [length] in H, H'.
      rewrite (IH _ fuel') by (rewrite length_drop; lia). reflexivity. }
    rewrite (IH _ fuel') by lia. reflexivity.
Qed.

(** *** Serialization *)

Lemma magnitude_bytes_length fuel n : (length (magnitude_bytes fuel n) <= fuel)%nat.
Proof.
  revert n. induction fuel as [|fuel IH]; intros n; cbn [magnitude_bytes]; [cbn; lia|].
  destruct (0 <? n); cbn [length]; [specialize (IH (Z.shiftr n 8))|]; lia.
Qed.

Lemma encode_num_length n : Z.abs n < 2 ^ 63 -> (length (_encode_num n) <= 65)%nat.
Proof.
  intros Hn. unfold _encode_num. destruct (n =? 0); [cbn; lia|].
  assert (Hf : (S (Z.to_nat (Z.log2 (Z.abs n))) <= 64)%nat).
  { destruct (Z.eq_dec (Z.abs n) 0) as [->|Hne]; [cbn; lia|].
    assert (Z.log2 (Z.abs n) < 63) by (apply Z.log2_lt_pow2; lia).
    pose proof (Z.log2_nonneg (Z.abs n)). lia. }
  pose proof (magnitude_bytes_length (S (Z.to_nat (Z.log2 (Z.abs n)))) (Z.abs n)) as Hl.
  set (L := magnitude_bytes _ _) in *.
  destruct (negb _).
  - rewrite length_app. cbn [length]. lia.
  - destruct (n <? 0); [|lia]. unfold set_last. rewrite length_app. cbn [length].
    destruct L as [|x L'] using rev_ind; [cbn; lia|].
    rewrite removelast_last. rewrite length_app in Hl. cbn [length] in Hl. lia.
Qed.

Lemma storable_encode_num n : Z.abs n < 2 ^ 63 -> storable (Push (_encode_num n)).
Proof. intros H. cbn. pose proof (encode_num_length n H). lia. Qed.

Lemma storable_opcode op :
  (OP_PUSHDATA4 <=? op) = true -> (op <=? 0xff) = true -> storable (Opcode op).
Proof. intros H1 H2. cbn. right. lia. Qed.

Lemma storable_count_opcode k : 1 <= k <= 16 -> storable (Opcode (k + OP_1 - 1)).
Proof. intros H. cbn. right. unfold OP_PUSHDATA4, OP_1. lia. Qed.

Ltac storable_items :=
  repeat first
    [ apply Forall_nil_2
    | apply Forall_cons_2
    | apply Forall_app_2
    | apply Forall_map; assumption
    | apply storable_opcode; reflexivity
    | apply storable_count_opcode; lia
    | apply storable_encode_num; assumption
    | assumption
    | left; reflexivity ].

Lemma from_catalog_storable s : from_catalog s -> Forall storable s.
Proof.
  destruct 1; unfold p2pkh_script_pubkey, p2pkh_script_sig, p2sh_script_pubkey,
    p2wpkh_script_pubkey, p2wsh_script_pubkey, multisig_script_pubkey, multisig_script_sig,
    timelock_script_cltv, timelock_script_csv, htlc_script; storable_items.
Qed.

Lemma to_le_2 len : 0 <= len < 65536 ->
  exists lo hi, Word32.to_le 2 len = [lo; hi] /\ lo + 256 * hi = len.
Proof.
  intros Hlen. cbn [Word32.to_le]. eexists _, _. split; [reflexivity|].
  change 255 with (Z.ones 8). rewrite !Z.land_ones by lia.
  rewrite Z.shiftr_div_pow2 by lia. change (2 ^ 8) with 256.
  rewrite (Z.mod_small (len / 256)).
  - pose proof (Z.div_mod len 256 ltac:(lia)). lia.
  - split; [apply Z.div_pos; lia|apply Z.div_lt_upper_bound; lia].
Qed.

Lemma serialize_item_read item (rest : bytes) tail :
  storable item ->
  exists b, serialize_item item = Some b /\
    forall fuel, (length (b ++ rest) <= fuel)%nat ->
      (forall fuel', (length rest <= fuel')%nat -> deserialize_loop fuel' rest = Some tail) ->
      deserialize_loop fuel (b ++ rest) = Some (as_read item :: tail).
Proof.
  intros Hst. destruct item as [op|data]; cbn [storable serialize_item as_read] in *.
  - assert (Hrange : 0 <= op < 256) by (unfold OP_0, OP_PUSHDATA4 in Hst; lia).
    destruct (Z.leb_spec 0 op); [|lia]. destruct (Z.ltb_spec op 256); [|lia]. cbn [andb].
    eexists; split; [reflexivity|]. intros fuel Hfuel Hrest. cbn [app length] in *.
    destruct fuel as [|fuel]; [lia|]. cbn [deserialize_loop].
    destruct Hst as [->|Hop].
    + cbn. rewrite Hrest by lia. reflexivity.
    + unfold OP_PUSHDATA4 in Hop. unfold OP_PUSHDATA1, OP_PUSHDATA2, OP_0.
      destruct (Z.ltb_spec op 76); [lia|]. destruct (Z.eqb_spec op 76); [lia|].
      destruct (Z.eqb_spec op 77); [lia|]. destruct (Z.eqb_spec op 0); [lia|].
      rewrite Hrest by lia. reflexivity.
  - set (len := Z.of_nat (length data)) in *.
    assert (Hlen : Z.to_nat len = length data) by (unfold len; lia).
    assert (Htake : take (length data) (data ++ rest) = data) by (rewrite take_app_length; reflexivity).
    assert (Hdrop : drop (length data) (data ++ rest) = rest) by (rewrite drop_app_length; reflexivity).
    destruct (Z.ltb_spec len 76).
    + eexists; split; [reflexivity|]. intros fuel Hfuel Hrest.
      cbn [app length] in *. rewrite length_app in Hfuel.
      destruct fuel as [|fuel]; [lia|]. cbn [deserialize_loop]. unfold OP_PUSHDATA1.
      destruct (Z.ltb_spec len 76); [|lia]. rewrite Hlen, Htake, Hdrop, Hrest by lia. reflexivity.
    + destruct (Z.leb_spec len 255).
      * eexists; split; [reflexivity|]. intros fuel Hfuel Hrest.
        cbn [app length] in *. rewrite length_app in Hfuel.
        destruct fuel as [|fuel]; [lia|]. cbn [deserialize_loop]. unfold OP_PUSHDATA1.
        cbn [Z.ltb Z.compare Pos.compare Pos.compare_cont Z.eqb Pos.eqb].
        rewrite Hlen, Htake, Hdrop, Hrest by lia. reflexivity.
      * unfold pack_le. destruct (Z.leb_spec 0 len); [|lia].
        change (2 ^ (8 * Z.of_nat 2)) with 65536. destruct (Z.ltb_spec len 65536); [|lia].
        cbn [andb]. destruct (to_le_2 len ltac:(lia)) as (lo & hi & -> & Hsum).
        eexists; split; [reflexivity|]. intros fuel Hfuel Hrest.
        cbn [app length] in *. rewrite length_app in Hfuel.
        destruct fuel as [|fuel]; [lia|]. cbn [deserialize_loop]. unfold OP_PUSHDATA2, OP_PUSHDATA1.
        cbn [Z.ltb Z.compare Pos.compare Pos.compare_cont Z.eqb Pos.eqb].
        rewrite Hsum, Hlen, Htake, Hdrop, Hrest by lia. reflexivity.
Qed.

Lemma serialize_read_back script : Forall storable script ->
  exists data, serialize script = Some data /\
    forall fuel, (length data <= fuel)%nat ->
      deserialize_loop fuel data = Some (map as_read script).
Proof.
  induction 1 as [|item rest Hitem Hrest IH].
  - exists []. split; [reflexivity|]. intros [|fuel] _; reflexivity.
  - destruct IH as (bs & Hser & Hde).
    destruct (serialize_item_read item bs (map as_read rest) Hitem) as (b & Hb & Hread).
    exists (b ++ bs). cbn [serialize]. rewrite Hb, Hser. split; [reflexivity|].
    intros fuel Hfuel. cbn [map]. apply Hread; assumption.
Qed.

Lemma as_read_id script : existsb is_OP_0 script = false -> map as_read script = script.
Proof.
  induction script as [|item rest IH]; [reflexivity|]. cbn [existsb map].
  intros H. apply orb_false_iff in H as [Hi Hr]. rewrite IH by assumption. f_equal.
  destruct item; cbn in *; [rewrite Hi|]; reflexivity.
Qed.

(** C2 (amended): a script from the template catalog, or any script whose
    instructions are OP_0 or bytes from 0x4e to 0xff and whose payloads are
    at most 0xffff bytes long, is serialized, and reading the bytes back
    gives the script with every OP_0 turned into the empty payload; without
    OP_0 it gives the script itself. *)
Theorem C2_serialize_deserialize (script : Script) :
  from_catalog script \/ Forall storable script ->
  exists data,
    serialize script = Some data /\
    deserialize data = Some (map as_read script) /\
    (existsb is_OP_0 script = false -> deserialize data = Some script).
Proof.
  intros H. assert (Hst : Forall storable script).
  { destruct H; [apply from_catalog_storable|]; assumption. }
  destruct (serialize_read_back script Hst) as (data & Hser & Hde).
  exists data. split; [exact Hser|]. unfold deserialize.
  rewrite Hde by lia. split; [reflexivity|].
  intros Hno. rewrite as_read_id by assumption. reflexivity.
Qed.

(** C2, at the P2PKH lock of a 20-byte hash. *)
Lemma C2_witness :
  exists data,
    serialize (p2pkh_script_pubkey (replicate 20 0xab)) = Some data /\
    deserialize data = Some (map as_read (p2pkh_script_pubkey (replicate 20 0xab))) /\
    (existsb is_OP_0 (p2pkh_script_pubkey (replicate 20 0xab)) = false ->
     deserialize data = Some (p2pkh_script_pubkey (replicate 20 0xab))).
Proof.
  apply (C2_serialize_deserialize (p2pkh_script_pubkey (replicate 20 0xab))).
  left. apply catalog_p2pkh_lock. cbn. lia.
Defined.

(** C2 fails as stated: the P2WPKH lock, a catalog script, starts with
    OP_0, and comes back starting with the empty payload. *)
Lemma C2_counterexample :
  from_catalog (p2wpkh_script_pubkey (replicate 20 0xab)) /\
  exists data,
    serialize (p2wpkh_script_pubkey (replicate 20 0xab)) = Some data /\
    deserialize data = Some [Push []; Push (replicate 20 0xab)] /\
    deserialize data <> Some (p2wpkh_script_pubkey (replicate 20 0xab)).
Proof.
  split; [apply catalog_p2wpkh; cbn; lia|].
  eexists. split; [vm_compute; reflexivity|]. split; [vm_compute; reflexivity|].
  vm_compute. discriminate.
Qed.

(** *** The interpreter *)

Lemma run_app vm s1 s2 :
  run vm (s1 ++ s2) =
    match run vm s1 with
    | Returned vm1 => run vm1 s2
    | ScriptError vm1 => ScriptError vm1
    end.
Proof.
  revert vm. induction s1 as [|[op|data] rest IH]; intros vm; cbn [run app]; [reflexivity| |apply IH].
  destruct (_execute_opcode vm op); [apply IH|reflexivity].
Qed.

Lemma run_pushes vm (items : list bytes) rest :
  run vm (map Push items ++ rest) = run (set_stack vm (rev items ++ stack vm)) rest.
Proof.
  revert vm. induction items as [|x items IH]; intros vm; cbn [map app run rev].
  - destruct vm; reflexivity.
  - rewrite IH. cbn [set_stack stack alt_stack transaction_context clock].
    rewrite <- app_assoc. reflexivity.
Qed.

Lemma execute_continues vm s1 s2 vm1 :
  run vm s1 = Returned vm1 ->
  snd (execute vm s1) = vm1 /\ execute vm1 s2 = execute vm (s1 ++ s2).
Proof.
  intros H. unfold execute. rewrite run_app, H. split; [|reflexivity].
  destruct (stack vm1); reflexivity.
Qed.

Lemma checkmultisig_frame vm :
  match checkmultisig vm with
  | Returned vm' | ScriptError vm' =>
      alt_stack vm' = alt_stack vm /\ transaction_context vm' = transaction_context vm
      /\ clock vm' = clock vm
  end.
Proof.
  unfold checkmultisig. destruct (stack vm) as [|top s1]; [auto|].
  destruct (_ <? _); [cbn; auto|]. destruct (drop _ s1) as [|top' s2]; [cbn; auto|].
  destruct (_ <? _); [cbn; auto|]. destruct (drop _ s2); cbn; auto.
Qed.

Ltac opcode_cases vm :=
  unfold _execute_opcode;
  repeat match goal with
  | |- context [if ?c then _ else _] => destruct c
  end;
  try (destruct (stack vm) as [|? [|? [|? ?]]]);
  repeat match goal with
  | |- context [if ?c then _ else _] => destruct c
  end.

Lemma execute_opcode_frame vm op :
  match _execute_opcode vm op with
  | Returned vm' | ScriptError vm' =>
      alt_stack vm' = alt_stack vm /\ transaction_context vm' = transaction_context vm
      /\ clock vm' = clock vm
  end.
Proof.
  opcode_cases vm; try apply checkmultisig_frame;
    cbn [set_stack alt_stack transaction_context clock]; auto.
Qed.

Lemma run_frame vm script :
  match run vm script with
  | Returned vm' | ScriptError vm' =>
      alt_stack vm' = alt_stack vm /\ transaction_context vm' = transaction_context vm
      /\ clock vm' = clock vm
  end.
Proof.
  revert vm. induction script as [|[op|data] rest IH]; intros vm; cbn [run]; [auto| |].
  - pose proof (execute_opcode_frame vm op) as Hop.
    destruct (_execute_opcode vm op) as [vm1|vm1]; [|exact Hop].
    specialize (IH vm1). destruct Hop as (H1 & H2 & H3).
    destruct (run vm1 rest); rewrite <- H1, <- H2, <- H3; exact IH.
  - specialize (IH (set_stack vm (data :: stack vm))). destruct (run _ rest); exact IH.
Qed.

(** *** Multisignature spends *)

Lemma verify_signature_spec public_key message signature :
  verify_signature public_key message signature = true <->
  is_32_bytes signature /\ is_32_bytes public_key.
Proof.
  unfold verify_signature, is_32_bytes. rewrite andb_true_iff, !Nat.eqb_eq. reflexivity.
Qed.

Lemma match_signatures_all tx keys (signatures : list bytes) : Forall is_32_bytes signatures ->
  forall i, Forall is_32_bytes keys -> (i <= length signatures)%nat ->
  match_signatures tx keys signatures i = Nat.min (i + length keys) (length signatures).
Proof.
  intros Hs i Hk. revert i. induction Hk as [|k keys Hk1 Hk IH]; intros i Hi; cbn [match_signatures length].
  - lia.
  - destruct (Nat.leb_spec (length signatures) i); [lia|].
    assert (Hv : verify_signature k tx (nth i signatures []) = true).
    { apply verify_signature_spec. split; [|exact Hk1].
      rewrite Forall_forall in Hs. apply Hs. apply list_elem_of_In, nth_In. lia. }
    rewrite Hv, IH by lia. lia.
Qed.

Lemma match_signatures_stuck tx keys (signatures : list bytes) j :
  (j < length signatures)%nat -> ~ is_32_bytes (nth j signatures []) ->
  forall i, (i <= j)%nat -> (match_signatures tx keys signatures i <= j)%nat.
Proof.
  intros Hj Hbad. induction keys as [|k keys IH]; intros i Hi; cbn [match_signatures]; [lia|].
  destruct (Nat.leb_spec (length signatures) i); [lia|].
  destruct (verify_signature k tx (nth i signatures [])) eqn:Hv; [|apply IH; lia].
  apply verify_signature_spec in Hv as [Hv _].
  apply IH. destruct (Nat.eq_dec i j) as [->|]; [contradiction|lia].
Qed.

Lemma not_Forall_nth (l : list bytes) : ~ Forall is_32_bytes l ->
  exists j, (j < length l)%nat /\ ~ is_32_bytes (nth j l []).
Proof.
  induction l as [|x l IH]; intros H; [exfalso; apply H; constructor|].
  destruct (decide (length x = 32%nat)) as [Hx|Hx].
  - destruct IH as (j & Hj & Hbad); [intros Hl; apply H; constructor; assumption|].
    exists (S j). cbn. split; [lia|assumption].
  - exists 0%nat. cbn. split; [lia|assumption].
Qed.

Lemma count_opcode_pushes vm k : 1 <= k <= 16 ->
  _execute_opcode vm (k + OP_1 - 1) = Returned (set_stack vm ([k] :: stack vm)).
Proof.
  intros Hk. unfold _execute_opcode, OP_0, OP_1, OP_16.
  destruct (Z.leb_spec 0 (k + 81 - 1)); [|lia].
  destruct (Z.leb_spec (k + 81 - 1) 96); [|lia]. cbn [andb].
  destruct (Z.eqb_spec (k + 81 - 1) 0); [lia|].
  replace (k + 81 - 1 - 81 + 1) with k by lia.
  assert (H16 : In k (map Z.of_nat (seq 1 16))).
  { apply in_map_iff. exists (Z.to_nat k). split; [lia|]. apply in_seq. lia. }
  cbn in H16. 
  repeat (destruct H16 as [<-|H16]; [reflexivity|]). contradiction.
Qed.

Lemma decode_count k : 1 <= k <= 16 -> _decode_num [k] = k.
Proof.
  intros Hk.
  assert (H16 : In k (map Z.of_nat (seq 1 16))).
  { apply in_map_iff. exists (Z.to_nat k). split; [lia|]. apply in_seq. lia. }
  cbn in H16. 
  repeat (destruct H16 as [<-|H16]; [reflexivity|]). contradiction.
Qed.

(** The stack the unlock script leaves. *)
Lemma run_multisig_unlock ctx clk sigs :
  run (new_interpreter ctx clk) (multisig_script_sig sigs) =
    Returned (mkInterpreter (rev sigs ++ [[]]) [] (default empty_context ctx) clk).
Proof.
  unfold multisig_script_sig. cbn [app run]. 
  change (_execute_opcode (new_interpreter ctx clk) OP_0)
    with (Returned (set_stack (new_interpreter ctx clk) [[]])).
  change (map Push sigs) with (map Push sigs) . rewrite <- (app_nil_r (map Push sigs)).
  rewrite run_pushes. reflexivity.
Qed.

Lemma run_multisig_lock vm m pubkeys :
  1 <= m <= 16 -> (1 <= length pubkeys <= 16)%nat ->
  run vm (multisig_script_pubkey m pubkeys) =
    match checkmultisig (set_stack vm ([Z.of_nat (length pubkeys)] :: rev pubkeys ++ [m] :: stack vm)) with
    | Returned vm' => Returned vm'
    | ScriptError vm' => ScriptError vm'
    end.
Proof.
  intros Hm Hn. unfold multisig_script_pubkey. cbn [app run].
  rewrite count_opcode_pushes by lia. rewrite run_pushes. cbn [run].
  rewrite count_opcode_pushes by lia.
  cbn [set_stack stack alt_stack transaction_context clock].
  match goal with |- match _execute_opcode ?v _ with _ => _ end = _ =>
    change (_execute_opcode v OP_CHECKMULTISIG) with (checkmultisig v) end.
  unfold set_stack. cbn [stack alt_stack transaction_context clock].
  destruct (checkmultisig _); reflexivity.
Qed.

Lemma checkmultisig_on_template vm m (pubkeys sigs : list bytes) :
  1 <= m <= 16 -> (1 <= length pubkeys <= 16)%nat ->
  Z.of_nat (length sigs) <= m ->
  checkmultisig (set_stack vm ([Z.of_nat (length pubkeys)] :: rev pubkeys ++ [m] :: rev sigs ++ [[]])) =
    if Z.of_nat (length sigs) <? m
    then ScriptError (set_stack vm (if Z.of_nat (length sigs) + 1 <? m then rev sigs ++ [[]] else []))
    else Returned (set_stack vm
           [truth (Z.of_nat (match_signatures (default [] (tx_data (transaction_context vm)))
                               pubkeys (rev sigs) 0) =? m)]).
Proof.
  intros Hm Hn Hk. unfold checkmultisig. cbn [set_stack stack alt_stack transaction_context clock].
  rewrite decode_count by lia. rewrite Nat2Z.id.
  assert (Hs : length (rev sigs ++ [[]]) = S (length sigs)).
  { rewrite length_app, length_rev. cbn. lia. }
  rewrite <- (length_rev pubkeys) in *. set (keys := rev pubkeys) in *.
  rewrite length_app. cbn [length]. rewrite Hs.
  destruct (Z.ltb_spec (Z.of_nat (length keys + S (S (length sigs)))) (Z.of_nat (length keys))); [lia|].
  rewrite drop_app_length, take_app_length.
  rewrite decode_count by lia. rewrite Hs.
  destruct (Z.ltb_spec (Z.of_nat (S (length sigs))) m) as [Hlt|Hge].
  - destruct (Z.ltb_spec (Z.of_nat (length sigs)) m); [|lia].
    destruct (Z.ltb_spec (Z.of_nat (length sigs) + 1) m); [|lia]. reflexivity.
  - destruct (Z.ltb_spec (Z.of_nat (length sigs)) m) as [Hlt'|Hge'].
    + (* the dummy element is taken as a signature, nothing is left for the extra pop *)
      assert (Hm' : Z.to_nat m = length (rev sigs ++ [[]])) by lia.
      rewrite Hm', drop_all.
      destruct (Z.ltb_spec (Z.of_nat (length sigs) + 1) m); [lia|]. reflexivity.
    + assert (Hm' : Z.to_nat m = length (rev sigs)) by (rewrite length_rev; lia).
      rewrite Hm', drop_app_length, take_app_length.
      subst keys. rewrite rev_involutive. reflexivity.
Qed.

Lemma spend_multisig ctx clk m (pubkeys sigs : list bytes) :
  1 <= m <= 16 -> (1 <= length pubkeys <= 16)%nat -> Z.of_nat (length sigs) <= m ->
  spend ctx clk (multisig_script_sig sigs) (multisig_script_pubkey m pubkeys) =
    negb (Z.of_nat (length sigs) <? m)
    && (Z.of_nat (match_signatures (default [] (tx_data (default empty_context ctx)))
                    pubkeys (rev sigs) 0) =? m).
Proof.
  intros Hm Hn Hk. unfold spend.
  destruct (execute_continues _ _ [] _ (run_multisig_unlock ctx clk sigs)) as [-> _].
  unfold execute. rewrite run_multisig_lock by assumption.
  change (mkInterpreter (rev sigs ++ [[]]) [] (default empty_context ctx) clk)
    with (set_stack (new_interpreter ctx clk) (rev sigs ++ [[]])).
  match goal with |- context [checkmultisig ?v] =>
    change v with (set_stack (new_interpreter ctx clk)
                     ([Z.of_nat (length pubkeys)] :: rev pubkeys ++ [m] :: rev sigs ++ [[]])) end.
  rewrite checkmultisig_on_template by assumption.
  destruct (Z.of_nat (length sigs) <? m); [reflexivity|].
  cbn [negb andb set_stack stack new_interpreter transaction_context fst].
  destruct (_ =? m); reflexivity.
Qed.

(** C6 (amended): for an M-of-N lock with 1 <= M <= N <= 16 and keys of 32
    bytes, run after the unlock script on one interpreter: M signatures of
    32 bytes each are accepted, whatever keys made them and in whatever
    order; M signatures of which one is not 32 bytes long are rejected;
    fewer than M signatures are rejected; and the signatures that
    [sign_message] makes with any M private keys, over any message, are
    accepted. *)
Theorem C6_multisig_by_length ctx clk (m : Z) (pubkeys sigs private_keys : list bytes)
    (message : bytes) :
  1 <= m <= Z.of_nat (length pubkeys) -> (length pubkeys <= 16)%nat ->
  Forall is_32_bytes pubkeys ->
  let lock := multisig_script_pubkey m pubkeys in
  let result := spend ctx clk (multisig_script_sig sigs) lock in
  (Z.of_nat (length sigs) = m -> Forall is_32_bytes sigs -> result = true) /\
  (Z.of_nat (length sigs) = m -> ~ Forall is_32_bytes sigs -> result = false) /\
  (Z.of_nat (length sigs) < m -> result = false) /\
  (Z.of_nat (length private_keys) = m ->
   spend ctx clk
     (multisig_script_sig (map (fun k => sign_message k message) private_keys)) lock = true).
Proof.
  intros Hm Hn Hkeys lock result. subst lock result.
  assert (Haccept : forall s : list bytes, Z.of_nat (length s) = m -> Forall is_32_bytes s ->
            spend ctx clk (multisig_script_sig s) (multisig_script_pubkey m pubkeys) = true).
  { intros s Hk Hs. rewrite spend_multisig by lia.
    destruct (Z.ltb_spec (Z.of_nat (length s)) m); [lia|]. cbn [negb andb].
    rewrite match_signatures_all.
    - rewrite length_rev. apply Z.eqb_eq. lia.
    - apply Forall_rev. exact Hs.
    - exact Hkeys.
    - lia. }
  split; [exact (Haccept sigs)|]. split; [|split].
  - intros Hk Hs. rewrite spend_multisig by lia.
    destruct (Z.ltb_spec (Z.of_nat (length sigs)) m); [lia|]. cbn [negb andb].
    destruct (not_Forall_nth (rev sigs)) as (j & Hj & Hbad).
    { intros H'. apply Hs. rewrite <- (rev_involutive sigs). apply Forall_rev. exact H'. }
    pose proof (match_signatures_stuck (default [] (tx_data (default empty_context ctx)))
                  pubkeys (rev sigs) j Hj Hbad 0%nat ltac:(lia)) as Hle.
    rewrite length_rev in Hj. apply Z.eqb_neq. lia.
  - intros Hk. rewrite spend_multisig by lia.
    destruct (Z.ltb_spec (Z.of_nat (length sigs)) m); [reflexivity|lia].
  - intros Hk. apply Haccept; [rewrite length_map; exact Hk|].
    apply Forall_map, Forall_forall. intros k _. apply HashFacts.hmac_sha256_length.
Qed.

(** C6 fails as stated: the signatures of keys 2 and 1, in this order,
    unlock the 2-of-3 lock of keys 1, 2, 3, and so do two signatures made
    with keys that are not in the lock. *)
Lemma C6_counterexample :
  let lock := multisig_script_pubkey 2 [demo_key 1; demo_key 2; demo_key 3] in
  spend demo_context 0 (multisig_script_sig [demo_signature 2; demo_signature 1]) lock = true /\
  spend demo_context 0 (multisig_script_sig [demo_signature 8; demo_signature 9]) lock = true /\
  demo_signature 1 <> demo_signature 2.
Proof. vm_compute. repeat split; try reflexivity; discriminate. Qed.

(** C6, at a 2-of-3 lock with two 32-byte signatures. *)
Lemma C6_witness :
  let lock := multisig_script_pubkey 2 [demo_key 1; demo_key 2; demo_key 3] in
  let sigs := [replicate 32 7; replicate 32 9] in
  let private_keys := [replicate 32 1; replicate 32 3] in
  let result := spend demo_context 0 (multisig_script_sig sigs) lock in
  (Z.of_nat (length sigs) = 2 -> Forall is_32_bytes sigs -> result = true) /\
  (Z.of_nat (length sigs) = 2 -> ~ Forall is_32_bytes sigs -> result = false) /\
  (Z.of_nat (length sigs) < 2 -> result = false) /\
  (Z.of_nat (length private_keys) = 2 ->
   spend demo_context 0
     (multisig_script_sig (map (fun k => sign_message k (ascii_bytes "msg")) private_keys))
     lock = true).
Proof.
  apply (C6_multisig_by_length demo_context 0 2 [demo_key 1; demo_key 2; demo_key 3]
           [replicate 32 7; replicate 32 9] [replicate 32 1; replicate 32 3] (ascii_bytes "msg")).
  - cbn. lia.
  - cbn. lia.
  - repeat constructor; apply HashFacts.sha256_length.
Defined.

(** *** Stacks between calls, and bytes that are no instruction *)

(** C7 (as the code has it): the stacks are emptied once, when the
    interpreter is created.  [execute] starts from the stacks it finds: a
    call that follows a call which did not raise goes on exactly as if the
    two scripts were one, and a call never touches the alt stack's
    contents left by the call before. *)
Theorem C7_stacks_persist (ctx : option TxContext) (clk : Z)
    (vm vm1 : ScriptInterpreter) (first second : Script) :
  run vm first = Returned vm1 ->
  stack (new_interpreter ctx clk) = [] /\
  alt_stack (new_interpreter ctx clk) = [] /\
  snd (execute vm first) = vm1 /\
  execute (snd (execute vm first)) second = execute vm (first ++ second) /\
  alt_stack (snd (execute vm first)) = alt_stack vm.
Proof.
  intros Hrun. destruct (execute_continues vm first second vm1 Hrun) as [Hsnd Hexec].
  split; [reflexivity|]. split; [reflexivity|]. split; [exact Hsnd|].
  rewrite Hsnd. split; [exact Hexec|].
  pose proof (run_frame vm first) as Hf. rewrite Hrun in Hf. apply Hf.
Qed.

(** C7, at a push followed by OP_DUP. *)
Lemma C7_witness :
  stack (new_interpreter None 0) = [] /\
  alt_stack (new_interpreter None 0) = [] /\
  snd (execute (new_interpreter None 0) [Push [0x01]]) =
    mkInterpreter [[0x01]] [] empty_context 0 /\
  execute (snd (execute (new_interpreter None 0) [Push [0x01]])) [Opcode OP_DUP] =
    execute (new_interpreter None 0) ([Push [0x01]] ++ [Opcode OP_DUP]) /\
  alt_stack (snd (execute (new_interpreter None 0) [Push [0x01]])) =
    alt_stack (new_interpreter None 0).
Proof.
  apply (C7_stacks_persist None 0 (new_interpreter None 0)
           (mkInterpreter [[0x01]] [] empty_context 0) [Push [0x01]] [Opcode OP_DUP]).
  reflexivity.
Defined.

(** C7 fails as stated: after a first call that pushed one element, a
    second call with the empty script returns true, and with the element on
    the stack; from emptied stacks it would return false. *)
Lemma C7_counterexample :
  let vm := new_interpreter None 0 in
  let after_first := snd (execute vm [Push [0x01]]) in
  stack after_first = [[0x01]] /\
  execute after_first [] = (true, after_first) /\
  fst (execute (set_stack after_first []) []) = false.
Proof. vm_compute. repeat split; reflexivity. Qed.

Lemma bare_bytes_checked :
  forallb (fun op => negb (in_OpCode op) && _cast_to_bool (_encode_num (op - OP_1 + 1)))
          (seqZ 0x01 0x4b) = true.
Proof. vm_compute. reflexivity. Qed.

(** C8 (what the code does instead): a byte from 0x01 to 0x4b, or 0x50,
    that stands in a script as an instruction is no member of [OpCode], yet
    it is executed as a constant: it pushes the script number of
    [opcode - OP_1 + 1] and does not fail, so that a script made of one such
    byte below 0x50 is accepted.  A byte above OP_16 that is no member of
    [OpCode] does reach the branch that raises. *)
Theorem C8_bare_byte_is_pushed (vm : ScriptInterpreter) (op unknown : Z) :
  0x01 <= op <= 0x4b \/ op = 0x50 ->
  OP_16 < unknown -> in_OpCode unknown = false ->
  in_OpCode op = false /\
  _execute_opcode vm op = Returned (set_stack vm (_encode_num (op - OP_1 + 1) :: stack vm)) /\
  (op <> 0x50 -> fst (execute vm [Opcode op]) = true) /\
  _execute_opcode vm unknown = ScriptError vm.
Proof.
  intros Hop Hhigh Hunknown.
  assert (Hpush : _execute_opcode vm op
                  = Returned (set_stack vm (_encode_num (op - OP_1 + 1) :: stack vm))).
  { unfold _execute_opcode, OP_0, OP_16.
    destruct (Z.leb_spec 0 op); [|lia]. destruct (Z.leb_spec op 96); [|lia]. cbn [andb].
    destruct (Z.eqb_spec op 0); [lia|reflexivity]. }
  assert (Hlow : 0x01 <= op <= 0x4b ->
            in_OpCode op = false /\ _cast_to_bool (_encode_num (op - OP_1 + 1)) = true).
  { intros Hrange. pose proof bare_bytes_checked as Hall. rewrite forallb_forall in Hall.
    specialize (Hall op). rewrite andb_true_iff, negb_true_iff in Hall. apply Hall.
    apply list_elem_of_In, elem_of_seqZ. lia. }
  split; [destruct Hop as [Hop| ->]; [apply Hlow, Hop|reflexivity]|].
  split; [exact Hpush|]. split.
  - intros Hne. destruct Hop as [Hop|Hop]; [|contradiction].
    unfold execute. cbn [run]. rewrite Hpush. cbn [set_stack stack fst].
    apply Hlow, Hop.
  - unfold in_OpCode in Hunknown. apply bool_decide_eq_false_1 in Hunknown.
    unfold OP_16 in Hhigh.
    assert (Hne : forall v, v ∈ OpCode_values -> (unknown =? v) = false).
    { intros v Hv. apply Z.eqb_neq. intros ->. contradiction. }
    unfold _execute_opcode, OP_0, OP_16.
    destruct (Z.leb_spec 0 unknown); [|lia]. destruct (Z.leb_spec unknown 96); [lia|].
    cbn [andb].
    repeat match goal with
    | |- context [unknown =? ?v] =>
        rewrite (Hne v) by (apply (bool_decide_eq_true_1 _); vm_compute; reflexivity)
    end.
    rewrite bool_decide_eq_false_2; [reflexivity|]. intros Hnop. apply Hunknown.
    assert (Hsub : forallb (fun v => bool_decide (v ∈ OpCode_values))
                     [OP_NOP1; OP_NOP4; OP_NOP5; OP_NOP6; OP_NOP7; OP_NOP8; OP_NOP9; OP_NOP10]
                   = true) by (vm_compute; reflexivity).
    rewrite forallb_forall in Hsub.
    apply (bool_decide_eq_true_1 _), Hsub, list_elem_of_In, Hnop.
Qed.

(** C8, at the byte 0x01 and the unused byte 0x62. *)
Lemma C8_witness :
  in_OpCode 0x01 = false /\
  _execute_opcode (new_interpreter None 0) 0x01 =
    Returned (set_stack (new_interpreter None 0)
                (_encode_num (0x01 - OP_1 + 1) :: stack (new_interpreter None 0))) /\
  (0x01 <> 0x50 -> fst (execute (new_interpreter None 0) [Opcode 0x01]) = true) /\
  _execute_opcode (new_interpreter None 0) 0x62 = ScriptError (new_interpreter None 0).
Proof.
  apply (C8_bare_byte_is_pushed (new_interpreter None 0) 0x01 0x62).
  - left. lia.
  - reflexivity.
  - reflexivity.
Defined.

(** *** Further properties of the number codec and the deserializer *)

(** [_decode_num] after [_encode_num] gives back every integer, of any
    size. *)
Theorem decode_encode_any_size (n : Z) : _decode_num (_encode_num n) = n.
Proof. apply decode_encode_num. Qed.

(** The equivalence of [encode_decode_iff] at the one-byte string 0x00,
    which is not in the shortest form and does not come back. *)
Lemma encode_decode_iff_witness :
  _encode_num (_decode_num [0x00]) = [0x00] <-> minimally_encoded [0x00] = true.
Proof. apply (encode_decode_iff [0x00]). repeat constructor; unfold is_byte; lia. Defined.

(** [deserialize_loop_fuel] at a push of one byte. *)
Lemma deserialize_loop_fuel_witness :
  deserialize_loop 3 [0x01; 0xaa] = deserialize_loop 2 [0x01; 0xaa].
Proof. apply (deserialize_loop_fuel 3 [0x01; 0xaa] 2); cbn; lia. Defined.

(** The deserializer does not reject a direct push that is cut short: it
    takes the bytes that are there. *)
Theorem deserialize_truncated_push (n : Z) (rest : bytes) :
  0 <= n < OP_PUSHDATA1 -> (length rest < Z.to_nat n)%nat ->
  deserialize (n :: rest) = Some [Push rest].
Proof.
  intros Hn Hshort. unfold deserialize. cbn [length deserialize_loop].
  destruct (Z.ltb_spec n OP_PUSHDATA1); [|lia].
  rewrite take_ge, drop_ge by lia. destruct (length rest); reflexivity.
Qed.

(** [deserialize_truncated_push] at a push of five bytes of which one is
    there. *)
Lemma deserialize_truncated_push_witness : deserialize [0x05; 0xaa] = Some [Push [0xaa]].
Proof. apply (deserialize_truncated_push 0x05 [0xaa]); [unfold OP_PUSHDATA1; lia|cbn; lia]. Defined.

End ScriptFacts.

(** ** The ledger: signatures, the UTXO set, proof of work *)

Module LedgerFacts.
Import Implementing.

(** *** The UTXO set *)

Lemma total_amount_empty : total_amount ∅ = 0.
Proof. apply map_fold_empty. Qed.

Lemma total_amount_insert (utxos : gmap string TxOutput) key utxo :
  utxos !! key = None ->
  total_amount (<[key := utxo]> utxos) = amount utxo + total_amount utxos.
Proof.
  intros Hnone. unfold total_amount.
  rewrite map_fold_insert_L; [reflexivity| |exact Hnone]. intros; lia.
Qed.

Lemma total_amount_delete (utxos : gmap string TxOutput) key utxo :
  utxos !! key = Some utxo ->
  total_amount (delete key utxos) = total_amount utxos - amount utxo.
Proof.
  intros Hsome. unfold total_amount.
  rewrite (map_fold_delete_L _ _ key utxo utxos); [lia| |exact Hsome]. intros; lia.
Qed.

Lemma total_amount_split (P : string * TxOutput -> Prop) `{!forall x, Decision (P x)}
    (utxos : gmap string TxOutput) :
  total_amount utxos =
    total_amount (filter P utxos) + total_amount (filter (fun x => ~ P x) utxos).
Proof.
  induction utxos as [|key utxo utxos Hnone IH] using map_ind.
  - rewrite !map_filter_empty, total_amount_empty. reflexivity.
  - rewrite total_amount_insert by exact Hnone.
    destruct (decide (P (key, utxo))) as [HP|HP].
    + rewrite map_filter_insert_True by exact HP.
      rewrite (map_filter_insert_not' (fun x => ~ P x)) by (rewrite ?Hnone; naive_solver).
      rewrite total_amount_insert by (apply map_lookup_filter_None; auto). lia.
    + rewrite (map_filter_insert_True (fun x => ~ P x)) by exact HP.
      rewrite (map_filter_insert_not' P) by (rewrite ?Hnone; naive_solver).
      rewrite total_amount_insert by (apply map_lookup_filter_None; auto). lia.
Qed.

Lemma remove_utxo_delete (utxos : gmap string TxOutput) h i :
  remove_utxo utxos h i = delete (utxo_key h i) utxos.
Proof.
  unfold remove_utxo. case_bool_decide as H; [reflexivity|].
  symmetry. apply delete_id. destruct (utxos !! utxo_key h i) eqn:E; [|reflexivity].
  exfalso. apply H. eauto.
Qed.

Lemma remove_spent_filter ins : forall utxos : gmap string TxOutput,
  remove_spent utxos ins = filter (fun entry => ~ fst entry ∈ referenced_keys ins) utxos.
Proof.
  induction ins as [|inp ins IH]; intros utxos.
  - cbn. symmetry. apply map_filter_id. intros ? ? _. unfold referenced_keys. cbn. set_solver.
  - unfold remove_spent in *. cbn [foldl]. rewrite IH. unfold referenced_keys.
    rewrite filter_cons. case_bool_decide as Hc; (destruct (decide _) as [Hc'|Hc']; [|]);
      [|exfalso; tauto|exfalso; congruence|].
    + rewrite remove_utxo_delete. cbn [map list_to_set]. apply map_eq. intros k.
      rewrite !map_lookup_filter. destruct (decide (k = utxo_key (prev_tx_hash inp) (prev_output_index inp))) as [->|Hne].
      * rewrite lookup_delete_eq. cbn. destruct (utxos !! _); [|reflexivity]. cbn.
        rewrite option_guard_False by set_solver. reflexivity.
      * rewrite lookup_delete_ne by congruence. destruct (utxos !! k); [|reflexivity]. cbn.
        apply option_guard_iff. cbn. set_solver.
    + reflexivity.
Qed.

Lemma utxo_key_inj h i j : utxo_key h i = utxo_key h j -> i = j.
Proof.
  unfold utxo_key. intros H. apply String.app_inj in H. apply String.app_inj in H.
  apply (inj pretty) in H. exact H.
Qed.

Lemma add_outputs_lookup_other outs : forall (utxos : gmap string TxOutput) h idx key,
  (forall j, 0 <= j < Z.of_nat (length outs) -> key <> utxo_key h (idx + j)) ->
  add_outputs utxos h idx outs !! key = utxos !! key.
Proof.
  induction outs as [|o outs IH]; intros utxos h idx key Hkey; cbn [add_outputs]; [reflexivity|].
  rewrite IH.
  - unfold add_utxo. apply lookup_insert_ne. specialize (Hkey 0). cbn [length] in Hkey.
    rewrite Z.add_0_r in Hkey. intros E. apply Hkey; [lia|congruence].
  - intros j Hj. replace (idx + 1 + j) with (idx + (1 + j)) by lia. apply Hkey. cbn [length]. lia.
Qed.

Lemma add_outputs_total outs : forall (utxos : gmap string TxOutput) h idx,
  (forall j, 0 <= j < Z.of_nat (length outs) -> utxos !! utxo_key h (idx + j) = None) ->
  total_amount (add_outputs utxos h idx outs) = total_amount utxos + sum_amounts outs.
Proof.
  induction outs as [|o outs IH]; intros utxos h idx Hfresh; cbn [add_outputs sum_amounts foldr].
  - lia.
  - rewrite IH.
    + unfold add_utxo. rewrite total_amount_insert.
      * fold (sum_amounts outs). lia.
      * specialize (Hfresh 0). rewrite Z.add_0_r in Hfresh. apply Hfresh. cbn [length]. lia.
    + intros j Hj. unfold add_utxo. rewrite lookup_insert_ne.
      * replace (idx + 1 + j) with (idx + (1 + j)) by lia. apply Hfresh. cbn [length]. lia.
      * intros E. apply utxo_key_inj in E. lia.
Qed.




(** *** Blocks and mining *)

Lemma pack_le_in_range width x :
  0 <= x < 2 ^ (8 * Z.of_nat width) -> pack_le width x = Some (Word32.to_le width x).
Proof.
  intros [H1 H2]. unfold pack_le.
  destruct (Z.leb_spec 0 x); [|lia]. destruct (Z.ltb_spec x (2 ^ (8 * Z.of_nat width))); [|lia].
  reflexivity.
Qed.

Lemma join_all_some (parts : list bytes) : join (map Some parts) = Some (concat parts).
Proof.
  induction parts as [|p parts IH]; [reflexivity|]. cbn [map join concat]. rewrite IH. reflexivity.
Qed.

Lemma block_hash_set_hash b h : block_hash (set_hash b h) = block_hash b.
Proof. reflexivity. Qed.

Lemma block_hash_packs b n :
  header_packs b -> 0 <= n < 2 ^ 32 -> exists h, block_hash (set_nonce b n) = Some h.
Proof.
  intros (Hi & Ht & Hd) Hn. unfold block_hash, serialize.
  cbn [set_nonce index block_timestamp previous_hash nonce difficulty transactions].
  rewrite !pack_le_in_range by (cbn; lia).
  change [Some ?a; Some ?b; Some ?c; Some ?d; Some ?e] with (map Some [a; b; c; d; e]).
  rewrite <- (map_map (fun tx => ascii_bytes (tx_hash tx)) Some), <- map_app, join_all_some.
  eexists. reflexivity.
Qed.

Lemma block_hash_same_header b b' n :
  same_header b b' -> block_hash (set_nonce b' n) = block_hash (set_nonce b n).
Proof.
  intros (H1 & H2 & H3 & H4 & H5). unfold block_hash, serialize.
  cbn [set_nonce index block_timestamp previous_hash nonce difficulty transactions].
  rewrite H1, H2, H3, H4, H5. reflexivity.
Qed.

Lemma mine_loop_spec fuel : forall attempts b,
  header_packs b -> 0 <= attempts <= attempt_limit ->
  Z.of_nat fuel + attempts = attempt_limit + 1 ->
  exists b',
    mine_loop fuel attempts b = Some b' /\
    same_header b b' /\
    block_hash b' = Some (hash b') /\
    attempts <= nonce b' <= attempt_limit /\
    ((exists n, attempts <= n <= attempt_limit /\ meets_target b n) ->
     startswith (hash b') (zeros (difficulty b')) = true).
Proof.
  unfold attempt_limit.
  induction fuel as [|fuel IH]; intros attempts b Hpack Hpos Hfuel; [lia|].
  cbn [mine_loop].
  destruct (block_hash_packs b attempts Hpack ltac:(lia)) as (h & Hh). rewrite Hh.
  set (b1 := set_hash (set_nonce b attempts) h).
  assert (Hsame : same_header b b1) by (repeat split).
  assert (Hstored : block_hash b1 = Some (hash b1)) by exact Hh.
  destruct (startswith h (zeros (difficulty b1))) eqn:Htarget.
  - exists b1. unfold attempt_limit. repeat split; try assumption; cbn; try lia.
    intros _. exact Htarget.
  - unfold attempt_limit. destruct (Z.ltb_spec 10000000 (attempts + 1)) as [Hcap|Hgo].
    + exists b1. unfold attempt_limit. repeat split; try assumption; cbn; try lia.
      intros (n & Hn & h' & Hh' & Hmeet). assert (n = attempts) by lia. subst n.
      rewrite Hh in Hh'. injection Hh' as <-. cbn in Htarget. congruence.
    + destruct (IH (attempts + 1) b1) as (b' & Hrun & Hsame' & Hstored' & Hnonce & Hfound).
      * destruct Hpack as (? & ? & ?). repeat split; cbn; lia.
      * unfold attempt_limit. lia.
      * lia.
      * exists b'. split; [exact Hrun|].
        destruct Hsame' as (S1 & S2 & S3 & S4 & S5).
        split; [repeat split; cbn in *; congruence|].
        split; [exact Hstored'|]. split; [lia|].
        intros (n & Hn & h' & Hh' & Hmeet). apply Hfound.
        destruct (Z.eq_dec n attempts) as [->|Hne].
        -- rewrite Hh in Hh'. injection Hh' as <-. cbn in Htarget. congruence.
        -- exists n. split; [lia|]. exists h'. split; [|exact Hmeet].
           rewrite <- Hh'. apply (block_hash_same_header b b1 n Hsame).
Qed.

Lemma mine_block_spec b : header_packs b ->
  exists b',
    mine_block b None = Some b' /\
    same_header b b' /\
    block_hash b' = Some (hash b') /\
    0 <= nonce b' <= attempt_limit /\
    ((exists n, 0 <= n <= attempt_limit /\ meets_target b n) ->
     startswith (hash b') (zeros (difficulty b')) = true).
Proof.
  intros Hpack. unfold mine_block. apply mine_loop_spec; [exact Hpack|unfold attempt_limit; lia|].
  rewrite Z2Nat.id by (unfold attempt_limit; lia). lia.
Qed.

Lemma meets_target_same_header b b' n :
  same_header b b' -> meets_target b' n -> meets_target b n.
Proof.
  intros Hsame (h & Hh & Hmeet). exists h.
  rewrite <- (block_hash_same_header b b' n Hsame). split; [exact Hh|].
  destruct Hsame as (_ & _ & _ & _ & <-). exact Hmeet.
Qed.

Lemma new_block_spec idx now txs prev d :
  0 <= idx < 2 ^ 32 -> 0 <= now < 2 ^ 64 -> 0 <= d < 2 ^ 32 ->
  exists b, new_block idx now txs prev d = Some b /\
    header_packs b /\ block_hash b = Some (hash b) /\ nonce b = 0 /\
    index b = idx /\ previous_hash b = prev /\ difficulty b = d /\ transactions b = txs.
Proof.
  intros Hi Hn Hd. unfold new_block.
  set (b0 := mkBlock idx now txs prev 0 EmptyString d).
  assert (Hpack : header_packs b0) by (repeat split; cbn; lia).
  destruct (block_hash_packs b0 0 Hpack ltac:(lia)) as (h & Hh).
  change (set_nonce b0 0) with b0 in Hh. rewrite Hh. cbn [fmap option_fmap option_map].
  exists (set_hash b0 h). repeat split; try (cbn; lia). exact Hh.
Qed.

Lemma create_coinbase_transaction_spec miner height reward now :
  0 <= reward < 2 ^ 64 -> 0 <= now < 2 ^ 32 ->
  exists tx, create_coinbase_transaction miner height reward now = Some tx.
Proof.
  intros Hr Hn. unfold create_coinbase_transaction, new_transaction.
  rewrite bool_decide_eq_true_2 by reflexivity.
  unfold calculate_hash, serialize_for_hashing. cbn [length flat_map app prev_tx_hash
    prev_output_index amount recipient_address].
  rewrite !pack_le_in_range by (cbn; lia).
  match goal with |- context [join ?l] =>
    match l with
    | [Some ?a; Some ?b; Some ?c; Some ?d; Some ?e; Some ?f; Some ?g] =>
        change l with (map Some [a; b; c; d; e; f; g])
    end end.
  rewrite join_all_some. eexists. reflexivity.
Qed.

Lemma bind_some {A B} (f : A -> option B) (x : A) : (Some x ≫= f) = f x.
Proof. reflexivity. Qed.

Lemma mine_pending_transactions_spec (bc : Blockchain) (latest : Block)
    (miner_address : string) (tx_now block_now : Z) :
  get_latest_block bc = Some latest ->
  Z.of_nat (length (chain bc)) < 2 ^ 32 ->
  0 <= chain_difficulty bc < 2 ^ 32 ->
  0 <= mining_reward bc < 2 ^ 64 ->
  0 <= tx_now < 2 ^ 32 -> 0 <= block_now < 2 ^ 64 ->
  exists bc' blk,
    mine_pending_transactions bc miner_address tx_now block_now = Some (bc', blk) /\
    chain bc' = chain bc ++ [blk] /\
    block_hash blk = Some (hash blk) /\
    previous_hash blk = hash latest /\
    difficulty blk = chain_difficulty bc /\
    0 <= nonce blk <= attempt_limit /\
    ((exists n, 0 <= n <= attempt_limit /\ meets_target blk n) ->
     startswith (hash blk) (zeros (difficulty blk)) = true).
Proof.
  intros Hlatest Hlen Hd Hr Htx Hblk.
  unfold mine_pending_transactions.
  destruct (create_coinbase_transaction_spec miner_address (Z.of_nat (length (chain bc)))
              (mining_reward bc) tx_now Hr Htx) as (coinbase & ->).
  rewrite bind_some, Hlatest, bind_some.
  destruct (new_block_spec (Z.of_nat (length (chain bc))) block_now
              ([coinbase] ++ pending_transactions bc) (hash latest) (chain_difficulty bc))
    as (b & -> & Hpack & _ & _ & _ & Hprev & Hdiff & _); [lia|lia|lia|].
  rewrite bind_some.
  destruct (mine_block_spec b Hpack) as (mined & -> & Hsame & Hstored & Hnonce & Hfound).
  rewrite bind_some. eexists _, mined. split; [reflexivity|].
  cbn [chain]. pose proof Hsame as (_ & _ & _ & Hp & Hdf).
  split; [reflexivity|]. split; [exact Hstored|]. split; [congruence|]. split; [congruence|].
  split; [exact Hnonce|].
  intros (n & Hn & Hmeet). apply Hfound. exists n. split; [exact Hn|].
  apply (meets_target_same_header b mined n Hsame Hmeet).
Qed.

Lemma new_blockchain_spec (tx_now block_now : Z) :
  0 <= tx_now < 2 ^ 32 -> 0 <= block_now < 2 ^ 64 ->
  exists bc genesis,
    new_blockchain tx_now block_now = Some bc /\
    chain bc = [genesis] /\
    block_hash genesis = Some (hash genesis) /\
    nonce genesis = 0 /\ difficulty genesis = 4.
Proof.
  intros Htx Hblk. unfold new_blockchain, new_transaction.
  rewrite bool_decide_eq_true_2 by reflexivity.
  assert (Hser : exists data,
    serialize_for_hashing [] [mkTxOutput 10000000000 "genesis"] tx_now = Some data).
  { unfold serialize_for_hashing. cbn [length flat_map app amount recipient_address].
    rewrite !pack_le_in_range by (cbn; lia).
    match goal with |- context [join ?l] =>
      match l with
      | [Some ?a; Some ?b; Some ?c; Some ?d; Some ?e] =>
          change l with (map Some [a; b; c; d; e])
      end end.
    rewrite join_all_some. eexists. reflexivity. }
  destruct Hser as (data & Hser). unfold calculate_hash. rewrite Hser.
  cbn [fmap option_fmap option_map mbind option_bind].
  match goal with |- context [new_block 0 ?now ?txs ?prev 4] =>
    destruct (new_block_spec 0 now txs prev 4) as (g & -> & _ & Hstored & Hnonce & _ & _ & Hdiff & _);
      [lia|lia|lia|] end.
  cbn [mbind option_bind]. eexists _, g. split; [reflexivity|].
  cbn [chain]. repeat split; assumption.
Qed.

Lemma set_nonce_same b : set_nonce b (nonce b) = b.
Proof. destruct b. reflexivity. Qed.

(** C4 (amended): [mine_pending_transactions] appends one block; the hash
    stored in it is the double SHA-256 of its serialization; it has the
    leading zeros of its difficulty exactly when some nonce from 0 to the
    cap of 10,000,000 gives them, and is appended in either case.  The
    genesis block holds the hash of its serialization at nonce 0 and is not
    mined. *)
Theorem C4_stored_hash_and_target (bc : Blockchain) (latest : Block) (miner_address : string)
    (tx_now block_now genesis_tx_now genesis_block_now : Z) :
  get_latest_block bc = Some latest ->
  Z.of_nat (length (chain bc)) < 2 ^ 32 ->
  0 <= chain_difficulty bc < 2 ^ 32 ->
  0 <= mining_reward bc < 2 ^ 64 ->
  0 <= tx_now < 2 ^ 32 -> 0 <= block_now < 2 ^ 64 ->
  0 <= genesis_tx_now < 2 ^ 32 -> 0 <= genesis_block_now < 2 ^ 64 ->
  (exists bc' blk,
     mine_pending_transactions bc miner_address tx_now block_now = Some (bc', blk) /\
     chain bc' = chain bc ++ [blk] /\
     block_hash blk = Some (hash blk) /\
     previous_hash blk = hash latest /\
     difficulty blk = chain_difficulty bc /\
     0 <= nonce blk <= attempt_limit /\
     (startswith (hash blk) (zeros (difficulty blk)) = true <->
      exists n, 0 <= n <= attempt_limit /\ meets_target blk n)) /\
  (exists bc0 genesis,
     new_blockchain genesis_tx_now genesis_block_now = Some bc0 /\
     chain bc0 = [genesis] /\
     block_hash genesis = Some (hash genesis) /\
     nonce genesis = 0 /\ difficulty genesis = 4).
Proof.
  intros Hlatest Hlen Hd Hr Htx Hblk Hgtx Hgblk. split.
  - destruct (mine_pending_transactions_spec bc latest miner_address tx_now block_now)
      as (bc' & blk & Hrun & Hchain & Hstored & Hprev & Hdiff & Hnonce & Hfound); try assumption.
    exists bc', blk. repeat (split; [assumption|]). split; [|exact Hfound].
    intros Hzeros. exists (nonce blk). split; [exact Hnonce|].
    exists (hash blk). rewrite set_nonce_same. split; assumption.
  - apply new_blockchain_spec; assumption.
Qed.

(** C4, at a chain of one block. *)
Lemma C4_witness :
  let first := mkBlock 0 1700000000 [] zero_hash 0 "00" 4 in
  let bc := mkBlockchain [first] [] ∅ 4 5000000000 in
  (exists bc' blk,
     mine_pending_transactions bc "miner" 1700000600 1700000600 = Some (bc', blk) /\
     chain bc' = chain bc ++ [blk] /\
     block_hash blk = Some (hash blk) /\
     previous_hash blk = hash first /\
     difficulty blk = chain_difficulty bc /\
     0 <= nonce blk <= attempt_limit /\
     (startswith (hash blk) (zeros (difficulty blk)) = true <->
      exists n, 0 <= n <= attempt_limit /\ meets_target blk n)) /\
  (exists bc0 genesis,
     new_blockchain 1700000000 1700000000 = Some bc0 /\
     chain bc0 = [genesis] /\
     block_hash genesis = Some (hash genesis) /\
     nonce genesis = 0 /\ difficulty genesis = 4).
Proof.
  apply (C4_stored_hash_and_target
           (mkBlockchain [mkBlock 0 1700000000 [] zero_hash 0 "00" 4] [] ∅ 4 5000000000)
           (mkBlock 0 1700000000 [] zero_hash 0 "00" 4) "miner"
           1700000600 1700000600 1700000000 1700000000).
  - reflexivity.
  - reflexivity.
  - split; [discriminate|reflexivity].
  - split; [discriminate|reflexivity].
  - split; [discriminate|reflexivity].
  - split; [discriminate|reflexivity].
  - split; [discriminate|reflexivity].
  - split; [discriminate|reflexivity].
Defined.

(** C4 fails as stated: the genesis block of a chain created at time
    1700000000 stores the hash of its serialization, and that hash does not
    start with the four zeros of its difficulty. *)
Lemma C4_counterexample :
  let genesis := new_blockchain 1700000000 1700000000 ≫= get_latest_block in
  hash <$> genesis
    = Some "ebfff32a9c660ba7b1edaa93cff477e764bf7801e20f38913ea6e865e6b682ff"%string /\
  genesis ≫= block_hash
    = Some "ebfff32a9c660ba7b1edaa93cff477e764bf7801e20f38913ea6e865e6b682ff"%string /\
  difficulty <$> genesis = Some 4 /\
  (fun b => startswith (hash b) (zeros (difficulty b))) <$> genesis = Some false.
Proof. vm_compute. repeat split; reflexivity. Qed.

(** *** Signatures *)

Lemma verify_with_pubkey_spec public_key message signature :
  verify_with_pubkey public_key message signature = true <-> length signature = 32%nat.
Proof. unfold verify_with_pubkey. apply Nat.eqb_eq. Qed.


(** C1 (amended): both public-key verifiers answer from lengths alone:
    [verify_signature] accepts exactly a 32-byte signature with a 32-byte
    key, [Wallet.verify_with_pubkey] exactly a 32-byte signature.  So a
    signature made by [sign] with the private key of the public key is
    accepted, and so is every other 32-byte string. *)
Theorem C1_verify_checks_lengths (pubkey message signature private_key : bytes) :
  (BitcoinScripts.verify_signature pubkey message signature = true <->
     length signature = 32%nat /\ length pubkey = 32%nat) /\
  (verify_with_pubkey pubkey message signature = true <->
     length signature = 32%nat) /\
  BitcoinScripts.verify_signature (BitcoinScripts.public_key_of private_key) message
    (BitcoinScripts.sign_message private_key message) = true /\
  verify_with_pubkey (public_key (new_wallet private_key)) message
    (sign (new_wallet private_key) message) = true.
Proof.
  split; [apply ScriptFacts.verify_signature_spec|].
  split; [apply verify_with_pubkey_spec|]. split.
  - apply ScriptFacts.verify_signature_spec.
    split; [apply HashFacts.hmac_sha256_length|apply HashFacts.sha256_length].
  - apply verify_with_pubkey_spec, HashFacts.hmac_sha256_length.
Qed.

(** C1 fails as stated: a signature of 32 zero bytes, the signature of
    another key, and a signature over another message are all accepted. *)
Lemma C1_counterexample :
  let private_key := replicate 32 0x11 in
  let public_key := BitcoinScripts.public_key_of private_key in
  let message := ascii_bytes "msg" in
  let signed := BitcoinScripts.sign_message private_key message in
  let forged := replicate 32 0x00 in
  let other := BitcoinScripts.sign_message (replicate 32 0x22) message in
  BitcoinScripts.verify_signature public_key message forged = true /\
  verify_with_pubkey public_key message forged = true /\
  forged <> signed /\
  BitcoinScripts.verify_signature public_key message other = true /\
  verify_with_pubkey public_key message other = true /\
  other <> signed /\
  BitcoinScripts.verify_signature public_key (ascii_bytes "another message") signed = true /\
  verify_with_pubkey public_key (ascii_bytes "another message") signed = true /\
  signed <> BitcoinScripts.sign_message private_key (ascii_bytes "another message").
Proof. vm_compute. repeat split; try reflexivity; discriminate. Qed.

(** *** Chain validation *)

Lemma default_last_cons {A} (a b : A) l : default a (last (b :: l)) = default b (last l).
Proof. rewrite last_cons. destruct (last l); reflexivity. Qed.

Lemma chain_checks_snoc rest : forall previous blk,
  chain_checks previous rest = Some true ->
  chain_checks previous (rest ++ [blk])
    = block_checks (default previous (last rest)) blk.
Proof.
  induction rest as [|current rest IH]; intros previous blk Hok; cbn [app chain_checks].
  - cbn [last default]. destruct (block_checks previous blk) as [[|]|]; reflexivity.
  - cbn [chain_checks] in Hok.
    destruct (block_checks previous current) as [[|]|]; cbn [mbind option_bind] in *;
      try discriminate.
    rewrite (IH current blk Hok), default_last_cons. reflexivity.
Qed.

(** A chain that validates, extended by [mine_pending_transactions],
    validates exactly when the new block's hash meets its target: a block
    appended at the attempt limit makes [is_chain_valid] return false. *)
Theorem mined_chain_validity (bc : Blockchain) (latest : Block) (miner_address : string)
    (tx_now block_now : Z) :
  get_latest_block bc = Some latest ->
  Z.of_nat (length (chain bc)) < 2 ^ 32 ->
  0 <= chain_difficulty bc < 2 ^ 32 ->
  0 <= mining_reward bc < 2 ^ 64 ->
  0 <= tx_now < 2 ^ 32 -> 0 <= block_now < 2 ^ 64 ->
  is_chain_valid bc = Some true ->
  exists bc' blk,
    mine_pending_transactions bc miner_address tx_now block_now = Some (bc', blk) /\
    is_chain_valid bc' = Some (startswith (hash blk) (zeros (difficulty blk))).
Proof.
  intros Hlatest Hlen Hd Hr Htx Hblk Hvalid.
  destruct (mine_pending_transactions_spec bc latest miner_address tx_now block_now)
    as (bc' & blk & Hrun & Hchain & Hstored & Hprev & _); try assumption.
  exists bc', blk. split; [exact Hrun|].
  unfold is_chain_valid, get_latest_block in *. rewrite Hchain.
  destruct (chain bc) as [|genesis rest]; [discriminate|]. cbn [app].
  rewrite (chain_checks_snoc rest genesis blk Hvalid).
  rewrite <- (default_last_cons genesis genesis rest), Hlatest. cbn [default]. unfold block_checks. rewrite Hstored. cbn [mbind option_bind].
  rewrite !bool_decide_eq_true_2 by (reflexivity || assumption). reflexivity.
Qed.

(** [mined_chain_validity] at a chain of one block. *)
Lemma mined_chain_validity_witness :
  let first := mkBlock 0 1700000000 [] zero_hash 0 "00" 4 in
  let bc := mkBlockchain [first] [] ∅ 4 5000000000 in
  exists bc' blk,
    mine_pending_transactions bc "miner" 1700000600 1700000600 = Some (bc', blk) /\
    is_chain_valid bc' = Some (startswith (hash blk) (zeros (difficulty blk))).
Proof.
  apply (mined_chain_validity
           (mkBlockchain [mkBlock 0 1700000000 [] zero_hash 0 "00" 4] [] ∅ 4 5000000000)
           (mkBlock 0 1700000000 [] zero_hash 0 "00" 4) "miner" 1700000600 1700000600).
  - reflexivity.
  - reflexivity.
  - split; [discriminate|reflexivity].
  - split; [discriminate|reflexivity].
  - split; [discriminate|reflexivity].
  - split; [discriminate|reflexivity].
  - reflexivity.
Defined.

End LedgerFacts.

(** ** The mempool and the selection strategies *)

Module SelectionFacts.
Import Prioritization.

(** *** Dictionaries *)

Lemma dict_get_Some_In {V} k (v : V) d : dict_get k d = Some v -> In (k, v) d.
Proof.
  induction d as [|[k' v'] d IH]; cbn [dict_get]; [discriminate|].
  case_bool_decide as E; [intros [= <-]; subst; left; reflexivity|intros H; right; auto].
Qed.

Lemma dict_get_In {V} k (v : V) d : NoDup (dict_keys d) -> In (k, v) d -> dict_get k d = Some v.
Proof.
  induction d as [|[k' v'] d IH]; cbn [dict_get dict_keys map fst]; [intros _ []|].
  intros Hnd [Hin|Hin].
  - injection Hin as -> ->. rewrite bool_decide_eq_true_2 by reflexivity. reflexivity.
  - apply NoDup_cons in Hnd as [Hnot Hnd]. case_bool_decide as E.
    + subst k'. exfalso. apply Hnot. apply list_elem_of_In, in_map_iff. exists (k, v). auto.
    + apply IH; assumption.
Qed.

Lemma wf_get_value pool tx : mempool_wf pool -> In tx (get_all_transactions pool) ->
  dict_get (tx_id tx) pool = Some tx.
Proof.
  intros [Hnd Hkey] Hin. unfold get_all_transactions, dict_values in Hin.
  apply in_map_iff in Hin as ([k v] & <- & Hin). cbn [snd].
  rewrite Forall_forall in Hkey. specialize (Hkey (k, v) ltac:(apply list_elem_of_In; exact Hin)).
  cbn in Hkey. rewrite Hkey. apply dict_get_In; assumption.
Qed.

Lemma wf_get_id pool id tx : mempool_wf pool -> dict_get id pool = Some tx -> tx_id tx = id.
Proof.
  intros [_ Hkey] Hget. apply dict_get_Some_In in Hget.
  rewrite Forall_forall in Hkey. apply (Hkey (id, tx)). apply list_elem_of_In. exact Hget.
Qed.

(** *** Sums over selections *)

Lemma sum_over_app pool key l1 l2 a b :
  sum_over pool key l1 = Some a -> sum_over pool key l2 = Some b ->
  sum_over pool key (l1 ++ l2) = Some (a + b).
Proof.
  revert a. induction l1 as [|id l1 IH]; intros a H1 H2; cbn [app sum_over] in *.
  - injection H1 as <-. rewrite H2. f_equal. 
  - destruct (dict_get id pool) as [tx|]; [|discriminate]. cbn [mbind option_bind] in *.
    destruct (sum_over pool key l1) as [t|]; [|discriminate]. cbn [mbind option_bind] in *.
    injection H1 as <-. rewrite (IH t eq_refl H2). cbn. f_equal. lia.
Qed.

Lemma sum_over_perm pool key l1 l2 : Permutation l1 l2 ->
  sum_over pool key l1 = sum_over pool key l2.
Proof.
  induction 1 as [|x l l' _ IH|x y l|l l' l'' _ IH1 _ IH2]; cbn [sum_over].
  - reflexivity.
  - rewrite IH. reflexivity.
  - destruct (dict_get y pool), (dict_get x pool); cbn; try reflexivity.
    destruct (sum_over pool key l); cbn; [f_equal; lia|reflexivity].
  - congruence.
Qed.

Lemma sum_over_returns pool key l :
  (forall id, In id l -> is_Some (dict_get id pool)) -> is_Some (sum_over pool key l).
Proof.
  induction l as [|id l IH]; intros H; cbn [sum_over]; [eauto|].
  destruct (H id ltac:(left; reflexivity)) as [tx ->]. cbn [mbind option_bind].
  destruct IH as [t ->]; [intros; apply H; right; assumption|]. cbn. eauto.
Qed.

Lemma sum_over_pooled pool key l total :
  sum_over pool key l = Some total -> forall id, In id l -> is_Some (dict_get id pool).
Proof.
  revert total. induction l as [|x l IH]; intros total H id Hin; [destruct Hin|].
  cbn [sum_over] in H. destruct (dict_get x pool) as [tx|] eqn:Hget; [|discriminate].
  cbn [mbind option_bind] in H. destruct (sum_over pool key l) as [t|]; [|discriminate].
  destruct Hin as [<-|Hin]; [rewrite Hget; eauto|]. eapply IH; [reflexivity|exact Hin].
Qed.

Lemma dict_get_keys {V} k (d : list (string * V)) : is_Some (dict_get k d) <-> k ∈ dict_keys d.
Proof.
  induction d as [|[k' v] d IH]; cbn [dict_get dict_keys map fst].
  - split; [intros [? ?]; discriminate|intros H; inversion H].
  - change (map fst d) with (dict_keys d). case_bool_decide as E.
    + subst. split; [intros _; left|eauto].
    + rewrite IH. split; [intros H; right; exact H|].
      intros H. apply elem_of_cons in H as [?|?]; [contradiction|assumption].
Qed.

(** *** Sorting *)

Lemma insert_desc_perm {A} (key : A -> ratio) x l : Permutation (insert_desc key x l) (x :: l).
Proof.
  induction l as [|y l IH]; cbn [insert_desc]; [reflexivity|].
  destruct (ratio_lt (key x) (key y)); [|reflexivity].
  rewrite IH. apply perm_swap.
Qed.

Lemma sorted_exact_perm (A : Type) (key : A -> ratio) (l : list A) :
  Permutation (sorted_exact A key l) l.
Proof.
  induction l as [|x l IH]; cbn [sorted_exact foldr]; [reflexivity|].
  rewrite insert_desc_perm. apply perm_skip. exact IH.
Qed.

(** *** Well-formed pools *)

Lemma dict_set_keys {V} k (v : V) d :
  dict_keys (dict_set k v d) = if bool_decide (k ∈ dict_keys d) then dict_keys d
                               else dict_keys d ++ [k].
Proof.
  induction d as [|[k' v'] d IH]; cbn [dict_set dict_keys map fst].
  - rewrite bool_decide_eq_false_2 by (apply not_elem_of_nil). reflexivity.
  - change (map fst d) with (dict_keys d).
    destruct (decide (k = k')) as [E|E].
    + rewrite (bool_decide_eq_true_2 (k = k')) by exact E.
      rewrite bool_decide_eq_true_2 by (apply elem_of_cons; left; exact E).
      cbn [map fst]. rewrite E. reflexivity.
    + rewrite (bool_decide_eq_false_2 (k = k')) by exact E.
      cbn [map fst]. change (map fst (dict_set k v d)) with (dict_keys (dict_set k v d)).
      rewrite IH. destruct (decide (k ∈ dict_keys d)) as [Hin|Hin].
      * rewrite (bool_decide_eq_true_2 (k ∈ dict_keys d)) by exact Hin.
        rewrite bool_decide_eq_true_2 by (apply elem_of_cons; right; exact Hin). reflexivity.
      * rewrite (bool_decide_eq_false_2 (k ∈ dict_keys d)) by exact Hin.
        rewrite bool_decide_eq_false_2; [reflexivity|].
        intros H. apply elem_of_cons in H as [?|?]; [congruence|contradiction].
Qed.

Lemma dict_set_entries {V} k (v : V) d (P : string * V -> Prop) :
  Forall P d -> P (k, v) -> Forall P (dict_set k v d).
Proof.
  intros Hd Hkv. induction Hd as [|[k' v'] d Hx Hd IH]; cbn [dict_set]; [repeat constructor; exact Hkv|].
  case_bool_decide; constructor; assumption.
Qed.

Lemma dict_set_wf k tx pool : mempool_wf pool -> tx_id tx = k -> mempool_wf (dict_set k tx pool).
Proof.
  intros [Hnd Hkey] Hid. split.
  - rewrite dict_set_keys. case_bool_decide as Hin; [exact Hnd|].
    apply NoDup_app. split; [exact Hnd|]. split; [|apply NoDup_singleton].
    intros x Hx Hx'. apply list_elem_of_singleton in Hx'. subst x.
    apply Hin, Hx.
  - apply dict_set_entries; [exact Hkey|exact Hid].
Qed.

Lemma update_entry_wf f pool key :
  (forall tx, tx_id (f tx) = tx_id tx) -> mempool_wf pool -> mempool_wf (update_entry f pool key).
Proof.
  intros Hf Hwf. unfold update_entry. destruct (dict_get key pool) as [tx|] eqn:Hget; [|exact Hwf].
  apply dict_set_wf; [exact Hwf|]. rewrite Hf. eapply wf_get_id; eassumption.
Qed.

Lemma update_entries_wf f keys : forall pool,
  (forall tx, tx_id (f tx) = tx_id tx) -> mempool_wf pool ->
  mempool_wf (foldl (update_entry f) pool keys).
Proof.
  induction keys as [|k keys IH]; intros pool Hf Hwf; cbn [foldl]; [exact Hwf|].
  apply IH; [exact Hf|]. apply update_entry_wf; assumption.
Qed.

Lemma dict_del_wf k pool : mempool_wf pool -> mempool_wf (dict_del k pool).
Proof.
  intros [Hnd Hkey]. induction pool as [|[k' v'] pool IH]; cbn [dict_del]; [split; constructor|].
  cbn [dict_keys map fst] in Hnd. apply NoDup_cons in Hnd as [Hnot Hnd].
  apply Forall_cons in Hkey as [Hk Hkey]. specialize (IH Hnd Hkey).
  case_bool_decide; [exact IH|]. destruct IH as [IHnd IHkey]. split.
  - cbn [dict_keys map fst]. apply NoDup_cons. split; [|exact IHnd].
    intros Hin. apply Hnot. clear -Hin. unfold dict_keys in *.
    apply list_elem_of_In in Hin. apply list_elem_of_In.
    induction pool as [|[k2 v2] pool IH]; [exact Hin|]. cbn [dict_del] in Hin.
    case_bool_decide; [right; auto|]. destruct Hin as [Hin|Hin]; [left; exact Hin|right; auto].
  - constructor; assumption.
Qed.

Lemma empty_mempool_wf : mempool_wf [].
Proof. split; constructor. Qed.

Lemma add_transaction_wf pool tx : mempool_wf pool -> mempool_wf (add_transaction pool tx).
Proof.
  intros Hwf. unfold add_transaction. apply update_entries_wf; [reflexivity|].
  apply dict_set_wf; [exact Hwf|reflexivity].
Qed.

Lemma remove_transaction_wf pool id : mempool_wf pool -> mempool_wf (remove_transaction pool id).
Proof.
  intros Hwf. unfold remove_transaction. destruct (dict_get id pool); [|exact Hwf].
  apply dict_del_wf, update_entries_wf; [reflexivity|].
  apply update_entries_wf; [reflexivity|exact Hwf].
Qed.

(** *** Greedy selection *)

Section Greedy.
Variable sorted_desc : forall A : Type, (A -> ratio) -> list A -> list A.
Hypothesis sorted_desc_perm : forall A key l, Permutation (sorted_desc A key l) l.
Variable pool : Mempool.
Variable max_block_size : Z.
Hypothesis pool_wf : mempool_wf pool.
Hypothesis budget_nonneg : 0 <= max_block_size.

Lemma greedy_step_inv state tx :
  greedy_inv pool max_block_size state -> dict_get (tx_id tx) pool = Some tx ->
  (let '(selected, _, _, _) := state in ~ In (tx_id tx) selected) ->
  greedy_inv pool max_block_size (greedy_step max_block_size state tx).
Proof.
  destruct state as [[[selected ids] cs] tf]. intros (Hids & Hsum & Hle & Hcl & Hnd) Hget Hfresh.
  unfold greedy_step. case_bool_decide as Hsub; cbn [negb]; [|repeat split; assumption].
  destruct (Z.leb_spec (cs + size tx) max_block_size) as [Hfit|Hno]; [|repeat split; assumption].
  repeat split.
  - rewrite list_to_set_app_L, Hids. cbn. set_solver.
  - apply sum_over_app; [exact Hsum|]. cbn [sum_over]. rewrite Hget. cbn. f_equal. lia.
  - exact Hfit.
  - intros id tx' p Hin Hget' Hp. apply in_app_iff. apply in_app_iff in Hin as [Hin|[<-|[]]].
    + left. eapply Hcl; eassumption.
    + left. rewrite Hget in Hget'. injection Hget' as <-.
      assert (p ∈ ids) as Hp' by set_solver. rewrite Hids in Hp'.
      apply elem_of_list_to_set, list_elem_of_In in Hp'. exact Hp'.
  - apply NoDup_app. split; [exact Hnd|]. split; [|apply NoDup_singleton].
    intros x Hx Hx'. apply list_elem_of_singleton in Hx'. subst x.
    apply Hfresh, list_elem_of_In. exact Hx.
Qed.

Lemma greedy_step_selected state tx id :
  In id (fst (fst (fst (greedy_step max_block_size state tx)))) ->
  In id (fst (fst (fst state))) \/ id = tx_id tx.
Proof.
  destruct state as [[[selected ids] cs] tf]. unfold greedy_step.
  destruct (negb _); [auto|]. destruct (_ <=? _); [|auto]. cbn [fst].
  intros H. apply in_app_iff in H as [H|[H|[]]]; auto.
Qed.

Lemma greedy_loop_inv txs : forall state,
  greedy_inv pool max_block_size state ->
  (forall tx, In tx txs -> dict_get (tx_id tx) pool = Some tx) ->
  NoDup (map tx_id txs) ->
  (forall id, In id (fst (fst (fst state))) -> ~ In id (map tx_id txs)) ->
  greedy_inv pool max_block_size (foldl (greedy_step max_block_size) state txs).
Proof.
  induction txs as [|tx txs IH]; intros state Hinv Hget Hnd Hfresh; cbn [foldl]; [exact Hinv|].
  apply NoDup_cons in Hnd as [Hnot Hnd]. apply IH.
  - apply greedy_step_inv; [exact Hinv|apply Hget; left; reflexivity|].
    destruct state as [[[selected ids] cs] tf]. intros Hin.
    apply (Hfresh _ Hin). left. reflexivity.
  - intros tx' Hin. apply Hget. right. exact Hin.
  - exact Hnd.
  - intros id Hin Hin'. apply greedy_step_selected in Hin as [Hin| ->].
    + apply (Hfresh _ Hin). right. exact Hin'.
    + apply Hnot, list_elem_of_In. exact Hin'.
Qed.

Lemma values_ids_NoDup : NoDup (map tx_id (get_all_transactions pool)).
Proof.
  destruct pool_wf as [Hnd Hkey]. unfold get_all_transactions, dict_values.
  rewrite map_map. replace (map (fun x => tx_id (snd x)) pool) with (dict_keys pool); [exact Hnd|].
  unfold dict_keys. apply map_ext_in. intros entry Hin.
  rewrite Forall_forall in Hkey. symmetry. apply Hkey, list_elem_of_In, Hin.
Qed.

Lemma greedy_selection_spec :
  let '(selected, total_fee, total_size) := greedy_selection sorted_desc pool max_block_size in
  sum_over pool size selected = Some total_size /\
  total_size <= max_block_size /\
  parents_selected pool selected /\
  NoDup selected.
Proof.
  unfold greedy_selection.
  pose proof (sorted_desc_perm _ fee_per_byte (get_all_transactions pool)) as Hperm.
  pose proof (greedy_loop_inv (sorted_desc _ fee_per_byte (get_all_transactions pool))
                ([], ∅, 0, 0)) as Hloop.
  destruct (foldl _ _ _) as [[[selected ids] cs] tf].
  destruct Hloop as (_ & Hsum & Hle & Hcl & Hnd).
  - repeat split; try assumption; try reflexivity.
    + intros id tx p []. 
    + constructor.
  - intros tx Hin. apply wf_get_value; [exact pool_wf|].
    eapply Permutation_in; eassumption.
  - rewrite (Permutation_map tx_id Hperm). apply values_ids_NoDup.
  - intros id [].
  - repeat split; assumption.
Qed.

End Greedy.

(** *** The knapsack table *)

Lemma py_index_in_range {A} (l : list A) i :
  0 <= i < Z.of_nat (length l) -> exists x, py_index l i = Some x /\ l !! Z.to_nat i = Some x.
Proof.
  intros Hi. unfold py_index.
  destruct (Z.leb_spec 0 i); [|lia]. destruct (Z.ltb_spec i (Z.of_nat (length l))); [|lia].
  cbn [andb]. destruct (lookup_lt_is_Some_2 l (Z.to_nat i) ltac:(lia)) as [x Hx].
  exists x. auto.
Qed.

Section Knapsack.
Variable max_size_scaled : Z.
Hypothesis scaled_nonneg : 0 <= max_size_scaled.

Lemma fill_cell_ok prev tx w :
  length prev = row_length max_size_scaled -> 0 <= size tx -> 0 <= w <= max_size_scaled ->
  exists here above, fill_cell prev tx w = Some here /\ py_index prev w = Some above /\
    (here <> above -> size tx / scale <= w).
Proof.
  intros Hlen Hsize Hw. unfold fill_cell, row_length in *.
  destruct (py_index_in_range prev w ltac:(lia)) as (above & Habove & _).
  rewrite Habove. cbn [mbind option_bind].
  assert (Hs : 0 <= size tx / scale) by (apply Z.div_pos; unfold scale; lia).
  destruct (Z.leb_spec (size tx / scale) w) as [Hfit|Hno].
  - destruct (py_index_in_range prev (w - size tx / scale) ltac:(lia)) as (t & Ht & _).
    rewrite Ht. cbn [mbind option_bind]. eexists _, above. repeat split; auto.
  - exists above, above. repeat split; auto. intros H; contradiction.
Qed.

Lemma fill_row_ok prev tx :
  length prev = row_length max_size_scaled -> 0 <= size tx ->
  exists row, mapM (fill_cell prev tx) (range (max_size_scaled + 1)) = Some row /\
    step_ok max_size_scaled (tx, row, prev).
Proof.
  intros Hlen Hsize.
  assert (Hsome : is_Some (mapM (fill_cell prev tx) (range (max_size_scaled + 1)))).
  { apply mapM_is_Some, Forall_forall. intros w Hw. unfold range in Hw.
    apply elem_of_seqZ in Hw.
    destruct (fill_cell_ok prev tx w Hlen Hsize ltac:(lia)) as (h & _ & Hcell & _).
    unfold compose. rewrite Hcell. eauto. }
  destruct Hsome as [row Hrow]. exists row. split; [exact Hrow|].
  pose proof (length_mapM _ _ _ Hrow) as Hl. unfold range in Hl. rewrite length_seqZ in Hl.
  split; [unfold row_length; lia|]. split; [exact Hlen|].
  intros w Hw. destruct (fill_cell_ok prev tx w Hlen Hsize Hw) as (here & above & Hcell & Habove & Hfit).
  exists here, above. split; [|auto].
  apply mapM_Some_1 in Hrow.
  assert (Hlook : range (max_size_scaled + 1) !! Z.to_nat w = Some w).
  { unfold range. rewrite lookup_seqZ. split; lia. }
  destruct (Forall2_lookup_l _ _ _ _ _ Hrow Hlook) as (y & Hy & Hfy).
  rewrite Hcell in Hfy. injection Hfy as <-.
  unfold py_index. destruct (Z.leb_spec 0 w); [|lia].
  destruct (Z.ltb_spec w (Z.of_nat (length row))); [|unfold row_length in *; lia]. exact Hy.
Qed.

Lemma fill_rows_ok txs : forall prev,
  length prev = row_length max_size_scaled -> Forall (fun tx => 0 <= size tx) txs ->
  exists rows, fill_rows max_size_scaled prev txs = Some rows /\
    length rows = length txs /\
    Forall (step_ok max_size_scaled) (zip (zip txs rows) (prev :: rows)) /\
    Forall (fun row => length row = row_length max_size_scaled) rows.
Proof.
  induction txs as [|tx txs IH]; intros prev Hlen Hsizes; cbn [fill_rows].
  - exists []. repeat split; constructor.
  - apply Forall_cons in Hsizes as [Hsize Hsizes].
    destruct (fill_row_ok prev tx Hlen Hsize) as (row & -> & Hstep). cbn [mbind option_bind].
    pose proof Hstep as (Hrl & _).
    destruct (IH row Hrl Hsizes) as (rows & -> & Hlr & Hsteps & Hlens). cbn [mbind option_bind].
    exists (row :: rows). split; [reflexivity|]. split; [cbn; lia|]. split.
    + cbn [zip zip_with]. constructor; assumption.
    + constructor; assumption.
Qed.

Lemma backtrack_ok steps : forall w selected total_size,
  Forall (step_ok max_size_scaled) steps -> Forall (fun step => 0 <= size (fst (fst step))) steps ->
  0 <= w <= max_size_scaled ->
  exists chosen,
    backtrack steps w selected total_size
      = Some (selected ++ map tx_id chosen, total_size + size_total chosen) /\
    scaled_total chosen <= w /\
    (forall tx, In tx chosen -> In tx (map (fun step => fst (fst step)) steps)).
Proof.
  induction steps as [|[[tx row] prev] steps IH]; intros w selected total_size Hsteps Hsizes Hw.
  - exists []. cbn. rewrite app_nil_r, Z.add_0_r. repeat split; [lia|]. intros tx [].
  - apply Forall_cons in Hsteps as [Hstep Hsteps]. apply Forall_cons in Hsizes as [Hsize Hsizes].
    cbn [fst] in Hsize. destruct Hstep as (_ & _ & Hcells).
    destruct (Hcells w Hw) as (here & above & Hhere & Habove & Hfit).
    cbn [backtrack]. rewrite Hhere, Habove. cbn [mbind option_bind].
    assert (Hs : 0 <= size tx / scale) by (apply Z.div_pos; unfold scale; lia).
    destruct (Z.eqb_spec here above) as [Heq|Hne]; cbn [negb].
    + destruct (IH w selected total_size Hsteps Hsizes Hw) as (chosen & Hrun & Hsum & Hin).
      exists chosen. split; [exact Hrun|]. split; [exact Hsum|].
      intros tx' Htx'. right. apply Hin, Htx'.
    + specialize (Hfit Hne).
      destruct (IH (w - size tx / scale) (selected ++ [tx_id tx]) (total_size + size tx)
                  Hsteps Hsizes ltac:(lia)) as (chosen & Hrun & Hsum & Hin).
      exists (tx :: chosen). split.
      * rewrite Hrun. cbn [map size_total foldr]. rewrite <- app_assoc. cbn [app].
        f_equal. f_equal. fold (size_total chosen). lia.
      * split; [cbn [scaled_total foldr]; fold (scaled_total chosen); lia|].
        intros tx' [<-|Htx']; [left; reflexivity|right; apply Hin, Htx'].
Qed.

End Knapsack.

Section KnapsackSelection.
Variable sorted_desc : forall A : Type, (A -> ratio) -> list A -> list A.
Hypothesis sorted_desc_perm : forall A key l, Permutation (sorted_desc A key l) l.
Variable pool : Mempool.
Variable max_block_size : Z.
Hypothesis pool_wf : mempool_wf pool.
Hypothesis budget_nonneg : 0 <= max_block_size.
Hypothesis sizes_nonneg : Forall (fun tx => 0 <= size tx) (get_all_transactions pool).

Lemma sum_over_chosen key (chosen : list MempoolTransaction) :
  (forall tx, In tx chosen -> In tx (get_all_transactions pool)) ->
  sum_over pool key (map tx_id chosen) = Some (foldr (fun tx acc => key tx + acc) 0 chosen).
Proof.
  induction chosen as [|tx chosen IH]; intros Hin; [reflexivity|].
  cbn [map sum_over foldr]. rewrite (wf_get_value pool tx pool_wf) by (apply Hin; left; reflexivity).
  cbn [mbind option_bind]. rewrite IH by (intros tx' H'; apply Hin; right; exact H').
  reflexivity.
Qed.

Lemma dp_knapsack_selection_spec :
  exists selected total_fee total_size scaled,
    dp_knapsack_selection sorted_desc pool max_block_size
      = Some (selected, total_fee, total_size) /\
    sum_over pool size selected = Some total_size /\
    sum_over pool (fun tx => size tx / scale) selected = Some scaled /\
    scaled <= max_block_size / scale /\
    (forall id tx, In id selected -> dict_get id pool = Some tx -> parents tx = ∅).
Proof.
  unfold dp_knapsack_selection.
  set (candidates := filter (fun tx => parents tx = ∅) (get_all_transactions pool)).
  set (all_txs := if (100 <? length candidates)%nat
                  then take 100 (sorted_desc _ fee_per_byte candidates) else candidates).
  assert (Hcand : forall tx, In tx all_txs ->
            In tx (get_all_transactions pool) /\ parents tx = ∅).
  { intros tx Hin. assert (Hc : In tx candidates).
    { unfold all_txs in Hin. destruct (100 <? length candidates)%nat; [|exact Hin].
      apply list_elem_of_In, elem_of_take in Hin as (i & Hi & _).
      apply list_elem_of_lookup_2, list_elem_of_In in Hi.
      eapply Permutation_in; [apply sorted_desc_perm|exact Hi]. }
    apply list_elem_of_In, list_elem_of_filter in Hc as [Hp Hc].
    split; [apply list_elem_of_In; exact Hc|exact Hp]. }
  assert (Hw : 0 <= max_block_size / scale) by (apply Z.div_pos; unfold scale; lia).
  assert (Hsizes : Forall (fun tx => 0 <= size tx) all_txs).
  { apply Forall_forall. intros tx Hin. rewrite Forall_forall in sizes_nonneg.
    apply sizes_nonneg, list_elem_of_In, Hcand, list_elem_of_In, Hin. }
  set (W := max_block_size / scale) in *.
  set (row0 := replicate (Z.to_nat (W + 1)) 0).
  assert (Hrow0 : length row0 = row_length W) by apply length_replicate.
  destruct (fill_rows_ok W Hw all_txs row0 Hrow0 Hsizes) as (rows & -> & Hlr & Hsteps & Hlens).
  cbn [mbind option_bind].
  destruct (backtrack_ok W (reverse (zip (zip all_txs rows) (row0 :: rows))) W [] 0)
    as (chosen & -> & Hscaled & Hchosen).
  { apply Forall_reverse. exact Hsteps. }
  { apply Forall_reverse, Forall_forall. intros [[tx row] prev] Hin. cbn [fst].
    apply elem_of_zip_l, elem_of_zip_l in Hin. rewrite Forall_forall in Hsizes. auto. }
  { lia. }
  cbn [mbind option_bind app].
  assert (Hlast : exists last_row, last (row0 :: rows) = Some last_row /\
                    length last_row = row_length W).
  { destruct rows as [|r rows'] using rev_ind.
    - exists row0. auto.
    - exists r. rewrite app_comm_cons, last_snoc. split; [reflexivity|].
      apply Forall_app in Hlens as [_ Hr]. inversion Hr; assumption. }
  destruct Hlast as (last_row & -> & Hll). cbn [mbind option_bind].
  destruct (py_index_in_range last_row W ltac:(unfold row_length in Hll; lia)) as (fee_ & -> & _).
  cbn [mbind option_bind].
  assert (Hin_pool : forall tx, In tx chosen -> In tx (get_all_transactions pool) /\ parents tx = ∅).
  { intros tx Hin. apply Hcand. specialize (Hchosen tx Hin).
    apply in_map_iff in Hchosen as ([[tx' row] prev] & <- & Hstep). cbn [fst].
    apply list_elem_of_In, elem_of_reverse, elem_of_zip_l, elem_of_zip_l, list_elem_of_In in Hstep.
    exact Hstep. }
  exists (map tx_id chosen), fee_, (0 + size_total chosen), (scaled_total chosen).
  split; [reflexivity|]. rewrite Z.add_0_l. split.
  { apply (sum_over_chosen size). intros tx Hin. apply Hin_pool, Hin. }
  split.
  { apply (sum_over_chosen (fun tx => size tx / scale)). intros tx Hin. apply Hin_pool, Hin. }
  split; [exact Hscaled|].
  intros id tx Hid Hget. apply in_map_iff in Hid as (tx' & <- & Hin).
  destruct (Hin_pool tx' Hin) as [Hpool Hpar].
  rewrite (wf_get_value pool tx' pool_wf Hpool) in Hget. injection Hget as <-. exact Hpar.
Qed.

End KnapsackSelection.

(** *** Ancestor sets *)

Section Ancestors.
Variable pool : Mempool.

Lemma closed_in_pool_union X Y : closed_in_pool pool X -> closed_in_pool pool Y -> closed_in_pool pool (X ∪ Y).
Proof.
  intros HX HY id Hid. apply elem_of_union in Hid as [Hid|Hid].
  - destruct (HX id Hid) as (tx & Hget & Hp). exists tx. split; [exact Hget|]. set_solver.
  - destruct (HY id Hid) as (tx & Hget & Hp). exists tx. split; [exact Hget|]. set_solver.
Qed.

Lemma closed_in_pool_empty : closed_in_pool pool ∅.
Proof. intros id Hid. set_solver. Qed.

Lemma calculate_ancestor_set_ok depth : forall id memo a memo',
  calculate_ancestor_set depth pool id memo = Some (a, memo') ->
  memo_ok pool memo ->
  memo_ok pool memo' /\ closed_in_pool pool (tx_ids a) /\ (is_Some (dict_get id pool) -> id ∈ tx_ids a).
Proof.
  induction depth as [|depth IH]; intros id memo a memo' Hcalc Hmemo; [discriminate|].
  cbn [calculate_ancestor_set] in Hcalc.
  destruct (memo !! id) as [known|] eqn:Hknown.
  { injection Hcalc as <- <-. destruct (Hmemo _ _ Hknown) as [Hin Hcl]. auto. }
  unfold get_transaction in Hcalc.
  destruct (dict_get id pool) as [tx|] eqn:Hget.
  2:{ injection Hcalc as <- <-. split; [exact Hmemo|]. split; [apply closed_in_pool_empty|].
      intros [? ?]; discriminate. }
  (* the loop over the parents *)
  assert (Hloop : forall ps seen acc acc',
    foldl (fun acc parent_id =>
             '(ids, fee_, size_, memo) ← acc;
             '(parent_set, memo) ← calculate_ancestor_set depth pool parent_id memo;
             Some (ids ∪ tx_ids parent_set, fee_ + total_fee parent_set,
                   size_ + total_size parent_set, memo))
          (Some acc) ps = Some acc' ->
    parents_loop_ok pool id seen acc -> parents_loop_ok pool id (seen ++ ps) acc').
  { induction ps as [|p ps IHps]; intros seen acc acc' Hfold Hok.
    - cbn in Hfold. injection Hfold as <-. rewrite app_nil_r. exact Hok.
    - cbn [foldl] in Hfold. destruct acc as [[[ids f] s] m]. cbn [mbind option_bind] in Hfold.
      destruct (calculate_ancestor_set depth pool p m) as [[pset m1]|] eqn:Hp.
      2:{ cbn in Hfold. exfalso. clear -Hfold. induction ps as [|q ps IHq]; [discriminate|].
          cbn [foldl mbind option_bind] in Hfold. auto. }
      cbn [mbind option_bind] in Hfold. destruct Hok as (Hm & Hid & Hcl & Hseen).
      destruct (IH _ _ _ _ Hp Hm) as (Hm1 & Hclp & Hpin).
      replace (seen ++ p :: ps) with ((seen ++ [p]) ++ ps) by (rewrite <- app_assoc; reflexivity).
      apply (IHps _ _ _ Hfold). split; [exact Hm1|]. split; [set_solver|]. split.
      + intros x Hx Hne. destruct (decide (x ∈ tx_ids pset)) as [Hxp|Hxp].
        * destruct (Hclp x Hxp) as (tx' & Hget' & Hpar). exists tx'. split; [exact Hget'|].
          intros q Hq Hqpool. specialize (Hpar q Hq Hqpool). set_solver.
        * assert (Hx' : x ∈ ids) by set_solver.
          destruct (Hcl x Hx' Hne) as (tx' & Hget' & Hpar). exists tx'. split; [exact Hget'|].
          intros q Hq Hqpool. specialize (Hpar q Hq Hqpool). set_solver.
      + intros q Hq Hqpool. apply in_app_iff in Hq as [Hq|[<-|[]]].
        * specialize (Hseen q Hq Hqpool). set_solver.
        * specialize (Hpin Hqpool). set_solver. }
  destruct (foldl _ _ _) as [[[[ids f] s] m]|] eqn:Hfold; [|discriminate].
  cbn [mbind option_bind] in Hcalc. injection Hcalc as <- <-.
  specialize (Hloop (elements (parents tx)) [] _ _ Hfold).
  destruct Hloop as (Hm & Hid & Hcl & Hseen).
  { split; [exact Hmemo|]. split; [set_solver|]. split; [|intros p []].
    intros x Hx Hne. set_solver. }
  cbn [tx_ids].
  assert (Hclosed : closed_in_pool pool ids).
  { intros x Hx. destruct (decide (x = id)) as [->|Hne].
    - exists tx. split; [exact Hget|]. intros p Hp Hpool. apply Hseen; [|exact Hpool].
      cbn [app]. apply list_elem_of_In, elem_of_elements. exact Hp.
    - destruct (Hcl x Hx Hne) as (tx' & Hget' & Hpar). exists tx'.
      split; [exact Hget'|]. exact Hpar. }
  split; [|split; [exact Hclosed|intros _; exact Hid]].
  intros k a Hk. destruct (decide (k = id)) as [->|Hne].
  - rewrite lookup_insert_eq in Hk. injection Hk as <-. cbn [tx_ids]. auto.
  - rewrite lookup_insert_ne in Hk by congruence. eapply Hm. exact Hk.
Qed.
End Ancestors.

Section AncestorsReturn.
Variable pool : Mempool.
Variable rank : string -> nat.
Variable depth0 : nat.
Hypothesis ranks : parents_rank_lower pool rank depth0.

Lemma calculate_ancestor_set_returns depth : forall id memo,
  (rank id < depth)%nat -> is_Some (calculate_ancestor_set depth pool id memo).
Proof.
  induction depth as [|depth IH]; intros id memo Hrank; [lia|].
  cbn [calculate_ancestor_set]. destruct (memo !! id); [eauto|].
  unfold get_transaction. destruct (dict_get id pool) as [tx|] eqn:Hget; [|eauto].
  assert (Hloop : forall ps acc, (forall p, In p ps -> (rank p < depth)%nat) ->
    is_Some (foldl (fun acc parent_id =>
             '(ids, fee_, size_, memo) ← acc;
             '(parent_set, memo) ← calculate_ancestor_set depth pool parent_id memo;
             Some (ids ∪ tx_ids parent_set, fee_ + total_fee parent_set,
                   size_ + total_size parent_set, memo))
          (Some acc) ps)).
  { induction ps as [|p ps IHps]; intros [[[ids f] s] m] Hps; cbn [foldl]; [eauto|].
    cbn [mbind option_bind].
    destruct (IH p m (Hps p ltac:(left; reflexivity))) as [[pset m1] ->].
    cbn [mbind option_bind]. apply IHps. intros q Hq. apply Hps. right. exact Hq. }
  destruct (Hloop (elements (parents tx)) ({[id]}, fee tx, size tx, memo)) as [[[[ids f] s] m] ->].
  - intros p Hp. apply list_elem_of_In, elem_of_elements in Hp.
    destruct (ranks id tx Hget) as [_ Hlow]. specialize (Hlow p Hp). lia.
  - cbn. eauto.
Qed.

Lemma ancestor_sets_of_returns : is_Some (ancestor_sets_of depth0 pool).
Proof.
  unfold ancestor_sets_of.
  assert (Hloop : forall keys acc, (forall id, In id keys -> (rank id < depth0)%nat) ->
    is_Some (foldl (fun acc id =>
             '(sets, memo) ← acc;
             '(ancestor_set, memo) ← calculate_ancestor_set depth0 pool id memo;
             Some (sets ++ [(id, ancestor_set)], memo))
          (Some acc) keys)).
  { induction keys as [|k keys IH]; intros [sets memo] Hkeys; cbn [foldl]; [eauto|].
    cbn [mbind option_bind].
    destruct (calculate_ancestor_set_returns depth0 k memo (Hkeys k ltac:(left; reflexivity)))
      as [[a m] ->].
    cbn [mbind option_bind]. apply IH. intros q Hq. apply Hkeys. right. exact Hq. }
  destruct (Hloop (dict_keys pool) ([], ∅)) as [[sets memo] ->]; [|cbn; eauto].
  intros id Hid. apply list_elem_of_In, dict_get_keys in Hid as [tx Hget].
  apply (ranks id tx Hget).
Qed.

End AncestorsReturn.

Section AncestorMining.
Variable sorted_desc : forall A : Type, (A -> ratio) -> list A -> list A.
Hypothesis sorted_desc_perm : forall A key l, Permutation (sorted_desc A key l) l.
Variable pool : Mempool.
Variable max_block_size : Z.
Hypothesis budget_nonneg : 0 <= max_block_size.

Lemma foldl_none {A B} (f : option A -> B -> option A) (l : list B) :
  (forall b, f None b = None) -> foldl f None l = None.
Proof. intros Hf. induction l as [|b l IH]; cbn [foldl]; [reflexivity|]. rewrite Hf. exact IH. Qed.

Lemma ancestor_sets_of_ok depth sets :
  ancestor_sets_of depth pool = Some sets ->
  Forall (fun entry => closed_in_pool pool (tx_ids (snd entry))) sets.
Proof.
  unfold ancestor_sets_of.
  assert (Hloop : forall keys sets0 memo0 sets1 memo1,
    foldl (fun acc id =>
             '(sets, memo) ← acc;
             '(ancestor_set, memo) ← calculate_ancestor_set depth pool id memo;
             Some (sets ++ [(id, ancestor_set)], memo))
          (Some (sets0, memo0)) keys = Some (sets1, memo1) ->
    memo_ok pool memo0 ->
    Forall (fun entry => closed_in_pool pool (tx_ids (snd entry))) sets0 ->
    Forall (fun entry => closed_in_pool pool (tx_ids (snd entry))) sets1).
  { induction keys as [|k keys IH]; intros sets0 memo0 sets1 memo1 Hfold Hmemo Hsets.
    - cbn in Hfold. injection Hfold as <- <-. exact Hsets.
    - cbn [foldl mbind option_bind] in Hfold.
      destruct (calculate_ancestor_set depth pool k memo0) as [[a m]|] eqn:Hcalc.
      2:{ cbn in Hfold. rewrite foldl_none in Hfold by reflexivity. discriminate. }
      cbn [mbind option_bind] in Hfold.
      destruct (calculate_ancestor_set_ok pool depth _ _ _ _ Hcalc Hmemo) as (Hm & Hcl & _).
      apply (IH _ _ _ _ Hfold Hm). apply Forall_app. split; [exact Hsets|].
      constructor; [exact Hcl|constructor]. }
  destruct (foldl _ _ _) as [[sets1 memo1]|] eqn:Hfold; [|discriminate].
  cbn. intros [= <-]. eapply Hloop; [exact Hfold| |constructor].
  intros id a Hlook. rewrite lookup_empty in Hlook. discriminate.
Qed.

Lemma select_missing_loop l : forall (selected : gset string) cs tf m,
  NoDup l -> (forall x, x ∈ l -> x ∉ selected) ->
  sum_over pool size l = Some m ->
  sum_over pool size (elements selected) = Some cs ->
  exists tf',
    foldl (select_missing pool) (Some (selected, cs, tf)) l
      = Some (selected ∪ list_to_set l, cs + m, tf') /\
    sum_over pool size (elements (selected ∪ list_to_set l)) = Some (cs + m).
Proof.
  induction l as [|x l IH]; intros selected cs tf m Hnd Hfresh Hm Hsum.
  - cbn in *. injection Hm as <-. exists tf. rewrite union_empty_r_L, Z.add_0_r. auto.
  - cbn [sum_over] in Hm. cbn [foldl select_missing mbind option_bind]. unfold get_transaction.
    destruct (dict_get x pool) as [tx|] eqn:Hget; [|discriminate]. cbn [mbind option_bind] in *.
    destruct (sum_over pool size l) as [m'|] eqn:Hm'; [|discriminate]. cbn in Hm.
    injection Hm as <-. apply NoDup_cons in Hnd as [Hx Hnd].
    destruct (IH (selected ∪ {[x]}) (cs + size tx) (tf + fee tx) m' Hnd) as (tf' & Hfold & Hs).
    + intros y Hy. specialize (Hfresh y ltac:(right; exact Hy)). set_solver.
    + reflexivity.
    + assert (Hperm : Permutation (elements (selected ∪ {[x]})) (x :: elements selected)).
      { rewrite (union_comm_L selected). apply elements_union_singleton.
        apply Hfresh. left. }
      rewrite (sum_over_perm _ _ _ _ Hperm). cbn [sum_over]. rewrite Hget, Hsum. cbn.
      f_equal. lia.
    + exists tf'. cbn [list_to_set].
      replace (selected ∪ ({[x]} ∪ list_to_set l)) with (selected ∪ {[x]} ∪ list_to_set l)
        by set_solver.
      replace (cs + (size tx + m')) with (cs + size tx + m') by lia. auto.
Qed.

Lemma ancestor_step_inv state entry state' :
  ancestor_step pool max_block_size (Some state) entry = Some state' ->
  mining_inv pool max_block_size state -> closed_in_pool pool (tx_ids (snd entry)) -> mining_inv pool max_block_size state'.
Proof.
  destruct state as [[selected cs] tf]. destruct entry as [id a].
  unfold ancestor_step. cbn [mbind option_bind snd]. intros H (Hsum & Hle & Hcl) Ha.
  case_bool_decide as Hin; [injection H as <-; repeat split; assumption|].
  destruct (sum_over pool size (elements (tx_ids a ∖ selected))) as [m|] eqn:Hm; [|discriminate].
  cbn [mbind option_bind] in H.
  destruct (Z.leb_spec (cs + m) max_block_size) as [Hfit|_];
    [|injection H as <-; repeat split; assumption].
  destruct (select_missing_loop (elements (tx_ids a ∖ selected)) selected cs tf m)
    as (tf' & Hfold & Hs); [apply NoDup_elements| |exact Hm|exact Hsum|].
  { intros x Hx. apply elem_of_elements in Hx. set_solver. }
  rewrite Hfold in H. injection H as <-. split; [exact Hs|]. split; [exact Hfit|].
  rewrite list_to_set_elements_L.
  replace (selected ∪ tx_ids a ∖ selected) with (selected ∪ tx_ids a).
  - apply closed_in_pool_union; assumption.
  - apply set_eq. intros x. destruct (decide (x ∈ selected)); set_solver.
Qed.

Lemma ancestor_loop_inv entries : forall state state',
  foldl (ancestor_step pool max_block_size) (Some state) entries = Some state' ->
  mining_inv pool max_block_size state ->
  Forall (fun entry => closed_in_pool pool (tx_ids (snd entry))) entries ->
  mining_inv pool max_block_size state'.
Proof.
  induction entries as [|e entries IH]; intros state state' Hfold Hinv Hall; cbn [foldl] in Hfold.
  - injection Hfold as <-. exact Hinv.
  - destruct (ancestor_step pool max_block_size (Some state) e) as [state1|] eqn:Hstep.
    + apply Forall_cons in Hall as [He Hall].
      eapply IH; [exact Hfold| |exact Hall]. eapply ancestor_step_inv; eassumption.
    + rewrite foldl_none in Hfold by reflexivity. discriminate.
Qed.

Lemma ancestor_set_mining_spec depth selected total_fee total_size :
  ancestor_set_mining sorted_desc depth pool max_block_size
    = Some (selected, total_fee, total_size) ->
  sum_over pool size selected = Some total_size /\
  total_size <= max_block_size /\
  pool_parents_selected pool selected.
Proof.
  unfold ancestor_set_mining.
  destruct (ancestor_sets_of depth pool) as [sets|] eqn:Hsets; [|discriminate].
  cbn [mbind option_bind]. apply ancestor_sets_of_ok in Hsets.
  destruct (foldl _ _ _) as [[[sel cs] tf]|] eqn:Hfold; [|discriminate].
  cbn [mbind option_bind]. intros [= <- <- <-].
  destruct (ancestor_loop_inv _ _ _ Hfold) as (Hsum & Hle & Hcl).
  - split; [reflexivity|]. split; [exact budget_nonneg|apply closed_in_pool_empty].
  - rewrite (sorted_desc_perm _ _ sets). exact Hsets.
  - split; [exact Hsum|]. split; [exact Hle|].
    intros id tx p Hid Hget Hp Hpool. apply list_elem_of_In, elem_of_elements in Hid.
    destruct (Hcl id Hid) as (tx' & Hget' & Hpar). rewrite Hget in Hget'. injection Hget' as <-.
    apply list_elem_of_In, elem_of_elements. apply Hpar; assumption.
Qed.

Lemma ancestor_step_returns state entry :
  mining_inv pool max_block_size state -> closed_in_pool pool (tx_ids (snd entry)) ->
  is_Some (ancestor_step pool max_block_size (Some state) entry).
Proof.
  destruct state as [[selected cs] tf]. destruct entry as [id a].
  unfold ancestor_step. cbn [mbind option_bind snd]. intros (Hsum & Hle & Hcl) Ha.
  case_bool_decide as Hin; [eauto|].
  destruct (sum_over_returns pool size (elements (tx_ids a ∖ selected))) as [m Hm].
  { intros x Hx. apply list_elem_of_In, elem_of_elements in Hx.
    destruct (Ha x ltac:(set_solver)) as (tx & -> & _). eauto. }
  rewrite Hm. cbn [mbind option_bind].
  destruct (_ <=? _); [|eauto].
  destruct (select_missing_loop (elements (tx_ids a ∖ selected)) selected cs tf m)
    as (tf' & -> & _); [apply NoDup_elements| |exact Hm|exact Hsum|eauto].
  intros x Hx. apply elem_of_elements in Hx. set_solver.
Qed.

Lemma ancestor_loop_returns entries : forall state,
  mining_inv pool max_block_size state ->
  Forall (fun entry => closed_in_pool pool (tx_ids (snd entry))) entries ->
  is_Some (foldl (ancestor_step pool max_block_size) (Some state) entries).
Proof.
  induction entries as [|e entries IH]; intros state Hinv Hall; cbn [foldl]; [eauto|].
  apply Forall_cons in Hall as [He Hall].
  destruct (ancestor_step_returns state e Hinv He) as [state1 Hstep]. rewrite Hstep.
  apply IH; [|exact Hall]. eapply ancestor_step_inv; eassumption.
Qed.

Lemma ancestor_set_mining_returns rank depth :
  parents_rank_lower pool rank depth ->
  is_Some (ancestor_set_mining sorted_desc depth pool max_block_size).
Proof.
  intros Hrank. unfold ancestor_set_mining.
  destruct (ancestor_sets_of_returns pool rank depth Hrank) as [sets Hsets]. rewrite Hsets.
  cbn [mbind option_bind]. apply ancestor_sets_of_ok in Hsets.
  destruct (ancestor_loop_returns (sorted_desc _ (fun x => score (snd x)) sets) (∅, 0, 0))
    as [[[sel cs] tf] ->]; [| |cbn; eauto].
  - split; [reflexivity|]. split; [exact budget_nonneg|apply closed_in_pool_empty].
  - rewrite (sorted_desc_perm _ _ sets). exact Hsets.
Qed.

End AncestorMining.

(** *** Simulated annealing *)

Lemma dict_get_set_fresh {V} (d : list (string * V)) k v :
  ~ In k (dict_keys d) -> dict_set k v d = d ++ [(k, v)].
Proof.
  induction d as [|[k' v'] d IH]; cbn [dict_set dict_keys map fst app]; [reflexivity|].
  intros Hnot. case_bool_decide as E; [exfalso; apply Hnot; left; congruence|].
  rewrite IH; [reflexivity|]. intros Hin. apply Hnot. right. exact Hin.
Qed.

Lemma tx_dict_is_pool (rest : Mempool) : forall acc : Mempool,
  mempool_wf (acc ++ rest) ->
  foldl (fun d tx => dict_set (tx_id tx) tx d) acc (get_all_transactions rest) = acc ++ rest.
Proof.
  induction rest as [|[k tx] rest IH]; intros acc Hwf; cbn [get_all_transactions dict_values map foldl snd].
  - rewrite app_nil_r. reflexivity.
  - destruct Hwf as [Hnd Hkey].
    assert (Hid : tx_id tx = k).
    { rewrite Forall_forall in Hkey. apply (Hkey (k, tx)). apply list_elem_of_In, in_app_iff.
      right. left. reflexivity. }
    rewrite Hid, dict_get_set_fresh.
    + change (map snd rest) with (get_all_transactions rest).
      rewrite IH; rewrite <- app_assoc; [reflexivity|]. split; assumption.
    + unfold dict_keys in *. rewrite map_app in Hnd. cbn [map fst] in Hnd.
      apply NoDup_app in Hnd as (_ & Hdisj & _). intros Hin.
      apply (Hdisj k); [apply list_elem_of_In; exact Hin|]. left.
Qed.

Lemma is_valid_selection_true tx_dict (selected_ids : gset string) :
  is_valid_selection tx_dict selected_ids = Some true ->
  forall id, id ∈ selected_ids ->
    exists tx, dict_get id tx_dict = Some tx /\ parents tx ⊆ selected_ids.
Proof.
  unfold is_valid_selection. intros H id Hid. apply elem_of_elements in Hid.
  induction (elements selected_ids) as [|x l IH]; [inversion Hid|].
  cbn [foldr] in H. destruct (dict_get x tx_dict) as [tx|] eqn:Hget; [|discriminate].
  cbn [mbind option_bind] in H. case_bool_decide as Hsub; cbn [negb] in H; [|discriminate].
  apply elem_of_cons in Hid as [->|Hid]; [exists tx; auto|]. apply IH; assumption.
Qed.

Section Annealing.
Variable sorted_desc : forall A : Type, (A -> ratio) -> list A -> list A.
Hypothesis sorted_desc_perm : forall A key l, Permutation (sorted_desc A key l) l.
Variable draw : nat -> nat.
Variable pool : Mempool.
Variable max_block_size : Z.
Hypothesis pool_wf : mempool_wf pool.
Hypothesis budget_nonneg : 0 <= max_block_size.

Lemma accepted_neighbor_good neighbor fee_ size_ :
  is_valid_selection pool neighbor = Some true ->
  calculate_score pool neighbor = Some (fee_, size_) ->
  size_ <= max_block_size ->
  good_selection pool max_block_size neighbor.
Proof.
  intros Hvalid Hscore Hle. split.
  - intros total Htotal. unfold calculate_score in Hscore.
    destruct (sum_over pool fee (elements neighbor)); [|discriminate]. cbn in Hscore.
    rewrite Htotal in Hscore. cbn in Hscore. injection Hscore as _ <-. exact Hle.
  - intros id tx p Hid Hget Hp. apply list_elem_of_In, elem_of_elements in Hid.
    destruct (is_valid_selection_true _ _ Hvalid id Hid) as (tx' & Hget' & Hsub).
    rewrite Hget in Hget'. injection Hget' as <-.
    apply list_elem_of_In, elem_of_elements. set_solver.
Qed.

Lemma anneal_step_best st st' :
  anneal_step draw (get_all_transactions pool) pool max_block_size st = Some st' ->
  good_selection pool max_block_size (best_selection st) -> good_selection pool max_block_size (best_selection st').
Proof.
  unfold anneal_step. intros H Hgood.
  destruct (neighbor_of _ _ _ _ _ _) as [[neighbor k]|]; [|discriminate]. cbn [mbind option_bind] in H.
  destruct (is_valid_selection pool neighbor) as [[|]|] eqn:Hvalid; cbn [mbind option_bind] in H;
    [|injection H as <-; exact Hgood|discriminate].
  destruct (calculate_score pool neighbor) as [[nf ns]|] eqn:Hscore; [|discriminate].
  cbn [mbind option_bind] in H.
  destruct (Z.leb_spec ns max_block_size) as [Hle|_]; [|injection H as <-; exact Hgood].
  destruct (current_fee st <? nf).
  - destruct (best_fee st <? nf); injection H as <-; cbn [best_selection]; [|exact Hgood].
    eapply accepted_neighbor_good; eassumption.
  - destruct (coin draw k); injection H as <-; exact Hgood.
Qed.

Lemma anneal_best iterations : forall st st',
  anneal draw iterations (get_all_transactions pool) pool max_block_size st = Some st' ->
  good_selection pool max_block_size (best_selection st) -> good_selection pool max_block_size (best_selection st').
Proof.
  induction iterations as [|n IH]; intros st st' H Hgood; cbn [anneal] in H.
  - injection H as <-. exact Hgood.
  - destruct (anneal_step _ _ _ _ st) as [st1|] eqn:Hstep; [|discriminate].
    cbn [mbind option_bind] in H. eapply IH; [exact H|]. eapply anneal_step_best; eassumption.
Qed.

Lemma simulated_annealing_selection_spec iterations selected total_fee total_size :
  simulated_annealing_selection sorted_desc draw pool max_block_size iterations
    = Some (selected, total_fee, total_size) ->
  sum_over pool size selected = Some total_size /\
  total_size <= max_block_size /\
  parents_selected pool selected.
Proof.
  unfold simulated_annealing_selection.
  rewrite (tx_dict_is_pool pool []) by exact pool_wf. cbn [app].
  pose proof (greedy_selection_spec sorted_desc sorted_desc_perm pool max_block_size
                pool_wf budget_nonneg) as Hgreedy.
  destruct (greedy_selection sorted_desc pool max_block_size) as [[initial ?] gsize].
  destruct Hgreedy as (Hsum & Hle & Hcl & Hnd).
  assert (Hperm : Permutation (elements (list_to_set initial : gset string)) initial)
    by (apply elements_list_to_set; exact Hnd).
  assert (Hinit : good_selection pool max_block_size (list_to_set initial)).
  { split.
    - intros total Htotal. rewrite (sum_over_perm _ _ _ _ Hperm), Hsum in Htotal.
      injection Htotal as <-. exact Hle.
    - intros id tx p Hid Hget Hp. rewrite Hperm in Hid |- *. eapply Hcl; eassumption. }
  destruct (calculate_score pool (list_to_set initial)) as [[cf cs]|]; [|discriminate].
  cbn [mbind option_bind].
  destruct (anneal _ _ _ _ _ _) as [st|] eqn:Hrun; [|discriminate]. cbn [mbind option_bind].
  destruct (sum_over pool size (elements (best_selection st))) as [bs|] eqn:Hbest; [|discriminate].
  cbn [mbind option_bind]. intros [= <- <- <-].
  pose proof (anneal_best _ _ _ Hrun Hinit) as [Hb Hc].
  split; [exact Hbest|]. split; [apply Hb; exact Hbest|exact Hc].
Qed.

End Annealing.

(** The two inner loops of the neighbour step. *)
Lemma drop_children cs : forall (nb : gset string) (tc : list string),
  exists nb' tc',
    foldl (fun '(neighbor, to_check) child_id =>
             if bool_decide (child_id ∈ neighbor)
             then (neighbor ∖ {[child_id]}, child_id :: to_check)
             else (neighbor, to_check)) (nb, tc) cs = (nb', tc') /\
    nb' ⊆ nb /\ (base.size nb' + length tc' = base.size nb + length tc)%nat /\
    (forall x, In x tc' -> In x tc \/ x ∈ nb).
Proof.
  induction cs as [|c cs IH]; intros nb tc; cbn [foldl].
  - exists nb, tc. split; [reflexivity|]. split; [reflexivity|]. split; [lia|auto].
  - case_bool_decide as Hc.
    + destruct (IH (nb ∖ {[c]}) (c :: tc)) as (nb' & tc' & Hf & Hsub & Hsz & Htc).
      exists nb', tc'. split; [exact Hf|]. split; [set_solver|]. split.
      * assert (Hsingle : ({[c]} : gset string) ⊆ nb) by set_solver.
        pose proof (size_difference nb {[c]} Hsingle) as Hd.
        pose proof (subseteq_size _ _ Hsingle) as Hle.
        rewrite size_singleton in Hd, Hle. cbn [length] in Hsz. lia.
      * intros x Hx. destruct (Htc x Hx) as [[<-|Hin]|Hin]; [right; exact Hc|left; exact Hin|].
        right. set_solver.
    + apply IH.
Qed.

Lemma add_parents ps (nb K : gset string) : forall (S : gset string) (q : list string),
  (forall p, In p ps -> p ∈ K) ->
  exists S' q',
    foldl (fun '(to_add_set, queue) parent_id =>
             if bool_decide (parent_id ∉ nb) && bool_decide (parent_id ∉ to_add_set)
             then (to_add_set ∪ {[parent_id]}, queue ++ [parent_id])
             else (to_add_set, queue)) (S, q) ps = (S', q') /\
    (forall x, x ∈ S' -> x ∈ S \/ In x ps) /\
    (base.size (K ∖ S') + length q' = base.size (K ∖ S) + length q)%nat /\
    (forall x, In x q' -> In x q \/ In x ps).
Proof.
  induction ps as [|p ps IH]; intros S q HK; cbn [foldl].
  - exists S, q. split; [reflexivity|]. split; [auto|]. split; [lia|auto].
  - assert (HK' : forall x, In x ps -> x ∈ K) by (intros x Hx; apply HK; right; exact Hx).
    destruct (bool_decide (p ∉ nb) && bool_decide (p ∉ S)) eqn:Hnew.
    + apply andb_true_iff in Hnew as [_ HS]. apply bool_decide_eq_true_1 in HS.
      destruct (IH (S ∪ {[p]}) (q ++ [p]) HK') as (S' & q' & Hf & HS' & Hsz & Hq).
      exists S', q'. split; [exact Hf|]. split; [|split].
      * intros x Hx. destruct (HS' x Hx) as [Hin|Hin]; [|right; right; exact Hin].
        apply elem_of_union in Hin as [Hin|Hin]; [left; exact Hin|].
        apply elem_of_singleton in Hin. right. left. symmetry. exact Hin.
      * assert (Hsplit : K ∖ S = {[p]} ∪ K ∖ (S ∪ {[p]})).
        { apply set_eq. intros x. specialize (HK p ltac:(left; reflexivity)).
          destruct (decide (x = p)) as [->|Hne]; set_solver. }
        pose proof (size_union ({[p]} : gset string) (K ∖ (S ∪ {[p]})) ltac:(set_solver)) as Hu.
        rewrite size_singleton in Hu. rewrite Hsplit, Hu.
        rewrite length_app in Hsz. cbn [length] in Hsz. lia.
      * intros x Hx. destruct (Hq x Hx) as [Hin|Hin]; [|right; right; exact Hin].
        apply in_app_iff in Hin as [Hin|[<-|[]]]; [left; exact Hin|right; left; reflexivity].
    + destruct (IH S q HK') as (S' & q' & Hf & HS' & Hsz & Hq).
      exists S', q'. split; [exact Hf|]. split; [|split; [exact Hsz|]].
      * intros x Hx. destruct (HS' x Hx) as [Hin|Hin]; [left; exact Hin|right; right; exact Hin].
      * intros x Hx. destruct (Hq x Hx) as [Hin|Hin]; [left; exact Hin|right; right; exact Hin].
Qed.

Section AnnealingReturns.
Variable sorted_desc : forall A : Type, (A -> ratio) -> list A -> list A.
Hypothesis sorted_desc_perm : forall A key l, Permutation (sorted_desc A key l) l.
Variable draw : nat -> nat.
Variable pool : Mempool.
Variable max_block_size : Z.
Hypothesis pool_wf : mempool_wf pool.
Hypothesis budget_nonneg : 0 <= max_block_size.
Hypothesis pool_closed : parents_pooled pool.

Lemma choice_returns {A} (l : list A) k : l <> [] -> exists x, choice draw l k = Some x /\ x ∈ l.
Proof.
  intros Hne. unfold choice.
  destruct (lookup_lt_is_Some_2 l (draw k mod length l)%nat) as [x Hx].
  { apply Nat.mod_upper_bound. destruct l; [contradiction|cbn; lia]. }
  exists x. split; [exact Hx|]. eapply list_elem_of_lookup_2. exact Hx.
Qed.

Lemma remove_dependents_returns fuel : forall tc (nb : gset string),
  (forall x, In x tc -> is_Some (dict_get x pool)) -> pooled pool nb ->
  (length tc + base.size nb <= fuel)%nat ->
  exists nb', remove_dependents fuel pool tc nb = Some nb' /\ nb' ⊆ nb.
Proof.
  induction fuel as [|fuel IH]; intros tc nb Htc Hnb Hfuel.
  - destruct tc; [|cbn in Hfuel; lia]. exists nb. split; reflexivity.
  - destruct tc as [|id tc]; [exists nb; split; reflexivity|].
    cbn [remove_dependents].
    destruct (Htc id ltac:(left; reflexivity)) as [tx ->]. cbn [mbind option_bind].
    destruct (drop_children (elements (children tx)) nb tc) as (nb1 & tc1 & -> & Hsub & Hsz & Hin).
    destruct (IH tc1 nb1) as (nb' & -> & Hsub').
    + intros x Hx. destruct (Hin x Hx) as [Hx'|Hx']; [apply Htc; right; exact Hx'|apply Hnb, Hx'].
    + intros x Hx. apply Hnb, Hsub, Hx.
    + cbn [length] in Hfuel. lia.
    + exists nb'. split; [reflexivity|set_solver].
Qed.

Lemma collect_parents_returns (nb : gset string) fuel : forall queue (S : gset string),
  (forall x, In x queue -> is_Some (dict_get x pool)) -> pooled pool S ->
  (length queue + base.size (list_to_set (dict_keys pool) ∖ S) <= fuel)%nat ->
  exists S', collect_parents fuel pool nb queue S = Some S' /\ pooled pool S'.
Proof.
  induction fuel as [|fuel IH]; intros queue S Hq HS Hfuel.
  - destruct queue; [|cbn in Hfuel; lia]. exists S. split; [reflexivity|exact HS].
  - destruct queue as [|id queue]; [exists S; split; [reflexivity|exact HS]|].
    cbn [collect_parents].
    destruct (Hq id ltac:(left; reflexivity)) as [tx Hget]. rewrite Hget. cbn [mbind option_bind].
    assert (Hparents : forall p, In p (elements (parents tx)) -> is_Some (dict_get p pool)).
    { intros p Hp. apply list_elem_of_In, elem_of_elements in Hp. eapply pool_closed; eassumption. }
    destruct (add_parents (elements (parents tx)) nb (list_to_set (dict_keys pool)) S queue)
      as (S1 & q1 & -> & HS1 & Hsz & Hq1).
    { intros p Hp. apply elem_of_list_to_set, dict_get_keys, Hparents, Hp. }
    apply IH.
    + intros x Hx. destruct (Hq1 x Hx) as [Hx'|Hx']; [apply Hq; right; exact Hx'|apply Hparents, Hx'].
    + intros x Hx. destruct (HS1 x Hx) as [Hx'|Hx']; [apply HS, Hx'|apply Hparents, Hx'].
    + cbn [length] in Hfuel. lia.
Qed.

Lemma neighbor_of_returns (current : gset string) k :
  pooled pool current ->
  exists nb k',
    neighbor_of draw (get_all_transactions pool) pool max_block_size current k = Some (nb, k') /\
    pooled pool nb.
Proof.
  intros Hcur. unfold neighbor_of.
  destruct (coin draw k && negb (bool_decide (current = ∅))) eqn:Hbranch.
  - apply andb_true_iff in Hbranch as [_ Hne]. apply negb_true_iff, bool_decide_eq_false_1 in Hne.
    destruct (choice_returns (elements current) (S k)) as (to_remove & -> & Hin).
    { intros Hnil. apply Hne. apply leibniz_equiv, elements_empty_inv. exact Hnil. }
    apply elem_of_elements in Hin. cbn [mbind option_bind].
    destruct (remove_dependents_returns (S (base.size (current ∖ {[to_remove]})))
                [to_remove] (current ∖ {[to_remove]})) as (nb & -> & Hsub).
    + intros x [<-|[]]. apply Hcur, Hin.
    + intros x Hx. apply Hcur. set_solver.
    + cbn [length]. lia.
    + cbn [mbind option_bind]. eexists _, _. split; [reflexivity|].
      intros x Hx. apply Hcur. set_solver.
  - destruct (filter (fun tx => tx_id tx ∉ current) (get_all_transactions pool))
      as [|c cs] eqn:Hcand; [eexists _, _; split; [reflexivity|exact Hcur]|].
    destruct (choice_returns (c :: cs) (S k)) as (to_add & -> & Hin); [discriminate|].
    rewrite <- Hcand in Hin. apply list_elem_of_filter in Hin as [_ Hin].
    apply list_elem_of_In in Hin. pose proof (wf_get_value pool to_add pool_wf Hin) as Hget.
    cbn [mbind option_bind].
    destruct (collect_parents_returns current (S (length (get_all_transactions pool)))
                [tx_id to_add] {[tx_id to_add]}) as (to_add_set & -> & Hset).
    + intros x [<-|[]]. rewrite Hget. eauto.
    + intros x Hx. apply elem_of_singleton in Hx. subst x. rewrite Hget. eauto.
    + cbn [length].
      assert (Hle : (base.size (list_to_set (dict_keys pool) ∖ {[tx_id to_add]} : gset string)
                     <= length (get_all_transactions pool))%nat).
      { transitivity (base.size (list_to_set (dict_keys pool) : gset string));
          [apply subseteq_size; set_solver|].
        destruct pool_wf as [Hnd _]. rewrite size_list_to_set by exact Hnd.
        unfold get_all_transactions, dict_values, dict_keys. rewrite !length_map. lia. }
      lia.
    + cbn [mbind option_bind].
      destruct (sum_over_returns pool size (elements to_add_set)) as [add_size ->].
      { intros x Hx. apply list_elem_of_In, elem_of_elements in Hx. apply Hset, Hx. }
      destruct (sum_over_returns pool size (elements current)) as [neighbor_size ->].
      { intros x Hx. apply list_elem_of_In, elem_of_elements in Hx. apply Hcur, Hx. }
      cbn [mbind option_bind]. destruct (_ <=? _); eexists _, _; (split; [reflexivity|]);
        [|exact Hcur].
      intros x Hx. apply elem_of_union in Hx as [Hx|Hx]; [apply Hcur, Hx|apply Hset, Hx].
Qed.

Lemma is_valid_selection_returns (selected_ids : gset string) :
  pooled pool selected_ids -> is_Some (is_valid_selection pool selected_ids).
Proof.
  intros Hsel. unfold is_valid_selection.
  assert (Hall : forall id, In id (elements selected_ids) -> is_Some (dict_get id pool)).
  { intros id Hid. apply Hsel, elem_of_elements, list_elem_of_In, Hid. }
  induction (elements selected_ids) as [|id l IH]; cbn [foldr]; [eauto|].
  destruct (Hall id ltac:(left; reflexivity)) as [tx ->]. cbn [mbind option_bind].
  destruct (negb _); [eauto|]. apply IH. intros x Hx. apply Hall. right. exact Hx.
Qed.

Lemma calculate_score_returns (selected_ids : gset string) :
  pooled pool selected_ids -> is_Some (calculate_score pool selected_ids).
Proof.
  intros Hsel. unfold calculate_score.
  assert (Hall : forall id, In id (elements selected_ids) -> is_Some (dict_get id pool)).
  { intros id Hid. apply Hsel, elem_of_elements, list_elem_of_In, Hid. }
  destruct (sum_over_returns pool fee _ Hall) as [f ->].
  destruct (sum_over_returns pool size _ Hall) as [s ->]. cbn. eauto.
Qed.

Lemma anneal_step_returns st :
  pooled pool (current_selection st) -> pooled pool (best_selection st) ->
  exists st',
    anneal_step draw (get_all_transactions pool) pool max_block_size st = Some st' /\
    pooled pool (current_selection st') /\ pooled pool (best_selection st').
Proof.
  intros Hcur Hbest. unfold anneal_step.
  destruct (neighbor_of_returns (current_selection st) (position st) Hcur)
    as (nb & k & -> & Hnb). cbn [mbind option_bind].
  destruct (is_valid_selection_returns nb Hnb) as [[|] ->]; cbn [mbind option_bind];
    [|eexists; split; [reflexivity|split; assumption]].
  destruct (calculate_score_returns nb Hnb) as [[nf ns] ->]. cbn [mbind option_bind].
  destruct (_ <=? _); [|eexists; split; [reflexivity|split; assumption]].
  destruct (_ <? nf).
  - destruct (_ <? nf); eexists; (split; [reflexivity|split; assumption]).
  - destruct (coin draw k); eexists; (split; [reflexivity|split; assumption]).
Qed.

Lemma anneal_returns iterations : forall st,
  pooled pool (current_selection st) -> pooled pool (best_selection st) ->
  exists st',
    anneal draw iterations (get_all_transactions pool) pool max_block_size st = Some st' /\
    pooled pool (best_selection st').
Proof.
  induction iterations as [|n IH]; intros st Hcur Hbest; cbn [anneal].
  - exists st. split; [reflexivity|exact Hbest].
  - destruct (anneal_step_returns st Hcur Hbest) as (st1 & -> & Hcur1 & Hbest1).
    cbn [mbind option_bind]. apply IH; assumption.
Qed.

Lemma simulated_annealing_selection_returns iterations :
  is_Some (simulated_annealing_selection sorted_desc draw pool max_block_size iterations).
Proof.
  unfold simulated_annealing_selection.
  rewrite (tx_dict_is_pool pool []) by exact pool_wf. cbn [app].
  pose proof (greedy_selection_spec sorted_desc sorted_desc_perm pool max_block_size
                pool_wf budget_nonneg) as Hgreedy.
  destruct (greedy_selection sorted_desc pool max_block_size) as [[initial ?] gsize].
  destruct Hgreedy as (Hsum & _).
  assert (Hinit : pooled pool (list_to_set initial)).
  { intros id Hid. apply elem_of_list_to_set, list_elem_of_In in Hid.
    eapply sum_over_pooled; eassumption. }
  destruct (calculate_score_returns _ Hinit) as [[cf cs] ->]. cbn [mbind option_bind].
  destruct (anneal_returns iterations
              (mkAnnealing (list_to_set initial) cf cs (list_to_set initial) cf 0))
    as (st & -> & Hbest); [exact Hinit|exact Hinit|].
  cbn [mbind option_bind].
  destruct (sum_over_returns pool size (elements (best_selection st))) as [bs ->].
  { intros x Hx. apply list_elem_of_In, elem_of_elements in Hx. apply Hbest, Hx. }
  cbn. eauto.
Qed.

End AnnealingReturns.

(** *** The common contract *)

(** What the scaling of the knapsack table loses: up to [scale - 1] bytes
    for each selected transaction. *)
Lemma sum_over_scaled pool l : forall total scaled,
  sum_over pool size l = Some total ->
  sum_over pool (fun tx => size tx / scale) l = Some scaled ->
  total <= scale * scaled + (scale - 1) * Z.of_nat (length l).
Proof.
  induction l as [|id l IH]; intros total scaled Ht Hs; cbn [sum_over length] in *.
  - injection Ht as <-. injection Hs as <-. unfold scale. lia.
  - destruct (dict_get id pool) as [tx|]; [|discriminate]. cbn [mbind option_bind] in *.
    destruct (sum_over pool size l) as [t|]; [|discriminate].
    destruct (sum_over pool (fun tx => size tx / scale) l) as [s|]; [|discriminate].
    cbn [mbind option_bind] in *. injection Ht as <-. injection Hs as <-.
    specialize (IH t s eq_refl eq_refl). unfold scale in *.
    pose proof (Z.div_mod (size tx) 1000 ltac:(lia)).
    pose proof (Z.mod_pos_bound (size tx) 1000 ltac:(lia)). lia.
Qed.


Lemma demo_pool_entries id tx :
  dict_get id demo_pool = Some tx ->
  id ∈ ["p"; "c"; "h"]%string /\
  Forall (fun p => is_Some (dict_get p demo_pool) /\ (demo_rank p < demo_rank id)%nat)
         (elements (parents tx)).
Proof.
  intros Hget. apply dict_get_Some_In in Hget. vm_compute in Hget.
  destruct Hget as [Hget|[Hget|[Hget|[]]]]; injection Hget as <- <-.
  - split; [set_solver|]. vm_compute. constructor.
  - split; [set_solver|].
    change (elements _) with ["p"%string]. repeat constructor. vm_compute. eauto.
  - split; [set_solver|]. vm_compute. constructor.
Qed.

Lemma demo_pool_ranks : parents_rank_lower demo_pool demo_rank 2.
Proof.
  intros id tx Hget. destruct (demo_pool_entries id tx Hget) as [Hid Hparents]. split.
  - unfold demo_rank. case_bool_decide; lia.
  - intros p Hp. rewrite Forall_forall in Hparents. apply Hparents, elem_of_elements, Hp.
Qed.

Lemma demo_pool_closed : parents_pooled demo_pool.
Proof.
  intros id tx p Hget Hp. destruct (demo_pool_entries id tx Hget) as [_ Hparents].
  rewrite Forall_forall in Hparents. apply Hparents, elem_of_elements, Hp.
Qed.

Lemma demo_pool_wf : mempool_wf demo_pool.
Proof. unfold demo_pool. repeat apply add_transaction_wf. exact empty_mempool_wf. Qed.



(** *** Mempool edges *)

Lemma dict_get_set {V} k k' (v : V) d :
  dict_get k (dict_set k' v d) = if bool_decide (k = k') then Some v else dict_get k d.
Proof.
  induction d as [|[k2 v2] d IH]; cbn [dict_set dict_get].
  - reflexivity.
  - destruct (decide (k' = k2)) as [->|Hne].
    + rewrite (bool_decide_eq_true_2 (k2 = k2)) by reflexivity. cbn [dict_get].
      case_bool_decide; reflexivity.
    + rewrite (bool_decide_eq_false_2 (k' = k2)) by exact Hne. cbn [dict_get]. rewrite IH.
      case_bool_decide as E1; [|reflexivity]. subst k.
      rewrite bool_decide_eq_false_2 by exact Hne. reflexivity.
Qed.

Lemma dict_get_del {V} k k' (d : list (string * V)) :
  dict_get k (dict_del k' d) = if bool_decide (k = k') then None else dict_get k d.
Proof.
  induction d as [|[k2 v2] d IH]; cbn [dict_del dict_get].
  - case_bool_decide; reflexivity.
  - destruct (decide (k' = k2)) as [->|Hne].
    + rewrite (bool_decide_eq_true_2 (k2 = k2)) by reflexivity. rewrite IH.
      case_bool_decide; reflexivity.
    + rewrite (bool_decide_eq_false_2 (k' = k2)) by exact Hne. cbn [dict_get]. rewrite IH.
      case_bool_decide as E1; [|reflexivity]. subst k.
      rewrite bool_decide_eq_false_2 by exact Hne. reflexivity.
Qed.

Lemma dict_get_update_entry f pool key k :
  dict_get k (update_entry f pool key) =
    if bool_decide (k = key) then f <$> dict_get k pool else dict_get k pool.
Proof.
  unfold update_entry. destruct (dict_get key pool) as [tx|] eqn:Hget.
  - rewrite dict_get_set. case_bool_decide as E; [|reflexivity]. subst k. rewrite Hget. reflexivity.
  - case_bool_decide as E; [|reflexivity]. subst k. rewrite Hget. reflexivity.
Qed.

Lemma dict_get_update_entries f keys : forall pool k,
  NoDup keys ->
  dict_get k (foldl (update_entry f) pool keys) =
    if bool_decide (k ∈ keys) then f <$> dict_get k pool else dict_get k pool.
Proof.
  induction keys as [|a keys IH]; intros pool k Hnd; cbn [foldl].
  - rewrite bool_decide_eq_false_2 by apply not_elem_of_nil. reflexivity.
  - apply NoDup_cons in Hnd as [Ha Hnd]. rewrite IH by exact Hnd.
    rewrite dict_get_update_entry. destruct (decide (k = a)) as [->|Hne].
    + rewrite (bool_decide_eq_false_2 (a ∈ keys)) by exact Ha.
      rewrite !bool_decide_eq_true_2; [reflexivity|left|reflexivity].
    + rewrite (bool_decide_eq_false_2 (k = a)) by exact Hne.
      destruct (decide (k ∈ keys)) as [Hin|Hin].
      * rewrite !bool_decide_eq_true_2; [reflexivity|right; exact Hin|exact Hin].
      * rewrite !bool_decide_eq_false_2; [reflexivity| |exact Hin].
        intros H. apply elem_of_cons in H as [?|?]; contradiction.
Qed.

(** What [add_transaction] stores under each key. *)
Lemma add_transaction_get pool tx k :
  dict_get k (add_transaction pool tx) =
    (fun p => if bool_decide (k ∈ parents tx)
              then with_children p (children p ∪ {[tx_id tx]}) else p)
    <$> (if bool_decide (k = tx_id tx) then Some tx else dict_get k pool).
Proof.
  unfold add_transaction. rewrite dict_get_update_entries by apply NoDup_elements.
  rewrite dict_get_set, (bool_decide_ext _ _ (elem_of_elements (parents tx) k)).
  destruct (bool_decide (k ∈ parents tx)); [reflexivity|].
  destruct (if bool_decide (k = tx_id tx) then _ else _); reflexivity.
Qed.

(** What [remove_transaction] leaves under each key. *)
Lemma remove_transaction_get pool id tx k :
  dict_get id pool = Some tx ->
  exists stored,
    parents stored = parents tx /\ children stored ⊆ children tx /\
    (id ∈ parents tx \/ children stored = children tx) /\
    dict_get k (remove_transaction pool id) =
      if bool_decide (k = id) then None
      else (fun c => if bool_decide (k ∈ children stored)
                     then with_parents c (parents c ∖ {[id]}) else c)
           <$> ((fun p => if bool_decide (k ∈ parents tx)
                          then with_children p (children p ∖ {[id]}) else p)
                <$> dict_get k pool).
Proof.
  intros Hget. unfold remove_transaction. rewrite Hget. cbv beta iota zeta.
  set (pool1 := foldl (update_entry (fun p => with_children p (children p ∖ {[id]})))
                      pool (elements (parents tx))).
  assert (Hget1 : forall k, dict_get k pool1 =
            (fun p => if bool_decide (k ∈ parents tx)
                      then with_children p (children p ∖ {[id]}) else p) <$> dict_get k pool).
  { intros k'. unfold pool1. rewrite dict_get_update_entries by apply NoDup_elements.
    rewrite (bool_decide_ext _ _ (elem_of_elements (parents tx) k')).
    destruct (bool_decide (k' ∈ parents tx)); [reflexivity|].
    destruct (dict_get k' pool); reflexivity. }
  set (stored := default tx (dict_get id pool1)).
  assert (Hstored : parents stored = parents tx /\ children stored ⊆ children tx /\
                    (id ∈ parents tx \/ children stored = children tx)).
  { unfold stored. rewrite Hget1, Hget. cbn [fmap option_fmap option_map default].
    case_bool_decide as Hself; cbn [with_children parents children].
    - split; [reflexivity|]. split; [set_solver|left; exact Hself].
    - split; [reflexivity|]. split; [reflexivity|right; reflexivity]. }
  exists stored. destruct Hstored as (Hp & Hc & Hs). split; [exact Hp|]. split; [exact Hc|].
  split; [exact Hs|].
  rewrite dict_get_del. case_bool_decide as Hk; [reflexivity|].
  rewrite dict_get_update_entries by apply NoDup_elements. rewrite Hget1.
  rewrite (bool_decide_ext _ _ (elem_of_elements (children stored) k)).
  destruct (bool_decide (k ∈ children stored)); [reflexivity|].
  destruct (_ <$> dict_get k pool); reflexivity.
Qed.

(** Decide [P] and simplify its [bool_decide] in [H]. *)
Ltac decide_in P H :=
  let E := fresh "E" in
  destruct (decide P) as [E|E];
  [rewrite (bool_decide_eq_true_2 P) in H by exact E
  |rewrite (bool_decide_eq_false_2 P) in H by exact E].

Lemma add_child_view (b : bool) id o stored :
  (fun p => if b then with_children p (children p ∪ {[id]}) else p) <$> o = Some stored ->
  exists p0, o = Some p0 /\ parents stored = parents p0 /\
    children stored = if b then children p0 ∪ {[id]} else children p0.
Proof.
  intros H. apply fmap_Some in H as (p0 & Hp0 & ->). exists p0. split; [exact Hp0|].
  destruct b; split; reflexivity.
Qed.

Lemma add_transaction_edges pool tx :
  edges_by_key pool -> children_pooled pool ->
  tx_id tx ∉ dict_keys pool -> children tx = ∅ ->
  (forall id c, dict_get id pool = Some c -> tx_id tx ∉ parents c) ->
  edges_by_key (add_transaction pool tx) /\ children_pooled (add_transaction pool tx).
Proof.
  intros Hedges Hpooled Hfresh Hnone Hunnamed.
  assert (Hnew : dict_get (tx_id tx) pool = None).
  { destruct (dict_get (tx_id tx) pool) eqn:E; [|reflexivity].
    exfalso. apply Hfresh, dict_get_keys. eauto. }
  assert (Hnochild : forall k p0, dict_get k pool = Some p0 -> tx_id tx ∉ children p0).
  { intros k p0 Hk Hin. destruct (Hpooled k p0 _ Hk Hin) as [? Hsome]. congruence. }
  split.
  - intros t c parent child Ht Hc. rewrite add_transaction_get in Ht, Hc.
    destruct (add_child_view _ _ _ _ Ht) as (p0 & Hp0 & _ & ->).
    destruct (add_child_view _ _ _ _ Hc) as (c0 & Hc0 & -> & _). clear Ht Hc.
    decide_in (t = tx_id tx) Hp0; decide_in (c = tx_id tx) Hc0.
    + injection Hp0 as <-. injection Hc0 as <-. subst t c. rewrite Hnone.
      case_bool_decide; set_solver.
    + injection Hp0 as <-. subst t. rewrite Hnone. specialize (Hunnamed c c0 Hc0).
      case_bool_decide; set_solver.
    + injection Hc0 as <-. subst c. specialize (Hnochild t p0 Hp0).
      case_bool_decide; set_solver.
    + specialize (Hedges t c p0 c0 Hp0 Hc0). case_bool_decide; set_solver.
  - intros k stored c Hk Hc. rewrite add_transaction_get in Hk |- *.
    destruct (add_child_view _ _ _ _ Hk) as (p0 & Hp0 & _ & Hch). rewrite Hch in Hc.
    apply fmap_is_Some. destruct (decide (c = tx_id tx)) as [Ec|Ec];
      [rewrite bool_decide_eq_true_2 by exact Ec; eauto|].
    rewrite bool_decide_eq_false_2 by exact Ec.
    assert (Hc' : c ∈ children p0) by (destruct (bool_decide (k ∈ parents tx)); set_solver).
    decide_in (k = tx_id tx) Hp0.
    + injection Hp0 as <-. rewrite Hnone in Hc'. set_solver.
    + eapply Hpooled; eassumption.
Qed.

Lemma remove_view (b1 b2 : bool) id o stored :
  (fun c => if b2 then with_parents c (parents c ∖ {[id]}) else c)
    <$> ((fun p => if b1 then with_children p (children p ∖ {[id]}) else p) <$> o) = Some stored ->
  exists p0, o = Some p0 /\
    parents stored = (if b2 then parents p0 ∖ {[id]} else parents p0) /\
    children stored = (if b1 then children p0 ∖ {[id]} else children p0).
Proof.
  intros H. apply fmap_Some in H as (p1 & H & ->). apply fmap_Some in H as (p0 & Hp0 & ->).
  exists p0. split; [exact Hp0|]. destruct b1, b2; split; reflexivity.
Qed.

Lemma remove_transaction_edges pool id :
  edges_by_key pool -> children_pooled pool ->
  edges_by_key (remove_transaction pool id) /\ children_pooled (remove_transaction pool id).
Proof.
  intros Hedges Hpooled.
  destruct (dict_get id pool) as [tx|] eqn:Hget;
    [|unfold remove_transaction; rewrite Hget; split; assumption].
  split.
  - intros t c parent child Ht Hc.
    destruct (remove_transaction_get pool id tx t Hget) as (s1 & _ & _ & _ & Ht'). rewrite Ht' in Ht.
    destruct (remove_transaction_get pool id tx c Hget) as (s2 & _ & _ & _ & Hc'). rewrite Hc' in Hc.
    decide_in (t = id) Ht; [discriminate|]. decide_in (c = id) Hc; [discriminate|].
    destruct (remove_view _ _ _ _ _ Ht) as (p0 & Hp0 & _ & ->).
    destruct (remove_view _ _ _ _ _ Hc) as (c0 & Hc0 & -> & _).
    specialize (Hedges t c p0 c0 Hp0 Hc0).
    destruct (bool_decide (t ∈ parents tx)), (bool_decide (c ∈ children s2)); set_solver.
  - intros k stored c Hk Hc.
    destruct (remove_transaction_get pool id tx k Hget) as (s1 & _ & _ & _ & Hk'). rewrite Hk' in Hk.
    decide_in (k = id) Hk; [discriminate|].
    destruct (remove_view _ _ _ _ _ Hk) as (p0 & Hp0 & _ & Hch). rewrite Hch in Hc.
    assert (Hc0 : c ∈ children p0) by (destruct (bool_decide (k ∈ parents tx)); set_solver).
    assert (Hne : c <> id).
    { intros ->. pose proof (proj1 (Hedges k id p0 tx Hp0 Hget) Hc0) as Hpar.
      rewrite bool_decide_eq_true_2 in Hc by exact Hpar. set_solver. }
    destruct (remove_transaction_get pool id tx c Hget) as (s2 & _ & _ & _ & ->).
    rewrite bool_decide_eq_false_2 by exact Hne.
    apply fmap_is_Some, fmap_is_Some. eapply Hpooled; eassumption.
Qed.

Lemma parents_first_invariant pool :
  parents_first pool -> mempool_wf pool /\ edges_by_key pool /\ children_pooled pool.
Proof.
  induction 1 as [|pool tx _ (Hwf & Hedges & Hpooled) Hfresh Hnone Hunnamed
                  |pool id _ (Hwf & Hedges & Hpooled)].
  - split; [apply empty_mempool_wf|]. split.
    + intros t c parent child Ht. discriminate.
    + intros id tx c Hid. discriminate.
  - split; [apply add_transaction_wf, Hwf|]. apply add_transaction_edges; assumption.
  - split; [apply remove_transaction_wf, Hwf|]. apply remove_transaction_edges; assumption.
Qed.


Lemma demo_pool_parents_first : parents_first demo_pool.
Proof.
  unfold demo_pool.
  apply parents_first_add; [apply parents_first_add; [apply parents_first_add|..]|..];
    try apply parents_first_empty; try reflexivity;
    try (apply (bool_decide_eq_true_1 _); vm_compute; reflexivity).
  - intros id c Hget. discriminate.
  - intros id c Hget. apply dict_get_Some_In in Hget. vm_compute in Hget.
    destruct Hget as [Hget|[]]. injection Hget as <- <-.
    apply (bool_decide_eq_true_1 _). vm_compute. reflexivity.
  - intros id c Hget. apply dict_get_Some_In in Hget. vm_compute in Hget.
    destruct Hget as [Hget|[Hget|[]]]; injection Hget as <- <-;
      apply (bool_decide_eq_true_1 _); vm_compute; reflexivity.
Qed.



(** *** Further properties of the mempool *)





End SelectionFacts.
